(** * The OSRM client of nextmv-io/sdk (route/osrm): a shallow embedding

    The Go package [osrm] asks an OSRM server for distance and duration
    tables and for route polylines.  This file embeds its client
    (constructor, setters, [get], [Table], [tableRequests], [Polyline],
    [chunkBy], [mergeRequests], [deflateZeroes], [inflateZeroes]) and proves
    or refutes the properties stated about it.

    Conventions of the embedding:
    - [float64] is Rocq's primitive binary64 [float]; a [measure.Point] is a
      [[]float64], hence a [list float] of any length;
    - Go [int] values whose sign matters (snap radius, table size, status
      code) are [Z]; slice indices and lengths are [nat];
    - a [[]byte] and a [string] are both a [string];
    - a Go call either returns or panics: [outcome]; a call that never
      returns because every goroutine is blocked is the panic [Deadlock];
    - a Go [error] result is an [option error] ([None] is [nil]);
    - the packages the client only calls (net/url, net/http, crypto/sha1,
      encoding/json, sort, go-polyline) are the fields of a record [Libs],
      over which every definition is parametric. *)

From Stdlib Require Import ZArith Floats String Ascii List Permutation Sorted Lia.
From stdpp Require Import base list strings pretty sorting.

Set Warnings "-inexact-float".

(** ** Go runtime: returning or panicking

    [ChanSizeOutOfRange] is the panic of [make(chan T, size)] on a negative
    size; [Deadlock] stands for a call that waits for ever on goroutines
    that are all blocked. *)

Inductive panic : Type :=
  | IndexOutOfRange
  | NilDereference
  | DivideByZero
  | ChanSizeOutOfRange
  | Deadlock.

Inductive outcome (A : Type) : Type :=
  | Return (a : A)
  | Panic (p : panic).
Arguments Return {A} a.
Arguments Panic {A} p.

Definition obind {A B} (m : outcome A) (k : A -> outcome B) : outcome B :=
  match m with
  | Return a => k a
  | Panic p => Panic p
  end.

Declare Scope go_scope.
Delimit Scope go_scope with go.
Notation "x <-- m ;; k" := (obind m (fun x => k))
  (at level 100, m at next level, right associativity) : go_scope.
Local Open Scope go_scope.

(** [s[i]] on a slice: a run-time panic when [i] is out of range. *)
Definition idx {A} (s : list A) (i : nat) : outcome A :=
  match s !! i with
  | Some x => Return x
  | None => Panic IndexOutOfRange
  end.

(** [s[i] = x] on a slice. *)
Definition setIdx {A} (s : list A) (i : nat) (x : A) : outcome (list A) :=
  if decide (i < length s) then Return (<[i := x]> s) else Panic IndexOutOfRange.

(** [for i, x := range l { s = f(i, x, s) }], the index starting at [i]. *)
Fixpoint forRange {A St} (f : nat -> A -> St -> outcome St) (i : nat) (l : list A)
    (s : St) : outcome St :=
  match l with
  | [] => Return s
  | x :: l' => s' <-- f i x s ;; forRange f (S i) l' s'
  end.

(** A loop body run on every element, collecting the results in order. *)
Fixpoint mapM {A B} (f : A -> outcome B) (l : list A) : outcome (list B) :=
  match l with
  | [] => Return []
  | x :: l' => y <-- f x ;; ys <-- mapM f l' ;; Return (y :: ys)
  end.

(** ** Errors *)

(** Modelled from the spec: the package's [Error] type and [NewError], which
    are declared in a file of the package that is not among the sources
    ("ClassifiedError: an error plus a boolean marking it as caused by invalid
    caller input vs caused by the backend/service").  Every other error value
    (errors.New, fmt.Errorf, an error of a library) is an [errorString]. *)

Inductive error : Type :=
  | errorString (msg : string)
  | osrmError (msg : string) (input : bool).

(** Modelled from the spec: [NewError(msg, input)] of the same missing file,
    an error with the message and the classification it is given. *)
Definition NewError (msg : string) (input : bool) : error := osrmError msg input.

(** [err.Error()] *)
Definition Error_ (e : error) : string :=
  match e with
  | errorString msg => msg
  | osrmError msg _ => msg
  end.

(** Modelled from the spec: [IsInputError] of the same missing file, read
    through the type assertion of [Table]:
    [e, ok := err.(Error); ok && e.IsInputError()]. *)
Definition isInputError (e : error) : bool :=
  match e with
  | errorString _ => false
  | osrmError _ input => input
  end.

(** ** Strings and formatting *)

Definition dquote : string := String (Ascii false true false false false true false false) EmptyString.

(** [strings.Join(elems, sep)] *)
Definition strings_Join (elems : list string) (sep : string) : string :=
  String.concat sep elems.

(** [strconv.Itoa] *)
Definition strconv_Itoa (i : Z) : string := pretty i.

(** Division of [n] by [d > 0] rounded to the nearest integer, ties to even. *)
Definition round_half_even (n d : Z) : Z :=
  let q := (n / d)%Z in
  let r := (n mod d)%Z in
  if (2 * r <? d)%Z then q
  else if (d <? 2 * r)%Z then (q + 1)%Z
  else if Z.even q then q else (q + 1)%Z.

Definition pad6 (n : Z) : string :=
  match pretty (1000000 + n)%Z with
  | String _ s => s
  | EmptyString => EmptyString
  end.

(** [fmt.Sprintf("%f", x)]: the exact value of [x] rounded to six decimals
    (ties to even), with Go's spellings of the special values. *)
Definition Sprintf_f (x : float) : string :=
  match Prim2SF x with
  | S754_nan => "NaN"
  | S754_infinity s => if s then "-Inf" else "+Inf"
  | S754_zero s => (if s then "-" else "") +:+ "0.000000"
  | S754_finite s m e =>
      let num := (Z.pos m * 1000000)%Z in
      let q := (if 0 <=? e then num * 2 ^ e
                else round_half_even num (2 ^ (- e)))%Z in
      (if s then "-" else "") +:+ pretty (q / 1000000)%Z +:+ "."
        +:+ pad6 (q mod 1000000)%Z
  end.

(** [fmt.Sprintf("%f,%f", a, b)] *)
Definition Sprintf_f_f (a b : float) : string :=
  Sprintf_f a +:+ "," +:+ Sprintf_f b.

(** ** Data model *)

(** [measure.Point] *)
Abbreviation Point := (list float) (only parsing).

Inductive Endpoint : Type :=
  | TableEndpoint
  | RouteEndpoint.

Definition Endpoint_string (e : Endpoint) : string :=
  match e with
  | TableEndpoint => "table"
  | RouteEndpoint => "route"
  end.

(** [request]: a path and the block indices for later stitching. *)
Record request : Type := {
  path : string;
  req_row : nat;
  req_column : nat
}.

(** [tableResponse] *)
Record tableResponse : Type := {
  Code : string;
  Message : string;
  Distances : list (list float);
  Durations : list (list float);
  row : nat;
  column : nat
}.

(** [result]: a response or an error of one concurrent request. *)
Record result : Type := {
  res : option tableResponse;
  err : option error
}.

(** [tableConfig] *)
Record tableConfig : Type := {
  withDistance : bool;
  withDuration : bool;
  parallelRuns : Z;
  withApproachCurb : bool;
  withExclude : list string
}.

Record Step : Type := { Step_Geometry : string }.
Record Leg : Type := { Steps : list Step }.
Record Route : Type := { Geometry : string; Legs : list Leg }.

(** [RouteResponse] *)
Record RouteResponse : Type := {
  Route_Code : string;
  Routes : list Route;
  Route_Message : string
}.

(** What the client reads of an [*http.Response]: the status, what
    [io.ReadAll(resp.Body)] gives and what [resp.Body.Close()] gives. *)
Record Response : Type := {
  StatusCode : Z;
  Body : string;
  ReadErr : option error;
  CloseErr : option error
}.

Definition StatusOK : Z := 200.
Definition StatusBadRequest : Z := 400.

(** ** The cache (hashicorp/golang-lru)

    The entries of an [lru.Cache], most recently used first, and its size.
    [Get] moves the entry it finds to the front; [Add] updates or inserts at
    the front and evicts the oldest entry beyond the size. *)

Record lruCache : Type := {
  lru_size : nat;
  lru_items : list (string * string)
}.

(** [lru.New(size)]: an error, and a nil cache, unless [size > 0]. *)
Definition lru_New (size : Z) : option lruCache :=
  if (size <=? 0)%Z then None
  else Some {| lru_size := Z.to_nat size; lru_items := [] |}.

Fixpoint lru_remove (key : string) (items : list (string * string)) :
    list (string * string) :=
  match items with
  | [] => []
  | (k, v) :: items' =>
      if String.eqb k key then lru_remove key items'
      else (k, v) :: lru_remove key items'
  end.

Fixpoint lru_find (key : string) (items : list (string * string)) : option string :=
  match items with
  | [] => None
  | (k, v) :: items' => if String.eqb k key then Some v else lru_find key items'
  end.

Definition lru_Get (c : lruCache) (key : string) : lruCache * option string :=
  match lru_find key (lru_items c) with
  | Some v =>
      ({| lru_size := lru_size c;
          lru_items := (key, v) :: lru_remove key (lru_items c) |}, Some v)
  | None => (c, None)
  end.

Definition lru_Add (c : lruCache) (key value : string) : lruCache :=
  {| lru_size := lru_size c;
     lru_items := take (lru_size c) ((key, value) :: lru_remove key (lru_items c)) |}.

(** ** The client *)

(** [client]; its [httpClient] is the [http_Do] of [Libs]. *)
Record client : Type := {
  cache : option lruCache;
  host : string;
  removeEmpty : bool;
  snapRadius : Z;
  scaleFactor : float;
  maxTableSize : Z;
  useCache : bool
}.

(** [NewClient(host)] before its options are applied. *)
Definition NewClient (host_ : string) : client :=
  {| cache := None; host := host_; removeEmpty := false; snapRadius := 0;
     scaleFactor := 1; maxTableSize := 100; useCache := false |}.

(** [WithCache(maxItems)] *)
Definition WithCache (maxItems : Z) (c : client) : client :=
  {| cache := lru_New maxItems; host := host c; removeEmpty := removeEmpty c;
     snapRadius := snapRadius c; scaleFactor := scaleFactor c;
     maxTableSize := maxTableSize c; useCache := true |}.

(** [DefaultClient(host, useCache)] *)
Definition DefaultClient (host_ : string) (useCache_ : bool) : client :=
  if useCache_ then WithCache 100 (NewClient host_) else NewClient host_.

Definition IgnoreEmpty (c : client) (ignore : bool) : client :=
  {| cache := cache c; host := host c; removeEmpty := ignore;
     snapRadius := snapRadius c; scaleFactor := scaleFactor c;
     maxTableSize := maxTableSize c; useCache := useCache c |}.

(** The setters return the client after the call and the error. *)
Definition SnapRadius (c : client) (radius : Z) : client * option error :=
  if (radius <? 0)%Z then (c, Some (errorString "radius must be >= 0"))
  else ({| cache := cache c; host := host c; removeEmpty := removeEmpty c;
           snapRadius := radius; scaleFactor := scaleFactor c;
           maxTableSize := maxTableSize c; useCache := useCache c |}, None).

Definition MaxTableSize (c : client) (size : Z) : client * option error :=
  if (size <? 1)%Z then (c, Some (errorString "max table size must be > 0"))
  else ({| cache := cache c; host := host c; removeEmpty := removeEmpty c;
           snapRadius := snapRadius c; scaleFactor := scaleFactor c;
           maxTableSize := size; useCache := useCache c |}, None).

Definition ScaleFactor (c : client) (factor : float) : client * option error :=
  if PrimFloat.leb factor 0 then (c, Some (errorString "scale factor must be > 0"))
  else ({| cache := cache c; host := host c; removeEmpty := removeEmpty c;
           snapRadius := snapRadius c; scaleFactor := factor;
           maxTableSize := maxTableSize c; useCache := useCache c |}, None).

Definition set_cache (c : client) (ch : lruCache) : client :=
  {| cache := Some ch; host := host c; removeEmpty := removeEmpty c;
     snapRadius := snapRadius c; scaleFactor := scaleFactor c;
     maxTableSize := maxTableSize c; useCache := useCache c |}.

(** ** The packages the client calls

    [url_Parse], [url_ResolveReference] and [url_String] are net/url's;
    [http_NewRequest] is [http.NewRequestWithContext] for a GET without
    body; [http_Do] is the transport, a transition of the outside [World];
    [sha1_hex] is [fmt.Sprintf("%x", sha1.Sum(...))]; [Sprintf_q] is the
    verb [%q]; [sort_Slice] is [sort.Slice]. *)

Record Libs : Type := {
  URL : Type;
  url_Parse : string -> error + URL;
  url_ResolveReference : URL -> URL -> URL;
  url_String : URL -> string;
  Request : Type;
  World : Type;
  http_NewRequest : string -> error + Request;
  http_Do : World -> Request -> World * (error + Response);
  sha1_hex : string -> string;
  json_Unmarshal_table : string -> error + tableResponse;
  json_Unmarshal_route : string -> error + RouteResponse;
  Sprintf_q : string -> string;
  sort_Slice : forall A : Type, (A -> A -> bool) -> list A -> list A;
  polyline_DecodeCoords : string -> error + list (list float);
  polyline_EncodeCoords : list (list float) -> string
}.

(** ** Points *)

Definition unroutablePoint : Point := [(-143.292892)%float; 37.683603%float].

(** The body of the loop of [handleUnroutablePoints]: [out[i]]. *)
Definition sentPoint (point : Point) : Point :=
  if decide (length point = 2) then point else unroutablePoint.

(** [handleUnroutablePoints]: sets nil values to an unroutable point. *)
Definition handleUnroutablePoints (in_ : list Point) : list Point :=
  map sentPoint in_.

(** [fmt.Sprintf("%f,%f", point[0], point[1])] *)
Definition pointString (point : list float) : outcome string :=
  x <-- idx point 0 ;; y <-- idx point 1 ;; Return (Sprintf_f_f x y).

(** [pointsParameters] *)
Definition pointsParameters (points : list Point) : outcome (list string) :=
  mapM pointString (handleUnroutablePoints points).

(** [pointsParameter] *)
Definition pointsParameter (points : list Point) : outcome string :=
  pointStrings <-- pointsParameters points ;;
  Return (strings_Join pointStrings ";").

(** ** chunkBy *)

(** The loop of [chunkBy]; it runs at most [length items] times. *)
Fixpoint chunkBy_loop {T} (fuel : nat) (items : list T) (chunkSize : nat)
    (chunks : list (list T)) : list (list T) :=
  match fuel with
  | O => chunks ++ [items]
  | S fuel' =>
      if decide (chunkSize < length items)
      then chunkBy_loop fuel' (drop chunkSize items) chunkSize
             (chunks ++ [take chunkSize items])
      else chunks ++ [items]
  end.

(** [chunkBy(items, chunkSize)].  A zero size divides by zero in the
    capacity of [make]; a negative one gives a negative capacity or a
    negative slice bound. *)
Definition chunkBy {T} (items : list T) (chunkSize : Z) : outcome (list (list T)) :=
  if (chunkSize =? 0)%Z then Panic DivideByZero
  else if (chunkSize <? 0)%Z then Panic IndexOutOfRange
  else Return (chunkBy_loop (length items) items (Z.to_nat chunkSize) []).

(** ** deflateZeroes and inflateZeroes *)

(** [len(point) == 0 || (point[0] == 0 && point[1] == 0)] *)
Definition isZeroPoint (point : Point) : outcome bool :=
  if decide (length point = 0) then Return true
  else
    x <-- idx point 0 ;;
    if PrimFloat.eqb x 0
    then (y <-- idx point 1 ;; Return (PrimFloat.eqb y 0))
    else Return false.

Definition deflateStep (i : nat) (point : Point) (acc : list Point * list nat) :
    outcome (list Point * list nat) :=
  zero <-- isZeroPoint point ;;
  if zero then Return acc
  else Return (acc.1 ++ [point], acc.2 ++ [i]).

(** [deflateZeroes] *)
Definition deflateZeroes (points : list Point) : outcome (list Point * list nat) :=
  forRange deflateStep 0 points ([], []).

(** [inflated[oi][oj] = matrix[i][j]] *)
Definition inflateCell (matrix : list (list float)) (i oi j oj : nat)
    (inflated : list (list float)) : outcome (list (list float)) :=
  irow <-- idx inflated oi ;;
  mrow <-- idx matrix i ;;
  v <-- idx mrow j ;;
  irow' <-- setIdx irow oj v ;;
  Return (<[oi := irow']> inflated).

(** [inflateZeroes] *)
Definition inflateZeroes (matrix : list (list float)) (indices : list nat)
    (length : nat) : outcome (list (list float)) :=
  let inflated := replicate length (replicate length 0%float) in
  forRange
    (fun i oi inflated =>
       forRange (fun j oj inflated => inflateCell matrix i oi j oj inflated)
         0 indices inflated)
    0 indices inflated.

(** ** mergeRequests *)

(** The comparison given to [sort.Slice]. *)
Definition less (a b : tableResponse) : bool :=
  if row a =? row b then column a <? column b else row a <? row b.

(** [for i := 0; i < len(sub); i++
      { merged[index+i] = append(merged[index+i], sub[i]...) }] *)
Definition appendColumns (merged : list (list float)) (index : nat)
    (sub : list (list float)) : outcome (list (list float)) :=
  forRange
    (fun i subrow merged =>
       mrow <-- idx merged (index + i) ;;
       Return (<[index + i := mrow ++ subrow]> merged))
    0 sub merged.

Record mergeState : Type := {
  merged : tableResponse;
  subRow : nat;
  disRows : nat;
  disIndex : nat;
  durRows : nat;
  durIndex : nat
}.

Definition with_matrices (r : tableResponse) (dis dur : list (list float)) :
    tableResponse :=
  {| Code := Code r; Message := Message r; Distances := dis; Durations := dur;
     row := row r; column := column r |}.

(** The body of the loop over [responses[1:]]. *)
Definition mergeStep (res_ : tableResponse) (s : mergeState) : outcome mergeState :=
  if negb (row res_ =? subRow s) then
    Return {| merged := with_matrices (merged s)
                          (Distances (merged s) ++ Distances res_)
                          (Durations (merged s) ++ Durations res_);
              subRow := S (subRow s);
              disRows := disRows s; disIndex := disIndex s + disRows s;
              durRows := durRows s; durIndex := durIndex s + durRows s |}
  else
    dis <-- appendColumns (Distances (merged s)) (disIndex s) (Distances res_) ;;
    dur <-- appendColumns (Durations (merged s)) (durIndex s) (Durations res_) ;;
    Return {| merged := with_matrices (merged s) dis dur;
              subRow := subRow s;
              disRows := length (Distances res_); disIndex := disIndex s;
              durRows := length (Durations res_); durIndex := durIndex s |}.

(** [mergeRequests] *)
Definition mergeRequests (L : Libs) (responses : list tableResponse) :
    outcome tableResponse :=
  match sort_Slice L _ less responses with
  | [] => Panic IndexOutOfRange
  | first :: rest =>
      s <-- forRange (fun _ res_ s => mergeStep res_ s) 0 rest
              {| merged := first; subRow := 0; disRows := 0; disIndex := 0;
                 durRows := 0; durIndex := 0 |} ;;
      Return (merged s)
  end.

(** [for i, x := range l { ... }] whose body may leave the function with an
    error ([inl]) or go on with a new state ([inr]). *)
Fixpoint forRangeE {A St} (f : nat -> A -> St -> outcome (error + St)) (i : nat)
    (l : list A) (s : St) : outcome (error + St) :=
  match l with
  | [] => Return (inr s)
  | x :: l' =>
      r <-- f i x s ;;
      match r with
      | inl e => Return (inl e)
      | inr s' => forRangeE f (S i) l' s'
      end
  end.

Definition newline : string :=
  String (Ascii false true false true false false false false) EmptyString.

Section Client.
Context (L : Libs).

(** The outside world and the number of transport calls made so far. *)
Record net : Type := {
  world : World L;
  calls : nat
}.

(** [c.httpClient.Do(req)] *)
Definition Do (n : net) (req : Request L) : net * (error + Response) :=
  let (w, r) := http_Do L (world n) req in
  ({| world := w; calls := S (calls n) |}, r).

(** [handleErrorStatus] *)
Definition handleErrorStatus (resp : Response) : error :=
  match ReadErr resp with
  | Some e => e
  | None =>
      if (StatusCode resp =? StatusBadRequest)%Z
      then NewError ("Error in input data when getting maps: " +:+ Body resp) true
      else NewError ("error response from OSRM: " +:+ Body resp) false
  end.

(** [c.cache.Get(key)] when [c.useCache]; a nil cache panics. *)
Definition cacheLookup (c : client) (key : string) : outcome (client * option string) :=
  if useCache c then
    match cache c with
    | None => Panic NilDereference
    | Some ch => let (ch', found) := lru_Get ch key in Return (set_cache c ch', found)
    end
  else Return (c, None).

(** [c.cache.Add(key, data)] when [c.useCache]. *)
Definition cacheStore (c : client) (key data : string) : outcome client :=
  if useCache c then
    match cache c with
    | None => Panic NilDereference
    | Some ch => Return (set_cache c (lru_Add ch key data))
    end
  else Return c.

(** [get]: the data, the error, and the client and the world after the call. *)
Definition get (c : client) (uri : string) (n : net) :
    outcome (string * option error * client * net) :=
  let key := if useCache c then sha1_hex L uri else "" in
  hit <-- cacheLookup c key ;;
  let (c, cached) := hit : client * option string in
  match cached with
  | Some b => Return (b, None, c, n)
  | None =>
      match url_Parse L (host c) with
      | inl e => Return ("", Some e, c, n)
      | inr h =>
          match url_Parse L uri with
          | inl e => Return ("", Some e, c, n)
          | inr u =>
              let u := url_ResolveReference L h u in
              match http_NewRequest L (url_String L u) with
              | inl e => Return ("", Some e, c, n)
              | inr req =>
                  let (n, r) := Do n req in
                  match r with
                  | inl e => Return ("", Some e, c, n)
                  | inr resp =>
                      if negb (StatusCode resp =? StatusOK)%Z
                      then Return ("", Some (handleErrorStatus resp), c, n)
                      else
                        match ReadErr resp with
                        | Some e => Return (Body resp, Some e, c, n)
                        | None =>
                            c' <-- cacheStore c key (Body resp) ;;
                            Return (Body resp, CloseErr resp, c', n)
                        end
                  end
              end
          end
      end
  end.

Definition Get := get.

(** [getPath] *)
Definition getPath (endpoint : Endpoint) (pointsParameter_ : string) : error + string :=
  match url_Parse L ("/" +:+ Endpoint_string endpoint +:+ "/v1/driving/") with
  | inl e => inl e
  | inr u =>
      match url_Parse L pointsParameter_ with
      | inl e => inl e
      | inr pointsURL => inr (url_String L (url_ResolveReference L u pointsURL))
      end
  end.

(** ** tableRequests *)

(** [convertedPoints]: the first loop of [tableRequests]. *)
Definition convertPoints (points : list Point) : outcome (list (list float)) :=
  mapM (fun point => x <-- idx point 0 ;; y <-- idx point 1 ;; Return [x; y])
    (handleUnroutablePoints points).

(** The points string of one request (the [strings.Builder] loop). *)
Definition chunkString (resultingChunk : list (list float)) : outcome string :=
  strs <-- mapM pointString resultingChunk ;;
  Return (strings_Join strs ";").

(** The body of the two nested loops of [tableRequests]. *)
Definition tableRequest (c : client) (config : tableConfig) (p1 p2 : nat)
    (pointChunk1 pointChunk2 : list (list float)) : outcome (error + request) :=
  let resultingChunk := pointChunk1 ++ pointChunk2 in
  coords <-- chunkString resultingChunk ;;
  match getPath TableEndpoint coords with
  | inl e => Return (inl e)
  | inr path0 =>
      let isDefault := negb (withDistance config) && negb (withDuration config) in
      let annotations :=
        (if isDefault || withDuration config then ["duration"] else [])
        ++ (if isDefault || withDistance config then ["distance"] else []) in
      let path1 :=
        if decide (1 <= length annotations)
        then path0 +:+ "?annotations=" +:+ strings_Join annotations ","
        else path0 in
      let path2 :=
        if withApproachCurb config
        then path1 +:+ "&approaches="
             +:+ strings_Join (replicate (length resultingChunk) "curb") ";"
        else path1 in
      let path3 :=
        if decide (0 < length (withExclude config))
        then path2 +:+ "&exclude=" +:+ strings_Join (withExclude config) ","
        else path2 in
      let path4 :=
        if negb (PrimFloat.eqb (scaleFactor c) 1)
        then path3 +:+ "&scale_factor=" +:+ Sprintf_f (scaleFactor c)
        else path3 in
      let path5 :=
        if (0 <? snapRadius c)%Z
        then path4 +:+ "&radiuses="
             +:+ strings_Join
                   (replicate (length resultingChunk) (strconv_Itoa (snapRadius c))) ";"
        else path4 in
      let indices :=
        map (fun i => strconv_Itoa (Z.of_nat i)) (seq 0 (length resultingChunk)) in
      Return (inr {| path := path5
                       +:+ "&sources="
                       +:+ strings_Join (take (length pointChunk1) indices) ";"
                       +:+ "&destinations="
                       +:+ strings_Join (drop (length pointChunk1) indices) ";";
                     req_row := p1; req_column := p2 |})
  end.

(** [tableRequests]: one request per ordered pair of chunks, rows first;
    the first error of [getPath] ends the call. *)
Definition tableRequests (c : client) (config : tableConfig) (points : list Point) :
    outcome (error + list request) :=
  convertedPoints <-- convertPoints points ;;
  pointChunks <-- chunkBy convertedPoints (maxTableSize c) ;;
  forRangeE
    (fun p1 pointChunk1 requests =>
       forRangeE
         (fun p2 pointChunk2 requests =>
            r <-- tableRequest c config p1 p2 pointChunk1 pointChunk2 ;;
            match r with
            | inl e => Return (inl e)
            | inr req => Return (inr (requests ++ [req]))
            end)
         0 pointChunks requests)
    0 pointChunks [].

(** ** Table *)

Definition result_err (e : error) : result := {| res := None; err := Some e |}.

Definition stamp (t : tableResponse) (req : request) : tableResponse :=
  {| Code := Code t; Message := Message t; Distances := Distances t;
     Durations := Durations t; row := req_row req; column := req_column req |}.

(** What the goroutine of a request sends on [out] once [c.get] has
    returned [body] and [e]. *)
Definition answer (req : request) (body : string) (e : option error) : result :=
  match e with
  | Some e => result_err e
  | None =>
      match json_Unmarshal_table L body with
      | inl e => result_err e
      | inr tableResp =>
          if negb (String.eqb (Code tableResp) "Ok")
          then result_err
                 (errorString
                    ("expected " +:+ dquote +:+ "Ok" +:+ dquote
                     +:+ " response code; got "
                     +:+ Sprintf_q L (Code tableResp)
                     +:+ " (" +:+ Sprintf_q L (Message tableResp) +:+ ")"))
          else {| res := Some (stamp tableResp req); err := None |}
      end
  end.

(** The body of the goroutine of one request when nothing else runs
    between its steps: what it sends on [out], and the client and the world
    after it. *)
Definition fetch (c : client) (req : request) (n : net) :
    outcome (result * client * net) :=
  g <-- get c (path req) n ;;
  let '(body, e, c, n) := g in
  Return (answer req body e, c, n).

(** *** The goroutines

    [Table] starts one goroutine per request.  They share the client (its
    cache), the world, the channel [out] and the channel [guard], and the
    scheduler interleaves them.  A goroutine touches what is shared at six
    places, and what it does between two of them is its own: it takes a
    place in [guard]; it looks its key up in the cache; it asks the server;
    it adds the body to the cache; it sends its result on [out]; it gives
    its place in [guard] back.  [task] says which of these a goroutine does
    next. *)

(** The key of [uri] in the cache. *)
Definition cacheKey (c : client) (uri : string) : string :=
  if useCache c then sha1_hex L uri else "".

(** [get] from the host to the body that was read: what [get] returns at
    once ([inl], the data and the error), or the answer whose body it goes
    on to store ([inr]). *)
Definition getRemote (c : client) (uri : string) (n : net) :
    net * (string * error + Response) :=
  match url_Parse L (host c) with
  | inl e => (n, inl ("", e))
  | inr h =>
      match url_Parse L uri with
      | inl e => (n, inl ("", e))
      | inr u =>
          let u := url_ResolveReference L h u in
          match http_NewRequest L (url_String L u) with
          | inl e => (n, inl ("", e))
          | inr req =>
              let (n, r) := Do n req in
              match r with
              | inl e => (n, inl ("", e))
              | inr resp =>
                  if negb (StatusCode resp =? StatusOK)%Z
                  then (n, inl ("", handleErrorStatus resp))
                  else
                    match ReadErr resp with
                    | Some e => (n, inl (Body resp, e))
                    | None => (n, inr resp)
                    end
              end
          end
      end
  end.

(** Where a goroutine stands: [Queued], started by [go] and before
    [guard <- struct{}{}]; [Started], with a place in [guard] and about to
    call [c.get]; [Asking], its key was not in the cache and it is about to
    ask the server; [Storing], it has read the body of a 200 and is about
    to add it to the cache; [Sending], it has its result and is about to
    send it on [out]; [Leaving], it has sent and is about to give its place
    back (the deferred [<-guard]); [Gone]. *)
Inductive task : Type :=
  | Queued (req : request)
  | Started (req : request)
  | Asking (req : request)
  | Storing (req : request) (resp : Response)
  | Sending (req : request) (r : result)
  | Leaving
  | Gone.

(** The goroutine has a place in [guard]. *)
Definition holds (t : task) : bool :=
  match t with
  | Queued _ | Gone => false
  | _ => true
  end.

(** [len(guard)] *)
Definition holders (tasks : list task) : nat := length (List.filter holds tasks).

(** What the goroutines share, and where each of them stands. *)
Record pool : Type := {
  pool_client : client;
  pool_net : net;
  pool_out : list result;
  pool_tasks : list task
}.

(** The goroutine [i] does its next step; a goroutine that is blocked on
    [guard], or is gone, does nothing. *)
Definition stepTask (runs : Z) (i : nat) (st : pool) : outcome pool :=
  let c := pool_client st in
  let n := pool_net st in
  let out := pool_out st in
  let tasks := pool_tasks st in
  match tasks !! i with
  | None => Return st
  | Some (Queued req) =>
      (* guard <- struct{}{} *)
      if (Z.of_nat (holders tasks) <? runs)%Z
      then Return {| pool_client := c; pool_net := n; pool_out := out;
                     pool_tasks := <[i := Started req]> tasks |}
      else Return st
  | Some (Started req) =>
      (* c.get, the cache *)
      hit <-- cacheLookup c (cacheKey c (path req)) ;;
      let (c, cached) := hit : client * option string in
      match cached with
      | Some b =>
          Return {| pool_client := c; pool_net := n; pool_out := out;
                    pool_tasks := <[i := Sending req (answer req b None)]> tasks |}
      | None =>
          Return {| pool_client := c; pool_net := n; pool_out := out;
                    pool_tasks := <[i := Asking req]> tasks |}
      end
  | Some (Asking req) =>
      (* c.get, from the host to the body *)
      let (n, r) := getRemote c (path req) n in
      match r with
      | inl (data, e) =>
          Return {| pool_client := c; pool_net := n; pool_out := out;
                    pool_tasks := <[i := Sending req (answer req data (Some e))]> tasks |}
      | inr resp =>
          Return {| pool_client := c; pool_net := n; pool_out := out;
                    pool_tasks := <[i := Storing req resp]> tasks |}
      end
  | Some (Storing req resp) =>
      (* c.get, c.cache.Add and resp.Body.Close() *)
      c <-- cacheStore c (cacheKey c (path req)) (Body resp) ;;
      Return {| pool_client := c; pool_net := n; pool_out := out;
                pool_tasks :=
                  <[i := Sending req (answer req (Body resp) (CloseErr resp))]> tasks |}
  | Some (Sending req r) =>
      (* out <- result{...} *)
      Return {| pool_client := c; pool_net := n; pool_out := out ++ [r];
                pool_tasks := <[i := Leaving]> tasks |}
  | Some Leaving =>
      (* <-guard *)
      Return {| pool_client := c; pool_net := n; pool_out := out;
                pool_tasks := <[i := Gone]> tasks |}
  | Some Gone => Return st
  end.

(** The goroutines step in the order [sched] names them. *)
Fixpoint runSchedule (runs : Z) (sched : list nat) (st : pool) : outcome pool :=
  match sched with
  | [] => Return st
  | i :: sched' => st' <-- stepTask runs i st ;; runSchedule runs sched' st'
  end.

(** A goroutine has at most six steps to do. *)
Definition turn (i : nat) : list nat := replicate 6 i.

(** How the goroutines end once the scheduler has interleaved them as it
    liked: each in its turn, in the order of the requests, does what it has
    left to do; a goroutine that finds no place in [guard] at its turn has a
    second one when all the others had theirs. *)
Definition completion (k : nat) : list nat :=
  (seq 0 k ≫= turn) ++ (seq 0 k ≫= turn).

(** [Table] from [out := make(chan result, len(requests))] to the end of
    the goroutines: [make] refuses a negative size for [guard], the
    goroutines run as [sched] interleaves them and then to their end, and
    the loop that empties [out] waits for one result per request: when the
    goroutines cannot send that many, [Table] never returns ([Deadlock]).
    Returns what was sent on [out], in the order it was sent. *)
Definition runRequests (c : client) (cfg : tableConfig) (requests : list request)
    (sched : list nat) (n : net) : outcome (list result * client * net) :=
  if (parallelRuns cfg <? 0)%Z then Panic ChanSizeOutOfRange
  else
    st <-- runSchedule (parallelRuns cfg) (sched ++ completion (length requests))
             {| pool_client := c; pool_net := n; pool_out := [];
                pool_tasks := Queued <$> requests |} ;;
    if decide (length (pool_out st) = length requests)
    then Return (pool_out st, pool_client st, pool_net st)
    else Panic Deadlock.

(** The loop that empties [out] into [responses] and [errs]. *)
Fixpoint collect (results : list result) (responses : list tableResponse)
    (errs : list error) : outcome (list tableResponse * list error) :=
  match results with
  | [] => Return (responses, errs)
  | r :: results' =>
      match err r with
      | Some e => collect results' responses (errs ++ [e])
      | None =>
          match res r with
          | Some t => collect results' (responses ++ [t]) errs
          | None => Panic NilDereference
          end
      end
  end.

(** The block of [Table] under [if len(errs) > 0]: the error it returns. *)
Definition aggregateErrors (errs : list error) : outcome error :=
  s <-- forRange
          (fun _ err_ (s : bool * list string) =>
             e <-- idx errs 0 ;;
             Return (if isInputError e then true else s.1, s.2 ++ [Error_ err_]))
          0 errs (false, replicate (length errs) "") ;;
  let errs_ := strings_Join s.2 newline in
  if s.1 then Return (NewError errs_ true) else Return (NewError errs_ false).

(** [Table], for the configuration [cfg] its options gave.  [sched] is the
    interleaving of the goroutines the scheduler chose: the goroutine of
    the request of index [i] does one step at each [i] of [sched].
    Returns the distances, the durations, the error, and the client and
    the world after the call. *)
Definition Table (c : client) (cfg : tableConfig)
    (sched : list nat) (points : list Point) (n : net) :
    outcome (list (list float) * list (list float) * option error * client * net) :=
  if decide (length points = 0)
  then Return ([], [], Some (errorString
                 "cannot request distances/durations for empty points"), c, n)
  else
    let originalLength := length points in
    d <-- (if removeEmpty c then deflateZeroes points else Return (points, [])) ;;
    let (points, deflatedIndices) := d : list Point * list nat in
    rq <-- tableRequests c cfg points ;;
    match rq with
    | inl e => Return ([], [], Some e, c, n)
    | inr requests =>
        rs <-- runRequests c cfg requests sched n ;;
        let '(results, c, n) := rs in
        ce <-- collect results [] [] ;;
        let (responses, errs) := ce : list tableResponse * list error in
        if decide (0 < length errs) then
          e <-- aggregateErrors errs ;;
          Return ([], [], Some e, c, n)
        else
          routeResp <-- mergeRequests L responses ;;
          if removeEmpty c then
            dis <-- inflateZeroes (Distances routeResp) deflatedIndices originalLength ;;
            dur <-- inflateZeroes (Durations routeResp) deflatedIndices originalLength ;;
            Return (dis, dur, None, c, n)
          else Return (Distances routeResp, Durations routeResp, None, c, n)
    end.

(** ** Polyline *)

(** The inner loop of [Polyline] over the steps of leg [i]. *)
Definition decodeSteps (i : nat) (steps : list Step)
    (decodedLegs : list (list (list float))) :
    outcome (error + list (list (list float))) :=
  forRangeE
    (fun _ step decodedLegs =>
       match polyline_DecodeCoords L (Step_Geometry step) with
       | inl e => Return (inl e)
       | inr coords =>
           leg <-- idx decodedLegs i ;;
           Return (inr (<[i := leg ++ coords]> decodedLegs))
       end)
    0 steps decodedLegs.

(** [Polyline]: the polyline, the polylines of the legs, the error, and
    the client and the world after the call. *)
Definition Polyline (c : client) (points : list Point) (n : net) :
    outcome (string * list string * option error * client * net) :=
  if decide (length points = 0)
  then Return ("", [], Some (errorString "cannot create polyline for empty points"),
               c, n)
  else
    pp <-- pointsParameter points ;;
    match getPath RouteEndpoint pp with
    | inl e => Return ("", [], Some e, c, n)
    | inr path0 =>
        let path1 := path0 +:+ "?overview=simplified&steps=true&annotations=false"
                       +:+ "&continue_straight=false" in
        g <-- get c path1 n ;;
        let '(body, e, c, n) := g in
        match e with
        | Some e => Return ("", [], Some e, c, n)
        | None =>
            match json_Unmarshal_route L body with
            | inl e => Return ("", [], Some e, c, n)
            | inr routeResp =>
                if negb (String.eqb (Route_Code routeResp) "Ok")
                then Return ("", [],
                             Some (errorString
                               ("expected " +:+ dquote +:+ "Ok" +:+ dquote
                                +:+ " response code; got "
                                +:+ Sprintf_q L (Route_Code routeResp)
                                +:+ " (" +:+ Sprintf_q L (Route_Message routeResp)
                                +:+ ")")), c, n)
                else
                  route <-- idx (Routes routeResp) 0 ;;
                  d <-- forRangeE (fun i leg decodedLegs =>
                                     decodeSteps i (Steps leg) decodedLegs)
                          0 (Legs route) (replicate (length points - 1) []) ;;
                  match d with
                  | inl e => Return ("", [], Some e, c, n)
                  | inr decodedLegs =>
                      Return (Geometry route,
                              map (polyline_EncodeCoords L) decodedLegs,
                              None, c, n)
                  end
            end
        end
    end.
End Client.

Arguments world {L} n.
Arguments calls {L} n.
Arguments pool_client {L} p.
Arguments pool_net {L} p.
Arguments pool_out {L} p.
Arguments pool_tasks {L} p.

(** * Vocabulary of the statements *)

(** What a point is for the specification: absent or a pair (or longer). *)
Definition pointOK (point : Point) : Prop := length point = 0 \/ 2 <= length point.

(** [m[r][c]], when it exists. *)
Definition cell (m : list (list float)) (r c : nat) : option float :=
  match m !! r with
  | Some mrow => mrow !! c
  | None => None
  end.

(** The state of [inflated] once the pairs [done] of positions of [indices]
    have been copied. *)
Definition inflateInv (n : nat) (indices : list nat) (matrix : list (list float))
    (done : nat -> nat -> Prop) (inflated : list (list float)) : Prop :=
  length inflated = n
  /\ Forall (fun irow => length irow = n) inflated
  /\ (forall a b oi oj, indices !! a = Some oi -> indices !! b = Some oj ->
        done a b -> cell inflated oi oj = cell matrix a b)
  /\ (forall r c, r < n -> c < n ->
        (forall a b, indices !! a = Some r -> indices !! b = Some c -> ~ done a b) ->
        cell inflated r c = Some 0%float).

(** ** A test double for the packages

    The package's tests run the client against a local test server.  The
    instance below plays that part for closed examples: a URL is its
    string, parsing refuses control characters (net/url's first check),
    resolving a reference appends it (right for a host followed by an
    absolute path and for a directory followed by a relative one), the
    world is the number of requests the server has seen, the digest is the
    string itself, and sorting is by insertion. *)

Fixpoint insertBy {A} (lt_ : A -> A -> bool) (x : A) (l : list A) : list A :=
  match l with
  | [] => [x]
  | y :: l' => if lt_ x y then x :: l else y :: insertBy lt_ x l'
  end.

Definition insertionSort (A : Type) (lt_ : A -> A -> bool) (l : list A) : list A :=
  foldr (insertBy lt_) [] l.

Definition hasCTL (s : string) : bool :=
  existsb (fun a => let n := nat_of_ascii a in (n <? 32) || (n =? 127))
    (list_ascii_of_string s).

Definition testLibs (server : nat -> string -> error + Response)
    (unmarshalTable : string -> error + tableResponse)
    (unmarshalRoute : string -> error + RouteResponse)
    (decodeCoords : string -> error + list (list float))
    (encodeCoords : list (list float) -> string) : Libs :=
  {| URL := string;
     url_Parse := fun s =>
       if hasCTL s then inl (errorString "net/url: invalid control character in URL")
       else inr s;
     url_ResolveReference := fun base ref => base +:+ ref;
     url_String := fun u => u;
     Request := string;
     World := nat;
     http_NewRequest := fun u => inr u;
     http_Do := fun w req => (S w, server w req);
     sha1_hex := fun s => s;
     json_Unmarshal_table := unmarshalTable;
     json_Unmarshal_route := unmarshalRoute;
     Sprintf_q := fun s => dquote +:+ s +:+ dquote;
     sort_Slice := insertionSort;
     polyline_DecodeCoords := decodeCoords;
     polyline_EncodeCoords := encodeCoords |}.

(** The (row, column) indices of a block response. *)
Definition blockIndex (r : tableResponse) : nat * nat := (row r, column r).

(** [a] may stand before [b] in a slice sorted by [less]. *)
Definition notAfter (a b : tableResponse) : Prop := less b a = false.

Definition noServer (_ : nat) (_ : string) : error + Response :=
  inl (errorString "connection refused").

Definition plainLibs : Libs :=
  testLibs noServer (fun _ => inl (errorString "unexpected end of JSON input"))
    (fun _ => inl (errorString "unexpected end of JSON input"))
    (fun _ => inr []) (fun _ => "").

Definition block (r c : nat) (dis dur : list (list float)) : tableResponse :=
  {| Code := "Ok"; Message := ""; Distances := dis; Durations := dur;
     row := r; column := c |}.

(** The four blocks of a 3 x 3 table cut with a block size of 2. *)
Definition blocks3 : list tableResponse :=
  [ block 0 0 [[0; 1]; [1; 0]]%float [[0; 10]; [10; 0]]%float;
    block 0 1 [[2]; [3]]%float [[20]; [30]]%float;
    block 1 0 [[4; 5]]%float [[40; 50]]%float;
    block 1 1 [[0]]%float [[0]]%float ].

(** [n / b] rounded up. *)
Definition ceilDiv (n b : nat) : nat := (n + b - 1) / b.


(** [Q i x ys] for the element [x] at index [i] of [l] and the [ys] at the
    same place of [yss], from index [i] on. *)
Fixpoint allIndexed {A B} (Q : nat -> A -> B -> Prop) (i : nat) (l : list A)
    (yss : list B) : Prop :=
  match l, yss with
  | [], [] => True
  | x :: l', ys :: yss' => Q i x ys /\ allIndexed Q (S i) l' yss'
  | _, _ => False
  end.




(** Three points for a table cut with a block size of 2. *)
Definition points3 : list Point := [[1; 1]; [2; 2]; [3; 3]]%float.

Definition client2 : client :=
  (MaxTableSize (NewClient "http://localhost:5000") 2).1.

Definition defaultConfig : tableConfig :=
  {| withDistance := false; withDuration := false; parallelRuns := 16;
     withApproachCurb := false; withExclude := [] |}.

(** The string of a pair of coordinates. *)
Definition coordString (point : list float) : string :=
  match point with
  | x :: y :: _ => Sprintf_f_f x y
  | _ => ""
  end.

(** Three calls of [Get] with the same [uri], one after the other: what
    each returns, and the client and the world after the third. *)
Definition getThrice (L : Libs) (c : client) (uri : string) (n : net L) :
    outcome ((string * option error) * (string * option error)
             * (string * option error) * client * net L) :=
  r1 <-- Get L c uri n ;;
  let '(d1, e1, c1, n1) := r1 in
  r2 <-- Get L c1 uri n1 ;;
  let '(d2, e2, c2, n2) := r2 in
  r3 <-- Get L c2 uri n2 ;;
  let '(d3, e3, c3, n3) := r3 in
  Return ((d1, e1), (d2, e2), (d3, e3), c3, n3).

(** A test server that answers every request with the same response. *)
Definition serverAlways (status : Z) (body : string) (_ : nat) (_ : string) :
    error + Response :=
  inr {| StatusCode := status; Body := body; ReadErr := None; CloseErr := None |}.

Definition noJSON {A} (_ : string) : error + A :=
  inl (errorString "unexpected end of JSON input").

Definition libsAlways (status : Z) (body : string) : Libs :=
  testLibs (serverAlways status body) noJSON noJSON (fun _ => inr []) (fun _ => "").

Definition net0 (L : Libs) (w : World L) : net L := {| world := w; calls := 0 |}.

(** The interleaving in which the scheduler chooses nothing: the
    goroutines run one after the other, in the order of the requests. *)
Definition requestOrder : list nat := [].

(** The query of the route request. *)
Definition routeQuery : string :=
  "?overview=simplified&steps=true&annotations=false" +:+ "&continue_straight=false".

(** The points string of [Polyline]. *)
Definition routePoints (points : list Point) : string :=
  strings_Join (coordString <$> (sentPoint <$> points)) ";".

(** The two points of the package's polyline test. *)
Definition points2 : list Point :=
  [[13.388860; 52.517037]; [13.397634; 52.529407]]%float.

(** A route of one leg of three steps, as the test server of the package
    answers it, and an answer without any route. *)
Definition route1 : Route :=
  {| Geometry := "mfp_I__vpAqJ";
     Legs := [ {| Steps := [ {| Step_Geometry := "mfp_I__vpAWBQ" |};
                              {| Step_Geometry := "yer_IcuupACa" |};
                              {| Step_Geometry := "}sr_IevwpA" |} ] |} ] |}.

Definition routeOk (routes : list Route) (_ : string) : error + RouteResponse :=
  inr {| Route_Code := "Ok"; Routes := routes; Route_Message := "" |}.

(** Stand-ins for the polyline codec: a step decodes to one coordinate pair
    and a leg encodes to the number of its pairs. *)
Definition decodeOne (s : string) : error + list (list float) :=
  inr [[0; 0]%float].

Definition encodeCount (coords : list (list float)) : string :=
  pretty (length coords).

Definition libsRoute (routes : list Route) : Libs :=
  testLibs (serverAlways 200 "{}") noJSON (routeOk routes) decodeOne encodeCount.

(** A test server that answers its first request with a 500 and every later
    one with a 400. *)
Definition serverMixed (w : nat) (_ : string) : error + Response :=
  if w =? 0
  then inr {| StatusCode := 500; Body := "boom"; ReadErr := None; CloseErr := None |}
  else inr {| StatusCode := 400; Body := "bad"; ReadErr := None; CloseErr := None |}.

Definition libsMixed : Libs :=
  testLibs serverMixed noJSON noJSON (fun _ => inr []) (fun _ => "").

(** ** Tactics *)

(** One conjunct about a setter once its guard is decided: an error is
    returned or not, and the client is as stated. *)
Ltac setter_case :=
  match goal with
  | |- _ <-> _ =>
      split; intros Hcase;
      first [ done | lia | by eexists | by destruct Hcase as [? [=]] ]
  | |- _ -> _ =>
      intros Hcase; first [ done | by destruct Hcase as [? [=]] ]
  end.

(** ** Stitching *)

(** The rows of the blocks of one band, side by side. *)
Definition stitchBand (band : list (list (list float))) : list (list float) :=
  match band with
  | [] => []
  | first :: rest => foldl (zip_with app) first rest
  end.

(** The bands of a grid of blocks, one under the other. *)
Definition stitch (grid : list (list (list (list float)))) : list (list float) :=
  concat (stitchBand <$> grid).

(** A band of [C] blocks of row [r], in the order of their columns
    [0 .. C-1], whose matrices all have the same number of rows. *)
Definition bandOK (C r : nat) (band : list tableResponse) : Prop :=
  length band = C
  /\ (forall c b, band !! c = Some b -> row b = r /\ column b = c)
  /\ (exists h h',
        Forall (fun b => length (Distances b) = h /\ length (Durations b) = h') band).

(** Bands of rows [r], [r+1], ... *)
Fixpoint gridFrom (C r : nat) (bands : list (list tableResponse)) : Prop :=
  match bands with
  | [] => True
  | band :: bands' => bandOK C r band /\ gridFrom C (S r) bands'
  end.

(** The distance and the duration matrices of the blocks of a grid. *)
Definition distanceGrid (bands : list (list tableResponse)) :
    list (list (list (list float))) :=
  (fun band : list tableResponse => Distances <$> band) <$> bands.

Definition durationGrid (bands : list (list tableResponse)) :
    list (list (list (list float))) :=
  (fun band : list tableResponse => Durations <$> band) <$> bands.

(** The loop of [mergeRequests] over [responses[1:]]. *)
Definition mergeLoop (rest : list tableResponse) (s : mergeState) : outcome mergeState :=
  forRange (fun _ res_ s => mergeStep res_ s) 0 rest s.

(** [a] stands before [b] in the order of [less]. *)
Definition before (a b : tableResponse) : Prop := less a b = true.

(** What [mergeRequests] keeps of the first response beside the matrices. *)
Definition blockMeta (r : tableResponse) : string * string * nat * nat :=
  (Code r, Message r, row r, column r).

(** The blocks of [blocks3] as a grid of two bands of two blocks. *)
Definition grid3 : list (list tableResponse) :=
  [ [ block 0 0 [[0; 1]; [1; 0]]%float [[0; 10]; [10; 0]]%float;
      block 0 1 [[2]; [3]]%float [[20]; [30]]%float ];
    [ block 1 0 [[4; 5]]%float [[40; 50]]%float;
      block 1 1 [[0]]%float [[0]]%float ] ].

(** ** Clients of the package *)

(** The clients a user of the package can hold: made by [NewClient] and its
    options, changed by [IgnoreEmpty] and the three setters, and with the
    cache [get] leaves. *)
Inductive built : client -> Prop :=
  | built_NewClient (host_ : string) : built (NewClient host_)
  | built_WithCache (maxItems : Z) (c : client) :
      built c -> built (WithCache maxItems c)
  | built_IgnoreEmpty (c : client) (ignore : bool) :
      built c -> built (IgnoreEmpty c ignore)
  | built_SnapRadius (c : client) (radius : Z) :
      built c -> built (SnapRadius c radius).1
  | built_MaxTableSize (c : client) (size : Z) :
      built c -> built (MaxTableSize c size).1
  | built_ScaleFactor (c : client) (factor : float) :
      built c -> built (ScaleFactor c factor).1
  | built_set_cache (c : client) (ch : lruCache) :
      built c -> built (set_cache c ch).

(** ** What [get] finds in the cache *)

(** The cache of the client does not hold the key of [uri]: the client has
    no cache, or its cache has no entry for the key. *)
Definition cacheMiss (L : Libs) (c : client) (uri : string) : Prop :=
  useCache c = false
  \/ exists ch, cache c = Some ch /\ lru_find (sha1_hex L uri) (lru_items ch) = None.

(** The configuration of a client: everything but the cache. *)
Definition config (c : client) : string * bool * Z * float * Z * bool :=
  (host c, removeEmpty c, snapRadius c, scaleFactor c, maxTableSize c, useCache c).

(** A test server whose answer is a 200 whose body cannot be closed. *)
Definition serverCloseFails (_ : nat) (_ : string) : error + Response :=
  inr {| StatusCode := 200; Body := "{}"; ReadErr := None;
         CloseErr := Some (errorString "close failed") |}.

Definition libsCloseFails : Libs :=
  testLibs serverCloseFails noJSON noJSON (fun _ => inr []) (fun _ => "").

(** ** The results of the requests *)

(** The result [r] answers the request [req]: an error without response, or
    a response stamped with the block indices of the request. *)
Definition answers (req : request) (r : result) : Prop :=
  match err r with
  | Some _ => res r = None
  | None => exists t, res r = Some t /\ row t = req_row req /\ column t = req_column req
  end.

(** The result of a request that succeeded with the response [t]. *)
Definition okResult (t : tableResponse) : result := {| res := Some t; err := None |}.

(** The request a goroutine has not answered yet. *)
Definition pending (t : task) : list request :=
  match t with
  | Queued req | Started req | Asking req | Storing req _ | Sending req _ => [req]
  | Leaving | Gone => []
  end.

(** The transport calls a goroutine may still make. *)
Definition budget (t : task) : nat :=
  match t with
  | Queued _ | Started _ | Asking _ => 1
  | _ => 0
  end.

(** The result a goroutine is about to send answers its request. *)
Definition taskOK (t : task) : Prop :=
  match t with
  | Sending req r => answers req r
  | _ => True
  end.

(** What holds at every moment of the goroutines of [requests], started on
    the client [c] when [calls0] transport calls had been made: the client
    differs from [c] by its cache only; what was sent on [out] answers, one
    result each, requests that are no longer pending, and these and the
    pending ones are the requests; every transport call made since is that
    of a goroutine that can make no other. *)
Definition poolInv {L : Libs} (requests : list request) (c : client) (calls0 : nat)
    (st : pool L) : Prop :=
  config (pool_client st) = config c
  /\ Forall taskOK (pool_tasks st)
  /\ (exists answered,
        Forall2 answers answered (pool_out st)
        /\ answered ++ (pool_tasks st ≫= pending) ≡ₚ requests)
  /\ calls0 <= calls (pool_net st)
  /\ calls (pool_net st) + sum_list_with budget (pool_tasks st)
     <= calls0 + length requests.

(** A client whose [get] does not dereference a nil cache. *)
Definition cacheReady (c : client) : Prop := useCache c = false \/ is_Some (cache c).

(** The steps a goroutine has left to do, at most. *)
Definition stepsLeft (t : task) : nat :=
  match t with
  | Queued _ => 6
  | Started _ => 5
  | Asking _ => 4
  | Storing _ _ => 3
  | Sending _ _ => 2
  | Leaving => 1
  | Gone => 0
  end.

(** A backend whose tables hold durations only, as when only durations are
    asked for. *)
Definition durationsOnly (_ : string) : error + tableResponse :=
  inr {| Code := "Ok"; Message := ""; Distances := [];
         Durations := [[0; 7]; [9; 0]]%float; row := 0; column := 0 |}.

Definition libsDurations : Libs :=
  testLibs (serverAlways 200 "{}") durationsOnly noJSON (fun _ => inr []) (fun _ => "").

(** A backend that answers every table request with the same 2 x 2 block. *)
Definition block2 (_ : string) : error + tableResponse :=
  inr {| Code := "Ok"; Message := ""; Distances := [[0; 5]; [6; 0]]%float;
         Durations := [[0; 7]; [9; 0]]%float; row := 0; column := 0 |}.

Definition libsBlock2 : Libs :=
  testLibs (serverAlways 200 "{}") block2 noJSON (fun _ => inr []) (fun _ => "").

(** [strings.HasSuffix] *)
Definition hasSuffix (s suffix : string) : bool :=
  String.eqb
    (substring (String.length s - String.length suffix) (String.length suffix) s)
    suffix.

(** A test server that sends the URL it is asked for back as the body, and
    a decoder that reads off the sources and the destinations of that URL
    which block of [grid3] is asked for; a decoded block has no indices
    yet. *)
Definition serverEcho (_ : nat) (url : string) : error + Response :=
  inr {| StatusCode := 200; Body := url; ReadErr := None; CloseErr := None |}.

Definition decodeGrid3 (body : string) : error + tableResponse :=
  if hasSuffix body "&sources=0;1&destinations=2;3"
  then inr (block 0 0 [[0; 1]; [1; 0]]%float [[0; 10]; [10; 0]]%float)
  else if hasSuffix body "&sources=0;1&destinations=2"
  then inr (block 0 0 [[2]; [3]]%float [[20]; [30]]%float)
  else if hasSuffix body "&sources=0&destinations=1;2"
  then inr (block 0 0 [[4; 5]]%float [[40; 50]]%float)
  else if hasSuffix body "&sources=0&destinations=1"
  then inr (block 0 0 [[0]]%float [[0]]%float)
  else inl (errorString "unexpected end of JSON input").

Definition libsGrid3 : Libs :=
  testLibs serverEcho decodeGrid3 noJSON (fun _ => inr []) (fun _ => "").

(** An interleaving of four goroutines in which the last is the first to
    send and the first the last. *)
Definition interleaved4 : list nat :=
  [3; 1; 3; 0; 2; 3; 1; 3; 2; 0; 1; 3; 2; 1; 2; 1; 0; 2; 0; 0].

(** Three points of which the first is the origin. *)
Definition points0 : list Point := [[0; 0]; [1; 1]; [2; 2]]%float.


(** ** Table options *)

(** The options of [Table] the package offers: [WithDuration()],
    [WithDistance()], [WithApproachCurb()], [WithExclude(exclude)] and
    [ParallelRuns(runs)].  (A [TableOptions] is a function on the unexported
    [tableConfig], so these are the options a user can pass.) *)
Inductive TableOption : Type :=
  | WithDuration
  | WithDistance
  | WithApproachCurb
  | WithExclude (exclude : list string)
  | ParallelRuns (runs : Z).

(** What the function an option returns does to the configuration. *)
Definition applyTableOption (cfg : tableConfig) (opt : TableOption) : tableConfig :=
  match opt with
  | WithDuration =>
      {| withDistance := withDistance cfg; withDuration := true;
         parallelRuns := parallelRuns cfg;
         withApproachCurb := withApproachCurb cfg; withExclude := withExclude cfg |}
  | WithDistance =>
      {| withDistance := true; withDuration := withDuration cfg;
         parallelRuns := parallelRuns cfg;
         withApproachCurb := withApproachCurb cfg; withExclude := withExclude cfg |}
  | WithApproachCurb =>
      {| withDistance := withDistance cfg; withDuration := withDuration cfg;
         parallelRuns := parallelRuns cfg;
         withApproachCurb := true; withExclude := withExclude cfg |}
  | WithExclude exclude =>
      {| withDistance := withDistance cfg; withDuration := withDuration cfg;
         parallelRuns := parallelRuns cfg;
         withApproachCurb := withApproachCurb cfg; withExclude := exclude |}
  | ParallelRuns runs =>
      if (0 <? runs)%Z
      then {| withDistance := withDistance cfg; withDuration := withDuration cfg;
              parallelRuns := runs;
              withApproachCurb := withApproachCurb cfg; withExclude := withExclude cfg |}
      else cfg
  end.

(** The first lines of [Table]: [cfg := &tableConfig{parallelRuns: 16}] and
    the loop [for _, opt := range opts { opt(cfg) }]. *)
Definition tableConfigOf (opts : list TableOption) : tableConfig :=
  foldl applyTableOption
    {| withDistance := false; withDuration := false; parallelRuns := 16;
       withApproachCurb := false; withExclude := [] |}
    opts.

(** ** The path of a table request *)

(** The annotations a configuration asks for. *)
Definition annotationList (cfg : tableConfig) : string :=
  if withDuration cfg
  then (if withDistance cfg then "duration,distance" else "duration")
  else (if withDistance cfg then "distance" else "duration,distance").

(** The parameters of a request of [k] points that depend on the
    configuration and the client, in the order of the path. *)
Definition optionalParameters (c : client) (cfg : tableConfig) (k : nat) : string :=
  (if withApproachCurb cfg
   then "&approaches=" +:+ strings_Join (replicate k "curb") ";" else "")
  +:+ (if decide (0 < length (withExclude cfg))
       then "&exclude=" +:+ strings_Join (withExclude cfg) "," else "")
  +:+ (if negb (PrimFloat.eqb (scaleFactor c) 1)
       then "&scale_factor=" +:+ Sprintf_f (scaleFactor c) else "")
  +:+ (if (0 <? snapRadius c)%Z
       then "&radiuses="
            +:+ strings_Join (replicate k (strconv_Itoa (snapRadius c))) ";"
       else "").

(** The indices [from], ..., [from + count - 1], joined by semicolons. *)
Definition indexList (from count : nat) : string :=
  strings_Join (map (fun i => strconv_Itoa (Z.of_nat i)) (seq from count)) ";".

(** ** The polylines of the legs *)

(** The coordinates of a step, when its geometry decodes. *)
Definition decodedStep (L : Libs) (step : Step) : list (list float) :=
  match polyline_DecodeCoords L (Step_Geometry step) with
  | inr coords => coords
  | inl _ => []
  end.

(** The coordinates of the steps of a leg, one after the other. *)
Definition legCoords (L : Libs) (leg : Leg) : list (list float) :=
  concat (decodedStep L <$> Steps leg).

(** ** Routes whose geometries do not decode *)

(** A polyline codec that refuses every geometry. *)
Definition libsBadGeometry (routes : list Route) : Libs :=
  testLibs (serverAlways 200 "{}") noJSON (routeOk routes)
    (fun _ => inl (errorString "unterminated sequence")) encodeCount.

(** * Properties *)

(** ** Loops *)

Lemma obind_Return {A B} (m : outcome A) (k : A -> outcome B) (b : B) :
  obind m k = Return b -> exists a, m = Return a /\ k a = Return b.
Proof. destruct m as [a|p]; simpl; [eauto | discriminate]. Qed.

Lemma idx_Return {A} (s : list A) (i : nat) (x : A) :
  idx s i = Return x <-> s !! i = Some x.
Proof. unfold idx. destruct (s !! i); split; congruence. Qed.

Lemma idx_lookup {A} (s : list A) (i : nat) (x : A) :
  s !! i = Some x -> idx s i = Return x.
Proof. apply idx_Return. Qed.

(** A loop whose body keeps an invariant returns, and the invariant holds
    of what it returns. *)
Lemma forRange_inv {A St} (f : nat -> A -> St -> outcome St)
    (Inv : nat -> St -> Prop) (l : list A) (i : nat) (s : St) :
  Inv 0 s ->
  (forall k x s, l !! k = Some x -> Inv k s ->
     exists s', f (i + k) x s = Return s' /\ Inv (S k) s') ->
  exists s', forRange f i l s = Return s' /\ Inv (length l) s'.
Proof.
  revert Inv i s. induction l as [|x l IH]; intros Inv i s H0 Hstep; simpl.
  - eauto.
  - destruct (Hstep 0 x s eq_refl H0) as (s1 & Hf & H1).
    rewrite Nat.add_0_r in Hf. rewrite Hf. simpl.
    apply (IH (fun k => Inv (S k)) (S i) s1 H1).
    intros k y s2 Hk Hinv.
    destruct (Hstep (S k) y s2 Hk Hinv) as (s3 & Hf3 & H3).
    exists s3. split; [|done]. by rewrite <- Hf3, Nat.add_succ_r.
Qed.

(** ** deflateZeroes *)

Lemma isZeroPoint_total (point : Point) :
  pointOK point -> exists b, isZeroPoint point = Return b.
Proof.
  unfold pointOK. intros Hok. unfold isZeroPoint. case_decide; [eauto|].
  destruct point as [|x [|y point]]; simpl in *.
  - done.
  - destruct Hok; lia.
  - unfold idx; simpl. destruct (PrimFloat.eqb x 0); simpl; eauto.
Qed.

(** The loop of [deflateZeroes] started at index [i], whenever it returns. *)
Lemma deflate_loop (points : list Point) :
  forall (i : nat) (acc r : list Point * list nat),
    forRange deflateStep i points acc = Return r ->
    exists d ix,
      r = (acc.1 ++ d, acc.2 ++ ix)
      /\ length d = length ix
      /\ StronglySorted lt ix
      /\ Forall (fun k => i <= k < i + length points) ix
      /\ (forall k j, ix !! k = Some j -> d !! k = points !! (j - i))
      /\ (forall j p, points !! j = Some p ->
            (i + j ∈ ix <-> isZeroPoint p = Return false)).
Proof.
  induction points as [|p points IH]; intros i acc r Hr; simpl in Hr.
  - exists [], []. injection Hr as <-. rewrite !app_nil_r. destruct acc; simpl.
    split_and!; try done; try constructor.
  - apply obind_Return in Hr as (s1 & Hstep & Hrest).
    unfold deflateStep in Hstep.
    apply obind_Return in Hstep as (z & Hz & Hs1).
    apply IH in Hrest as (d & ix & -> & Hlen & Hsort & Hrange & Hlook & Hmem).
    assert (forall j, j ∈ ix -> S i <= j < S i + length points) as Hge
      by (by apply Forall_forall).
    assert (forall k j, ix !! k = Some j -> d !! k = (p :: points) !! (j - i)) as Hlook'.
    { intros k j Hk. rewrite (Hlook k j Hk).
      pose proof (Hge j (list_elem_of_lookup_2 _ _ _ Hk)).
      by replace (j - i) with (S (j - S i)) by lia. }
    destruct z; injection Hs1 as <-.
    + exists d, ix. split_and!; try done.
      * apply Forall_forall. intros j Hj. apply Hge in Hj. simpl. lia.
      * intros j q Hq. destruct j as [|j]; simpl in Hq.
        -- injection Hq as <-. rewrite Hz.
           split; [intros Hin; apply Hge in Hin; lia | discriminate].
        -- replace (i + S j) with (S i + j) by lia. by apply Hmem.
    + exists (p :: d), (i :: ix). simpl. rewrite <- !app_assoc. simpl.
      split_and!; try done.
      * by rewrite Hlen.
      * constructor; [done|]. apply Forall_forall. intros j Hj.
        apply Hge in Hj. lia.
      * constructor; [simpl; lia|]. apply Forall_forall. intros j Hj.
        apply Hge in Hj. simpl. lia.
      * intros [|k] j Hk; simpl in Hk.
        -- injection Hk as <-. by rewrite Nat.sub_diag.
        -- simpl. by apply Hlook'.
      * intros j q Hq. destruct j as [|j]; simpl in Hq.
        -- injection Hq as <-. rewrite Hz, Nat.add_0_r.
           split; [done | intros _; left].
        -- replace (i + S j) with (S i + j) by lia.
           rewrite <- (Hmem j q Hq), elem_of_cons.
           split; [intros [?|?]; [lia|done] | by right].
Qed.

(** The loop of [deflateZeroes] does not panic on absent points and pairs. *)
Lemma deflate_loop_total (points : list Point) :
  Forall pointOK points ->
  forall (i : nat) (acc : list Point * list nat),
    exists r, forRange deflateStep i points acc = Return r.
Proof.
  induction 1 as [|p points Hp _ IH]; intros i acc; simpl; [eauto|].
  destruct (isZeroPoint_total p Hp) as [b Hb].
  unfold deflateStep at 1. rewrite Hb. simpl. destruct b; simpl; apply IH.
Qed.

(** ** inflateZeroes *)

Lemma cell_insert (m : list (list float)) (mrow : list float) (r c r' c' : nat)
    (v : float) :
  m !! r = Some mrow -> c < length mrow ->
  cell (<[r := <[c := v]> mrow]> m) r' c'
  = if decide (r' = r /\ c' = c) then Some v else cell m r' c'.
Proof.
  intros Hr Hc. unfold cell.
  destruct (decide (r' = r)) as [->|Hne].
  - rewrite list_lookup_insert_eq by (by eapply lookup_lt_Some). rewrite Hr.
    destruct (decide (c' = c)) as [->|Hnc].
    + rewrite list_lookup_insert_eq by done. by rewrite decide_True.
    + rewrite list_lookup_insert_ne by done. rewrite decide_False; [done|].
      intros [_ ?]. done.
  - rewrite list_lookup_insert_ne by done. rewrite decide_False; [done|].
    intros [? _]. done.
Qed.

Lemma inflateInv_equiv n indices matrix (done done' : nat -> nat -> Prop) inflated :
  (forall a b, a < length indices -> b < length indices -> (done a b <-> done' a b)) ->
  inflateInv n indices matrix done inflated ->
  inflateInv n indices matrix done' inflated.
Proof.
  intros Heq (Hlen & Hrows & Hcopied & Hzero). split_and!; try done.
  - intros a b oi oj Ha Hb Hd. apply Hcopied; try done.
    apply Heq; [by eapply lookup_lt_Some..|done].
  - intros r c Hr Hc Hnd. apply Hzero; try done.
    intros a b Ha Hb Hd. apply (Hnd a b Ha Hb).
    apply Heq; [by eapply lookup_lt_Some..|done].
Qed.

Lemma inflateCell_inv n indices matrix (done : nat -> nat -> Prop) inflated
    (k m oi oj : nat) (v : float) :
  NoDup indices -> Forall (fun i => i < n) indices ->
  inflateInv n indices matrix done inflated ->
  indices !! k = Some oi -> indices !! m = Some oj ->
  cell matrix k m = Some v ->
  exists inflated',
    inflateCell matrix k oi m oj inflated = Return inflated'
    /\ inflateInv n indices matrix (fun a b => done a b \/ (a = k /\ b = m)) inflated'.
Proof.
  intros Hnd Hlt (Hlen & Hrows & Hcopied & Hzero) Hk Hm Hv.
  rewrite Forall_forall in Hlt.
  assert (oi < n) as Hoi by (by eapply Hlt, list_elem_of_lookup_2).
  assert (oj < n) as Hoj by (by eapply Hlt, list_elem_of_lookup_2).
  destruct (lookup_lt_is_Some_2 inflated oi) as [irow Hirow]; [lia|].
  assert (length irow = n) as Hirow_len.
  { rewrite Forall_forall in Hrows. by eapply Hrows, list_elem_of_lookup_2. }
  unfold cell in Hv. destruct (matrix !! k) as [mrow|] eqn:Hmrow; [|done].
  exists (<[oi := <[oj := v]> irow]> inflated). split.
  - unfold inflateCell. rewrite (idx_lookup _ _ _ Hirow). simpl.
    rewrite (idx_lookup _ _ _ Hmrow). simpl. rewrite (idx_lookup _ _ _ Hv). simpl.
    unfold setIdx. rewrite decide_True by lia. done.
  - split_and!.
    + by rewrite length_insert.
    + apply Forall_insert; [done|]. by rewrite length_insert.
    + intros a b oi' oj' Ha Hb Hd.
      rewrite (cell_insert _ _ _ _ _ _ _ Hirow) by lia.
      case_decide as Hpos.
      * destruct Hpos as [-> ->].
        rewrite (NoDup_lookup _ _ _ _ Hnd Ha Hk), (NoDup_lookup _ _ _ _ Hnd Hb Hm).
        unfold cell. by rewrite Hmrow.
      * destruct Hd as [Hd|[-> ->]]; [by apply Hcopied|].
        exfalso. apply Hpos. split; congruence.
    + intros r c Hr Hc Hnone.
      rewrite (cell_insert _ _ _ _ _ _ _ Hirow) by lia.
      case_decide as Hpos.
      * destruct Hpos as [-> ->]. exfalso. apply (Hnone k m Hk Hm). by right.
      * apply Hzero; try done. intros a b Ha Hb Hd. apply (Hnone a b Ha Hb). by left.
Qed.

(** [inflateZeroes] returns, with every pair of positions copied. *)
Lemma inflateZeroes_inv (matrix : list (list float)) (indices : list nat) (n : nat) :
  NoDup indices -> Forall (fun i => i < n) indices ->
  (forall a b, a < length indices -> b < length indices ->
     is_Some (cell matrix a b)) ->
  exists inflated,
    inflateZeroes matrix indices n = Return inflated
    /\ inflateInv n indices matrix (fun _ _ => True) inflated.
Proof.
  intros Hnd Hlt Hsq. unfold inflateZeroes.
  destruct (forRange_inv
    (fun i oi inflated =>
       forRange (fun j oj inflated => inflateCell matrix i oi j oj inflated)
         0 indices inflated)
    (fun k s => inflateInv n indices matrix (fun a _ => a < k) s)
    indices 0 (replicate n (replicate n 0%float))) as (s & Hs & Hinv).
  - split_and!.
    + by rewrite length_replicate.
    + apply Forall_replicate. by rewrite length_replicate.
    + intros; lia.
    + intros r c Hr Hc _. unfold cell.
      rewrite lookup_replicate_2 by done. by rewrite lookup_replicate_2.
  - intros k oi s Hk Hinv. simpl.
    destruct (forRange_inv
      (fun j oj inflated => inflateCell matrix k oi j oj inflated)
      (fun m s => inflateInv n indices matrix
                    (fun a b => a < k \/ (a = k /\ b < m)) s)
      indices 0 s) as (s' & Hs' & Hinv').
    + eapply inflateInv_equiv; [|exact Hinv]. intros; simpl; lia.
    + intros m oj s1 Hm Hinv1. simpl.
      destruct (Hsq k m) as [v Hv]; [by eapply lookup_lt_Some..|].
      destruct (inflateCell_inv _ _ _ _ _ k m oi oj v Hnd Hlt Hinv1 Hk Hm Hv)
        as (s2 & Hs2 & Hinv2).
      exists s2. split; [done|].
      eapply inflateInv_equiv; [|exact Hinv2]. intros; simpl; lia.
    + exists s'. split; [done|].
      eapply inflateInv_equiv; [|exact Hinv']. intros; simpl; lia.
  - exists s. split; [done|].
    eapply inflateInv_equiv; [|exact Hinv]. intros; simpl. split; [done|intros _; lia].
Qed.

Lemma StronglySorted_lt_NoDup (l : list nat) : StronglySorted lt l -> NoDup l.
Proof.
  induction 1 as [|x l _ IH Hx]; [constructor|].
  apply NoDup_cons. split; [|done].
  intros Hin. rewrite Forall_forall in Hx. apply Hx in Hin. lia.
Qed.

(** What [deflateZeroes] returns, whenever it returns. *)
Lemma deflateZeroes_Return (points deflated : list Point) (indices : list nat) :
  deflateZeroes points = Return (deflated, indices) ->
  length deflated = length indices
  /\ StronglySorted lt indices
  /\ Forall (fun k => k < length points) indices
  /\ (forall k j, indices !! k = Some j -> deflated !! k = points !! j)
  /\ (forall j p, points !! j = Some p ->
        (j ∈ indices <-> isZeroPoint p = Return false)).
Proof.
  intros Hd. apply deflate_loop in Hd as (d & ix & Heq & Hlen & Hs & Hr & Hl & Hm).
  simpl in Heq. injection Heq as -> ->. split_and!; try done.
  - eapply Forall_impl; [exact Hr|]. simpl; intros; lia.
  - intros k j Hk. rewrite (Hl k j Hk). by rewrite Nat.sub_0_r.
Qed.

(** C4: for every point list on which [deflateZeroes] returns, with the
    indices it returns, and every square matrix of the deflated size,
    [inflateZeroes] returns a matrix of the original size in both
    dimensions whose cell at [indices[i]], [indices[j]] is [matrix[i][j]]
    for every pair of surviving positions and whose every cell in the row or
    the column of a removed point is zero. *)
Theorem inflateZeroes_deflateZeroes (points deflated : list Point)
    (indices : list nat) (matrix : list (list float)) :
  deflateZeroes points = Return (deflated, indices) ->
  length matrix = length deflated ->
  Forall (fun mrow => length mrow = length deflated) matrix ->
  exists inflated,
    inflateZeroes matrix indices (length points) = Return inflated
    /\ length inflated = length points
    /\ Forall (fun irow => length irow = length points) inflated
    /\ (forall i j oi oj, indices !! i = Some oi -> indices !! j = Some oj ->
          exists v, cell matrix i j = Some v /\ cell inflated oi oj = Some v)
    /\ (forall r c, r < length points -> c < length points ->
          r ∉ indices \/ c ∉ indices -> cell inflated r c = Some 0%float).
Proof.
  intros Hd Hrows Hcols.
  apply deflateZeroes_Return in Hd as (Hlen & Hsorted & Hlt & _ & _).
  assert (forall a b, a < length indices -> b < length indices ->
            is_Some (cell matrix a b)) as Hsq.
  { intros a b Ha Hb. unfold cell.
    destruct (lookup_lt_is_Some_2 matrix a) as [mrow Hmrow]; [lia|].
    rewrite Hmrow. apply lookup_lt_is_Some_2.
    rewrite Forall_forall in Hcols.
    rewrite (Hcols mrow) by (by eapply list_elem_of_lookup_2). lia. }
  destruct (inflateZeroes_inv matrix indices (length points)
              (StronglySorted_lt_NoDup _ Hsorted) Hlt Hsq)
    as (inflated & Hinf & Hlen' & Hrows' & Hcopied & Hzero).
  exists inflated. split_and!; try done.
  - intros i j oi oj Hi Hj.
    destruct (Hsq i j) as [v Hv]; [by eapply lookup_lt_Some..|].
    exists v. split; [done|]. by rewrite (Hcopied i j oi oj Hi Hj I).
  - intros r c Hr Hc Hout. apply Hzero; try done.
    intros a b Ha Hb _.
    destruct Hout as [Hout|Hout]; apply Hout; by eapply list_elem_of_lookup_2.
Qed.

(** A list with a zero point, an absent point and two pairs, and a 2 x 2
    matrix for the two survivors. *)
Lemma inflateZeroes_deflateZeroes_witness :
  exists inflated,
    inflateZeroes [[1; 2]; [3; 4]]%float [1; 3]
      (length [[0; 0]; [7; 8]; []; [5; 6]]%float) = Return inflated
    /\ length inflated = 4
    /\ cell inflated 1 3 = Some 2%float
    /\ cell inflated 0 3 = Some 0%float.
Proof.
  destruct (inflateZeroes_deflateZeroes
              [[0; 0]; [7; 8]; []; [5; 6]]%float [[7; 8]; [5; 6]]%float [1; 3]
              [[1; 2]; [3; 4]]%float)
    as (inflated & Hinf & Hlen & _ & Hcopied & Hzero).
  - vm_compute. reflexivity.
  - reflexivity.
  - repeat constructor.
  - exists inflated. split_and!; try done.
    + destruct (Hcopied 0 1 1 3 eq_refl eq_refl) as (v & Hv & Hcell).
      injection Hv as <-. exact Hcell.
    + apply Hzero; simpl; [lia..|]. left. intros Hin.
      repeat (apply elem_of_cons in Hin as [Hin|Hin]; [discriminate|]).
      by apply elem_of_nil in Hin.
Defined.

(** C10: [deflateZeroes] returns on every list of absent points and points
    of two or more coordinates; its indices are strictly increasing, as
    many as the points it keeps, the k-th kept point is the point at the
    k-th index, and an index is kept exactly when the zero test of its
    point is false.  On the list of the one point [[0]] the zero test reads
    index 1 out of range: [deflateZeroes] panics, and so does [Table] with
    empty points ignored. *)
Theorem deflateZeroes_total_on_pairs :
  (forall points : list Point,
     Forall pointOK points ->
     exists deflated indices,
       deflateZeroes points = Return (deflated, indices)
       /\ length deflated = length indices
       /\ StronglySorted lt indices
       /\ Forall (fun k => k < length points) indices
       /\ (forall k j, indices !! k = Some j -> deflated !! k = points !! j)
       /\ (forall j p, points !! j = Some p ->
             (j ∈ indices <-> isZeroPoint p = Return false)))
  /\ length [0%float] = 1
  /\ deflateZeroes [[0%float]] = Panic IndexOutOfRange
  /\ (forall (L : Libs) (c : client) (cfg : tableConfig)
        (sched : list nat) (n : net L),
        removeEmpty c = true ->
        Table L c cfg sched [[0%float]] n = Panic IndexOutOfRange).
Proof.
  split_and!.
  - intros points Hok.
    destruct (deflate_loop_total points Hok 0 ([], [])) as [[deflated indices] Hr].
    exists deflated, indices. split; [done|]. by apply deflateZeroes_Return.
  - reflexivity.
  - vm_compute. reflexivity.
  - intros L c cfg sched n Hre. unfold Table. simpl. rewrite Hre.
    vm_compute. reflexivity.
Qed.

Lemma deflateZeroes_total_on_pairs_witness :
  exists deflated indices,
    deflateZeroes [[0; 0]; [7; 8]; []; [5; 6; 9]]%float = Return (deflated, indices)
    /\ indices = [1; 3]
    /\ deflated = [[7; 8]; [5; 6; 9]]%float.
Proof.
  destruct (proj1 deflateZeroes_total_on_pairs [[0; 0]; [7; 8]; []; [5; 6; 9]]%float)
    as (deflated & indices & Hd & _).
  - repeat constructor; unfold pointOK; simpl; lia.
  - exists deflated, indices. split; [exact Hd|].
    vm_compute in Hd. injection Hd as <- <-. split; reflexivity.
Defined.

(** ** mergeRequests *)

Lemma notAfter_spec (a b : tableResponse) :
  notAfter a b <-> row a < row b \/ (row a = row b /\ column a <= column b).
Proof.
  unfold notAfter, less.
  destruct (Nat.eqb_spec (row b) (row a)) as [Heq|Hne].
  - rewrite Nat.ltb_ge. lia.
  - rewrite Nat.ltb_ge. lia.
Qed.

Lemma notAfter_trans : Transitive notAfter.
Proof. intros a b c. rewrite !notAfter_spec. lia. Qed.

Lemma notAfter_antisym (a b : tableResponse) :
  notAfter a b -> notAfter b a -> blockIndex a = blockIndex b.
Proof. rewrite !notAfter_spec. unfold blockIndex. intros; f_equal; lia. Qed.

Lemma NoDup_fmap_eq {A B} (f : A -> B) (l : list A) (x y : A) :
  NoDup (f <$> l) -> x ∈ l -> y ∈ l -> f x = f y -> x = y.
Proof.
  induction l as [|z l IH]; simpl; intros Hnd Hx Hy Heq.
  - by apply elem_of_nil in Hx.
  - apply NoDup_cons in Hnd as [Hz Hnd].
    apply elem_of_cons in Hx as [->|Hx]; apply elem_of_cons in Hy as [->|Hy].
    + done.
    + exfalso. apply Hz. rewrite Heq. by apply list_elem_of_fmap_2.
    + exfalso. apply Hz. rewrite <- Heq. by apply list_elem_of_fmap_2.
    + by apply IH.
Qed.

(** Two slices sorted by [less] that hold the same blocks, no two of them
    with the same indices, are the same slice. *)
Lemma sorted_blocks_unique (l1 l2 l : list tableResponse) :
  NoDup (blockIndex <$> l) -> l1 ≡ₚ l -> l2 ≡ₚ l ->
  Sorted notAfter l1 -> Sorted notAfter l2 -> l1 = l2.
Proof.
  intros Hnd H1 H2 Hs1 Hs2.
  apply (@Sorted_unique_strong _ notAfter notAfter_trans); try done.
  - intros x1 x2 Hx1 Hx2 H12 H21.
    apply (NoDup_fmap_eq blockIndex l); try done.
    + by rewrite <- H1.
    + by rewrite <- H2.
    + by apply notAfter_antisym.
  - by rewrite H1, H2.
Qed.

(** C3: for every non-empty list of block responses with pairwise distinct
    (row, column) indices, [mergeRequests] gives the same outcome, hence the
    same stitched distances and durations, on every permutation of the
    list, whatever sorted permutation [sort.Slice] produces. *)
Theorem mergeRequests_order_independent (L : Libs)
    (responses responses' : list tableResponse) :
  (forall l, sort_Slice L _ less l ≡ₚ l) ->
  (forall l, Sorted notAfter (sort_Slice L _ less l)) ->
  responses <> [] ->
  NoDup (blockIndex <$> responses) ->
  responses ≡ₚ responses' ->
  mergeRequests L responses = mergeRequests L responses'.
Proof.
  intros Hperm Hsorted _ Hnd Hpp. unfold mergeRequests.
  rewrite (sorted_blocks_unique (sort_Slice L _ less responses)
             (sort_Slice L _ less responses') responses); try done.
  by rewrite Hperm, Hpp.
Qed.

(** Insertion sort meets the contract of [sort.Slice] for [less]. *)
Lemma insertBy_perm {A} (lt_ : A -> A -> bool) (x : A) (l : list A) :
  insertBy lt_ x l ≡ₚ x :: l.
Proof.
  induction l as [|y l IH]; simpl; [done|].
  destruct (lt_ x y); [done|]. rewrite IH. apply Permutation_swap.
Qed.

Lemma insertionSort_perm {A} (lt_ : A -> A -> bool) (l : list A) :
  insertionSort A lt_ l ≡ₚ l.
Proof.
  induction l as [|x l IH]; simpl; [done|].
  unfold insertionSort in *. simpl. rewrite insertBy_perm. by rewrite IH.
Qed.

Lemma less_asym (a b : tableResponse) : less a b = true -> less b a = false.
Proof.
  unfold less.
  destruct (Nat.eqb_spec (row a) (row b)) as [Heq|Hne];
    destruct (Nat.eqb_spec (row b) (row a)) as [Heq'|Hne'];
    rewrite ?Nat.ltb_lt, ?Nat.ltb_ge; lia.
Qed.

Lemma insertBy_sorted (x : tableResponse) (l : list tableResponse) :
  Sorted notAfter l -> Sorted notAfter (insertBy less x l).
Proof.
  induction 1 as [|y l Hl IH Hhd]; simpl.
  - repeat constructor.
  - destruct (less x y) eqn:Hxy.
    + constructor; [by constructor|]. constructor. by apply less_asym.
    + constructor; [done|].
      destruct Hhd as [|z l Hyz]; simpl.
      * by constructor.
      * destruct (less x z); by constructor.
Qed.

Lemma insertionSort_sorted (l : list tableResponse) :
  Sorted notAfter (insertionSort _ less l).
Proof.
  induction l as [|x l IH]; simpl; [constructor|].
  by apply insertBy_sorted.
Qed.

Lemma mergeRequests_order_independent_witness :
  mergeRequests plainLibs blocks3 = mergeRequests plainLibs (reverse blocks3)
  /\ mergeRequests plainLibs (reverse blocks3)
     = Return (block 0 0 [[0; 1; 2]; [1; 0; 3]; [4; 5; 0]]%float
                 [[0; 10; 20]; [10; 0; 30]; [40; 50; 0]]%float).
Proof.
  split.
  - apply (mergeRequests_order_independent plainLibs blocks3 (reverse blocks3)).
    + intros l. apply insertionSort_perm.
    + intros l. apply insertionSort_sorted.
    + discriminate.
    + apply (bool_decide_unpack _). vm_compute. reflexivity.
    + symmetry. apply reverse_Permutation.
  - vm_compute. reflexivity.
Defined.

(** ** The setters *)

(** C9: [SnapRadius] returns an error exactly when the radius is negative,
    [ScaleFactor] exactly when the factor is at most zero (the comparison
    of float64) and [MaxTableSize] exactly when the size is below one; a
    call that returns an error leaves the client as it was, and a call that
    returns none stores the new value and changes nothing else. *)
Theorem setters_validate (c : client) (radius size : Z) (factor : float) :
  (is_Some (SnapRadius c radius).2 <-> (radius < 0)%Z)
  /\ (is_Some (ScaleFactor c factor).2 <-> PrimFloat.leb factor 0 = true)
  /\ (is_Some (MaxTableSize c size).2 <-> (size < 1)%Z)
  /\ (is_Some (SnapRadius c radius).2 -> (SnapRadius c radius).1 = c)
  /\ (is_Some (ScaleFactor c factor).2 -> (ScaleFactor c factor).1 = c)
  /\ (is_Some (MaxTableSize c size).2 -> (MaxTableSize c size).1 = c)
  /\ ((SnapRadius c radius).2 = None ->
        (SnapRadius c radius).1
        = {| cache := cache c; host := host c; removeEmpty := removeEmpty c;
             snapRadius := radius; scaleFactor := scaleFactor c;
             maxTableSize := maxTableSize c; useCache := useCache c |})
  /\ ((ScaleFactor c factor).2 = None ->
        (ScaleFactor c factor).1
        = {| cache := cache c; host := host c; removeEmpty := removeEmpty c;
             snapRadius := snapRadius c; scaleFactor := factor;
             maxTableSize := maxTableSize c; useCache := useCache c |})
  /\ ((MaxTableSize c size).2 = None ->
        (MaxTableSize c size).1
        = {| cache := cache c; host := host c; removeEmpty := removeEmpty c;
             snapRadius := snapRadius c; scaleFactor := scaleFactor c;
             maxTableSize := size; useCache := useCache c |}).
Proof.
  unfold SnapRadius, ScaleFactor, MaxTableSize.
  destruct (Z.ltb_spec radius 0), (Z.ltb_spec size 1),
    (PrimFloat.leb factor 0) eqn:Hf; simpl; split_and!; setter_case.
Qed.

(** ** chunkBy *)

Lemma ceilDiv_small (n b : nat) : 1 <= n -> n <= b -> ceilDiv n b = 1.
Proof.
  intros Hn Hb. unfold ceilDiv. symmetry.
  apply (Nat.div_unique _ _ _ (n - 1)); lia.
Qed.

Lemma ceilDiv_step (n b : nat) : 1 <= b -> b < n -> ceilDiv n b = S (ceilDiv (n - b) b).
Proof.
  intros Hb Hn. unfold ceilDiv.
  replace (n + b - 1) with ((n - b + b - 1) + 1 * b) by lia.
  rewrite Nat.div_add by lia. lia.
Qed.

(** The loop of [chunkBy] with enough fuel: the chunks it adds. *)
Lemma chunkBy_loop_spec {T} (b : nat) :
  1 <= b ->
  forall (fuel : nat) (items : list T) (chunks : list (list T)),
    length items <= fuel ->
    exists cs,
      chunkBy_loop fuel items b chunks = chunks ++ cs
      /\ concat cs = items
      /\ Forall (fun ch => length ch <= b) cs
      /\ (items <> [] -> Forall (fun ch => 1 <= length ch) cs)
      /\ length cs = if decide (length items = 0) then 1 else ceilDiv (length items) b.
Proof.
  intros Hb. induction fuel as [|fuel IH]; intros items chunks Hfuel; simpl.
  - destruct items; [|simpl in Hfuel; lia].
    exists [[]]. split_and!; try done. repeat constructor. simpl. lia.
  - case_decide as Hlt.
    + destruct (IH (drop b items) (chunks ++ [take b items]))
        as (cs & Hcs & Hcat & Hle & Hne & Hlen).
      { rewrite length_drop. lia. }
      exists (take b items :: cs). split_and!.
      * by rewrite Hcs, <- app_assoc.
      * simpl. rewrite Hcat. apply take_drop.
      * constructor; [|done]. rewrite length_take. lia.
      * intros _. constructor; [rewrite length_take; lia|].
        apply Hne. intros Hnil. apply (f_equal length) in Hnil.
        rewrite length_drop in Hnil. simpl in Hnil. lia.
      * simpl. rewrite Hlen, length_drop.
        rewrite decide_False by lia. rewrite decide_False by lia.
        by rewrite (ceilDiv_step (length items) b).
    + exists [items]. split_and!; try done.
      * simpl. by rewrite app_nil_r.
      * repeat constructor. lia.
      * intros Hne. repeat constructor. destruct items; [done|simpl; lia].
      * simpl. case_decide; [done|]. rewrite ceilDiv_small; lia.
Qed.


(** ** tableRequests *)

Lemma length_2_inv {A} (l : list A) : length l = 2 -> exists x y, l = [x; y].
Proof. destruct l as [|x [|y [|z l]]]; simpl; intros; try lia. eauto. Qed.

Lemma sentPoint_length (point : Point) : length (sentPoint point) = 2.
Proof. unfold sentPoint. case_decide; [done|reflexivity]. Qed.

(** The first loop of [tableRequests]: one pair per point, the point itself
    when it has two coordinates and the unroutable point otherwise. *)
Lemma convertPoints_spec (points : list Point) :
  convertPoints points = Return (sentPoint <$> points).
Proof.
  unfold convertPoints, handleUnroutablePoints.
  induction points as [|p points IH]; simpl; [done|].
  destruct (length_2_inv _ (sentPoint_length p)) as (x & y & Hxy).
  rewrite Hxy. simpl. rewrite IH. done.
Qed.

Lemma pointStrings_total (chunk : list (list float)) :
  Forall (fun p => length p = 2) chunk ->
  exists strs, mapM pointString chunk = Return strs /\ length strs = length chunk.
Proof.
  induction 1 as [|p chunk Hp _ (strs & IH & Hlen)]; simpl; [by exists []|].
  destruct (length_2_inv _ Hp) as (x & y & ->).
  unfold pointString at 1. unfold idx; simpl. rewrite IH. simpl.
  eexists. split; [reflexivity|]. simpl. by rewrite Hlen.
Qed.

Lemma chunkString_total (chunk : list (list float)) :
  Forall (fun p => length p = 2) chunk -> exists s, chunkString chunk = Return s.
Proof.
  intros Hc. destruct (pointStrings_total chunk Hc) as (strs & Hstrs & _).
  unfold chunkString. rewrite Hstrs. simpl. eauto.
Qed.



Lemma allIndexed_length {A B} (Q : nat -> A -> B -> Prop) (l : list A) :
  forall (i : nat) (yss : list B), allIndexed Q i l yss -> length yss = length l.
Proof.
  induction l as [|x l IH]; intros i [|ys yss]; simpl; try done.
  intros [_ H]. f_equal. by eapply IH.
Qed.



Lemma Forall_concat_chunks {A} (P : A -> Prop) (chunks : list (list A)) :
  Forall P (concat chunks) -> forall ch, ch ∈ chunks -> Forall P ch.
Proof.
  induction chunks as [|c chunks IH]; simpl; intros Hall ch Hin.
  - by apply elem_of_nil in Hin.
  - apply Forall_app in Hall as [Hc Hrest].
    apply elem_of_cons in Hin as [->|Hin]; [done|by apply IH].
Qed.



(** ** Unroutable points *)

Lemma mapM_pointString (chunk : list (list float)) :
  Forall (fun p => length p = 2) chunk ->
  mapM pointString chunk = Return (coordString <$> chunk).
Proof.
  induction 1 as [|p chunk Hp _ IH]; simpl; [done|].
  destruct (length_2_inv _ Hp) as (x & y & ->). simpl. by rewrite IH.
Qed.

Lemma pointsParameters_spec (points : list Point) :
  pointsParameters points = Return (coordString <$> (sentPoint <$> points)).
Proof.
  unfold pointsParameters, handleUnroutablePoints. apply mapM_pointString.
  apply Forall_fmap, Forall_forall. intros p _. apply sentPoint_length.
Qed.

(** The origin is a point of two coordinates: it is sent as it is, not as
    the unroutable point. *)
Lemma zero_point_is_sent :
  pointsParameter [[0; 0]; [1; 1]]%float = Return "0.000000,0.000000;1.000000,1.000000"
  /\ pointsParameter [[]; [1; 1]]%float = Return "-143.292892,37.683603;1.000000,1.000000"
  /\ convertPoints [[0; 0]; [1; 1]]%float = Return [[0; 0]; [1; 1]]%float
  /\ ~ (forall (points : list Point) (i : nat) (p : Point),
          points !! i = Some p ->
          p = [] \/ p = [0; 0]%float ->
          exists strs,
            pointsParameters points = Return strs
            /\ strs !! i = Some (coordString unroutablePoint)).
Proof.
  split_and!; [vm_compute; reflexivity..|].
  intros Hall.
  destruct (Hall [[0; 0]; [1; 1]]%float 0 [0; 0]%float eq_refl (or_intror eq_refl))
    as (strs & Hstrs & Hi).
  vm_compute in Hstrs. injection Hstrs as <-. vm_compute in Hi. discriminate.
Qed.

(** *** The requests and their coordinate strings *)

Lemma string_app_assoc (a b c : string) : (a +:+ b) +:+ c = a +:+ b +:+ c.
Proof.
  induction a as [|x a IH]; [done|].
  change (String x ((a +:+ b) +:+ c) = String x (a +:+ b +:+ c)). by f_equal.
Qed.

Lemma indices_take (n1 n2 : nat) :
  take n1 (map (fun i => strconv_Itoa (Z.of_nat i)) (seq 0 (n1 + n2)))
  = map (fun i => strconv_Itoa (Z.of_nat i)) (seq 0 n1).
Proof. rewrite firstn_map, take_seq. f_equal. f_equal. lia. Qed.

Lemma indices_drop (n1 n2 : nat) :
  drop n1 (map (fun i => strconv_Itoa (Z.of_nat i)) (seq 0 (n1 + n2)))
  = map (fun i => strconv_Itoa (Z.of_nat i)) (seq n1 n2).
Proof. rewrite skipn_map, drop_seq. f_equal. f_equal; lia. Qed.

(** The request of a pair of chunks, when [getPath] accepts its points. *)
Lemma tableRequest_path_aux (L : Libs) (c : client) (cfg : tableConfig)
    (p1 p2 : nat) (pointChunk1 pointChunk2 : list (list float)) (p : string) :
  Forall (fun point => length point = 2) (pointChunk1 ++ pointChunk2) ->
  getPath L TableEndpoint
    (strings_Join (coordString <$> pointChunk1 ++ pointChunk2) ";") = inr p ->
  tableRequest L c cfg p1 p2 pointChunk1 pointChunk2
  = Return (inr {| path := p +:+ "?annotations=" +:+ annotationList cfg
                            +:+ optionalParameters c cfg
                                  (length pointChunk1 + length pointChunk2)
                            +:+ "&sources=" +:+ indexList 0 (length pointChunk1)
                            +:+ "&destinations="
                            +:+ indexList (length pointChunk1) (length pointChunk2);
                   req_row := p1; req_column := p2 |}).
Proof.
  intros Hlen Hp. unfold tableRequest, chunkString.
  rewrite (mapM_pointString _ Hlen). cbn [obind]. rewrite Hp.
  unfold annotationList, optionalParameters, indexList.
  destruct (withDuration cfg), (withDistance cfg), (withApproachCurb cfg),
    (decide (0 < length (withExclude cfg))),
    (negb (PrimFloat.eqb (scaleFactor c) 1)), (0 <? snapRadius c)%Z;
    cbn [negb andb orb app]; cbv zeta;
    rewrite decide_True by (simpl; lia);
    rewrite (length_app pointChunk1 pointChunk2), indices_take, indices_drop;
    rewrite ?string_app_assoc; reflexivity.
Qed.

(** The request of a pair of chunks is made when, and only when, [getPath]
    accepts its points. *)
Lemma tableRequest_inv (L : Libs) (c : client) (cfg : tableConfig)
    (p1 p2 : nat) (pointChunk1 pointChunk2 : list (list float)) (req : request) :
  Forall (fun point => length point = 2) (pointChunk1 ++ pointChunk2) ->
  tableRequest L c cfg p1 p2 pointChunk1 pointChunk2 = Return (inr req) ->
  exists p,
    getPath L TableEndpoint
      (strings_Join (coordString <$> pointChunk1 ++ pointChunk2) ";") = inr p
    /\ req = {| path := p +:+ "?annotations=" +:+ annotationList cfg
                          +:+ optionalParameters c cfg
                                (length pointChunk1 + length pointChunk2)
                          +:+ "&sources=" +:+ indexList 0 (length pointChunk1)
                          +:+ "&destinations="
                          +:+ indexList (length pointChunk1) (length pointChunk2);
                 req_row := p1; req_column := p2 |}.
Proof.
  intros Hlen Hreq.
  destruct (getPath L TableEndpoint
              (strings_Join (coordString <$> pointChunk1 ++ pointChunk2) ";"))
    as [e|p] eqn:Hp.
  - exfalso. revert Hreq. unfold tableRequest, chunkString.
    rewrite (mapM_pointString _ Hlen). cbn [obind]. by rewrite Hp.
  - exists p. split; [done|].
    rewrite (tableRequest_path_aux L c cfg p1 p2 _ _ p Hlen Hp) in Hreq.
    by injection Hreq as <-.
Qed.

(** A loop that appends one element per item, or leaves with an error:
    when it returns a slice, every item gave its element. *)
Lemma forRangeE_append_inv {A B} (f : nat -> A -> outcome (error + B)) (l : list A) :
  forall (i : nat) (s s' : list B),
    forRangeE
      (fun k x s =>
         r <-- f k x ;;
         match r with
         | inl e => Return (inl e)
         | inr y => Return (inr (s ++ [y]))
         end) i l s = Return (inr s') ->
    exists ys,
      s' = s ++ ys
      /\ length ys = length l
      /\ forall k x, l !! k = Some x ->
           exists y, ys !! k = Some y /\ f (i + k) x = Return (inr y).
Proof.
  induction l as [|x l IH]; intros i s s'; simpl.
  - intros H. injection H as <-. exists []. rewrite app_nil_r.
    split_and!; done.
  - destruct (f i x) as [[e|y]|p] eqn:Hf; simpl; try done.
    intros Hrest. destruct (IH _ _ _ Hrest) as (ys & -> & Hlen & Hall).
    exists (y :: ys). rewrite <- app_assoc. split_and!; [done|simpl; lia|].
    intros [|k] x' Hk; simpl in Hk.
    + injection Hk as <-. exists y. by rewrite Nat.add_0_r.
    + destruct (Hall k x' Hk) as (y' & Hy' & Hf').
      exists y'. split; [done|]. by rewrite Nat.add_succ_r.
Qed.

(** A loop that appends a row of [K] elements per item. *)
Lemma forRangeE_rows_inv {A B} (g : nat -> A -> list B -> outcome (error + list B))
    (K : nat) (Q : nat -> A -> list B -> Prop) (l : list A) :
  (forall k x s s1, g k x s = Return (inr s1) ->
     exists ys, s1 = s ++ ys /\ length ys = K /\ Q k x ys) ->
  forall (i : nat) (s s' : list B),
    forRangeE g i l s = Return (inr s') ->
    exists yss,
      s' = s ++ concat yss
      /\ length yss = length l
      /\ forall k x, l !! k = Some x ->
           exists ys, yss !! k = Some ys /\ length ys = K /\ Q (i + k) x ys.
Proof.
  intros Hg. induction l as [|x l IH]; intros i s s'; simpl.
  - intros H. injection H as <-. exists []. simpl. rewrite app_nil_r.
    split_and!; done.
  - destruct (g i x s) as [[e|s1]|p] eqn:Hgx; simpl; try done.
    destruct (Hg _ _ _ _ Hgx) as (ys & -> & Hlen & HQ).
    intros Hrest. destruct (IH _ _ _ Hrest) as (yss & -> & Hlens & Hall).
    exists (ys :: yss). simpl. rewrite <- app_assoc.
    split_and!; [done|simpl; lia|].
    intros [|k] x' Hk; simpl in Hk.
    + injection Hk as <-. exists ys. by rewrite Nat.add_0_r.
    + destruct (Hall k x' Hk) as (ys' & Hys' & Hlen' & HQ').
      exists ys'. split_and!; [done|done|]. by rewrite Nat.add_succ_r.
Qed.

Lemma concat_lookup_rows {B} (K : nat) (yss : list (list B)) :
  (forall k ys, yss !! k = Some ys -> length ys = K) ->
  forall (p1 p2 : nat) (ys : list B) (y : B),
    yss !! p1 = Some ys -> ys !! p2 = Some y ->
    concat yss !! (p1 * K + p2) = Some y.
Proof.
  induction yss as [|ys0 yss IH]; intros Hlen p1 p2 ys y H1 H2; [done|].
  destruct p1 as [|p1]; simpl in *.
  - injection H1 as ->. by apply lookup_app_l_Some.
  - rewrite lookup_app_r; rewrite (Hlen 0 ys0 eq_refl); [|lia].
    replace (K + p1 * K + p2 - K) with (p1 * K + p2) by lia.
    eapply IH; [|done..]. intros k ys' Hk. by apply (Hlen (S k)).
Qed.

Lemma concat_length_rows {B} (K : nat) (yss : list (list B)) :
  (forall k ys, yss !! k = Some ys -> length ys = K) ->
  length (concat yss) = length yss * K.
Proof.
  induction yss as [|ys0 yss IH]; intros Hlen; simpl; [done|].
  rewrite length_app, (Hlen 0 ys0 eq_refl), IH; [done|].
  intros k ys' Hk. by apply (Hlen (S k)).
Qed.

(** The requests [tableRequests] returns: one per ordered pair of chunks
    of the converted points, in row-major order; its coordinate string is
    made of the points of the first chunk followed by those of the second,
    its sources are the places of the former and its destinations the
    places of the latter in that string. *)
Lemma tableRequests_inv (L : Libs) (c : client) (cfg : tableConfig)
    (points : list Point) (requests : list request) :
  tableRequests L c cfg points = Return (inr requests) ->
  exists chunks,
    chunkBy (sentPoint <$> points) (maxTableSize c) = Return chunks
    /\ concat chunks = sentPoint <$> points
    /\ length requests = length chunks * length chunks
    /\ forall p1 p2 chunk1 chunk2,
         chunks !! p1 = Some chunk1 -> chunks !! p2 = Some chunk2 ->
         exists p,
           getPath L TableEndpoint
             (strings_Join (coordString <$> chunk1 ++ chunk2) ";") = inr p
           /\ requests !! (p1 * length chunks + p2)
              = Some {| path := p +:+ "?annotations=" +:+ annotationList cfg
                                  +:+ optionalParameters c cfg
                                        (length chunk1 + length chunk2)
                                  +:+ "&sources=" +:+ indexList 0 (length chunk1)
                                  +:+ "&destinations="
                                  +:+ indexList (length chunk1) (length chunk2);
                         req_row := p1; req_column := p2 |}.
Proof.
  unfold tableRequests. rewrite convertPoints_spec. cbn [obind].
  destruct (chunkBy (sentPoint <$> points) (maxTableSize c)) as [chunks|p]
    eqn:Hchunks; [|done].
  cbn [obind]. intros Hloop. exists chunks.
  assert (concat chunks = sentPoint <$> points) as Hcat.
  { revert Hchunks. unfold chunkBy.
    destruct (Z.eqb_spec (maxTableSize c) 0); [done|].
    destruct (Z.ltb_spec (maxTableSize c) 0); [done|].
    intros Hret. injection Hret as <-.
    destruct (chunkBy_loop_spec (Z.to_nat (maxTableSize c)) ltac:(lia)
                (length (sentPoint <$> points)) (sentPoint <$> points) [] (le_n _))
      as (cs & -> & Hcat & _). done. }
  assert (forall ch, ch ∈ chunks -> Forall (fun p => length p = 2) ch) as Hpairs.
  { apply Forall_concat_chunks. rewrite Hcat. apply Forall_fmap, Forall_forall.
    intros p _. apply sentPoint_length. }
  destruct (forRangeE_rows_inv
    (fun p1 pointChunk1 requests =>
       forRangeE
         (fun p2 pointChunk2 requests =>
            r <-- tableRequest L c cfg p1 p2 pointChunk1 pointChunk2 ;;
            match r with
            | inl e => Return (inl e)
            | inr req => Return (inr (requests ++ [req]))
            end)
         0 chunks requests)
    (length chunks)
    (fun p1 chunk1 ys =>
       forall p2 chunk2, chunks !! p2 = Some chunk2 ->
         exists req, ys !! p2 = Some req
           /\ tableRequest L c cfg p1 p2 chunk1 chunk2 = Return (inr req))
    chunks) with (i := 0) (s := @nil request) (s' := requests)
    as (yss & -> & Hlens & Hrows).
  { intros p1 chunk1 s s1 Hinner.
    destruct (forRangeE_append_inv
                (fun p2 chunk2 => tableRequest L c cfg p1 p2 chunk1 chunk2)
                chunks 0 s s1 Hinner) as (ys & -> & Hlen & Hall).
    exists ys. split_and!; [done|done|]. intros p2 chunk2 Hp2.
    destruct (Hall p2 chunk2 Hp2) as (req & Hreq & Hf). eauto. }
  { exact Hloop. }
  assert (forall k ys, yss !! k = Some ys -> length ys = length chunks) as Hrowlen.
  { intros k ys Hk.
    destruct (lookup_lt_is_Some_2 chunks k) as [chunk Hchunk].
    { apply lookup_lt_Some in Hk. lia. }
    destruct (Hrows k chunk Hchunk) as (ys' & Hys' & Hlen' & _).
    rewrite Hk in Hys'. by injection Hys' as <-. }
  split_and!; [done|done| |].
  - simpl. rewrite (concat_length_rows (length chunks)) by done. by rewrite Hlens.
  - intros p1 p2 chunk1 chunk2 Hp1 Hp2.
    destruct (Hrows p1 chunk1 Hp1) as (ys & Hys & _ & Hrow).
    destruct (Hrow p2 chunk2 Hp2) as (req & Hreq & Hf).
    destruct (tableRequest_inv L c cfg p1 p2 chunk1 chunk2 req) as (p & Hp & ->);
      [|done|].
    { apply Forall_app. split; apply Hpairs; by eapply list_elem_of_lookup_2. }
    exists p. split; [done|]. simpl.
    by apply (concat_lookup_rows (length chunks) yss Hrowlen p1 p2 ys).
Qed.

(** C7, amended: for every point list given to [tableRequests] or
    [pointsParameter], the coordinate list has exactly one entry per input
    point, in order; the entry of a point that does not have exactly two
    coordinates (an absent point) is the fixed unroutable point, and the
    entry of a point of two coordinates, the origin included, is the point
    itself.  The string of [pointsParameter] joins the strings of these
    entries.  The chunks of [tableRequests] concatenate to that list, and
    the coordinate string of the request it returns for a pair of chunks
    joins the strings of the entries of the first chunk and of the second,
    its sources being the places of the former and its destinations the
    places of the latter in that string. *)
Theorem unroutable_points_replaced (points : list Point) :
  exists converted strs,
    convertPoints points = Return converted
    /\ pointsParameters points = Return strs
    /\ pointsParameter points = Return (strings_Join strs ";")
    /\ length converted = length points
    /\ length strs = length points
    /\ (forall i p, points !! i = Some p ->
          (length p <> 2 ->
             converted !! i = Some unroutablePoint
             /\ strs !! i = Some (Sprintf_f_f (-143.292892) 37.683603))
          /\ (forall x y, p = [x; y] ->
                converted !! i = Some [x; y]
                /\ strs !! i = Some (Sprintf_f_f x y)))
    /\ (forall chunkSize chunks,
          chunkBy converted chunkSize = Return chunks -> concat chunks = converted)
    /\ (forall (L : Libs) (c : client) (cfg : tableConfig) (requests : list request),
          tableRequests L c cfg points = Return (inr requests) ->
          exists chunks,
            chunkBy converted (maxTableSize c) = Return chunks
            /\ length requests = length chunks * length chunks
            /\ forall p1 p2 chunk1 chunk2,
                 chunks !! p1 = Some chunk1 -> chunks !! p2 = Some chunk2 ->
                 exists p req,
                   requests !! (p1 * length chunks + p2) = Some req
                   /\ getPath L TableEndpoint
                        (strings_Join (coordString <$> chunk1 ++ chunk2) ";")
                      = inr p
                   /\ path req
                      = p +:+ "?annotations=" +:+ annotationList cfg
                          +:+ optionalParameters c cfg
                                (length chunk1 + length chunk2)
                          +:+ "&sources=" +:+ indexList 0 (length chunk1)
                          +:+ "&destinations="
                          +:+ indexList (length chunk1) (length chunk2)
                   /\ req_row req = p1 /\ req_column req = p2).
Proof.
  exists (sentPoint <$> points), (coordString <$> (sentPoint <$> points)).
  split_and!.
  - apply convertPoints_spec.
  - apply pointsParameters_spec.
  - unfold pointsParameter. by rewrite pointsParameters_spec.
  - by rewrite length_fmap.
  - by rewrite !length_fmap.
  - intros i p Hp. rewrite !list_lookup_fmap, Hp. simpl. split.
    + intros Hlen. unfold sentPoint. by rewrite decide_False.
    + intros x y ->. done.
  - intros chunkSize chunks. unfold chunkBy.
    destruct (Z.eqb_spec chunkSize 0); [done|].
    destruct (Z.ltb_spec chunkSize 0); [done|].
    intros Hc. injection Hc as <-.
    destruct (chunkBy_loop_spec (Z.to_nat chunkSize) ltac:(lia)
                (length (sentPoint <$> points)) (sentPoint <$> points) [] (le_n _))
      as (cs & -> & Hcat & _). done.
  - intros L c cfg requests Hreqs.
    destruct (tableRequests_inv L c cfg points requests Hreqs)
      as (chunks & Hchunks & _ & Hlen & Hall).
    exists chunks. split_and!; [done|done|].
    intros p1 p2 chunk1 chunk2 Hp1 Hp2.
    destruct (Hall p1 p2 chunk1 chunk2 Hp1 Hp2) as (p & Hp & Hreq).
    exists p. eexists. split_and!; [exact Hreq|exact Hp|reflexivity..].
Qed.

(** ** The cache and Get *)

Lemma lru_find_remove (key : string) (items : list (string * string)) :
  lru_find key (lru_remove key items) = None.
Proof.
  induction items as [|[k v] items IH]; simpl; [done|].
  destruct (String.eqb k key) eqn:Hk; [done|]. simpl. by rewrite Hk.
Qed.

Lemma lru_find_Add (ch : lruCache) (key value : string) :
  0 < lru_size ch -> lru_find key (lru_items (lru_Add ch key value)) = Some value.
Proof.
  intros Hsize. unfold lru_Add. simpl.
  destruct (lru_size ch) as [|size]; [lia|]. simpl. by rewrite String.eqb_refl.
Qed.

Lemma lru_find_Get (ch : lruCache) (key value : string) :
  lru_find key (lru_items ch) = Some value ->
  (lru_Get ch key).2 = Some value
  /\ lru_find key (lru_items (lru_Get ch key).1) = Some value
  /\ lru_size (lru_Get ch key).1 = lru_size ch.
Proof.
  intros Hfind. unfold lru_Get. rewrite Hfind. simpl.
  by rewrite String.eqb_refl.
Qed.

(** A call of [get] that finds its key in the cache: no transport call. *)
Lemma get_hit (L : Libs) (c : client) (ch : lruCache) (uri value : string)
    (n : net L) :
  useCache c = true -> cache c = Some ch ->
  lru_find (sha1_hex L uri) (lru_items ch) = Some value ->
  get L c uri n
  = Return (value, None, set_cache c (lru_Get ch (sha1_hex L uri)).1, n).
Proof.
  intros Huse Hcache Hfind. unfold get, cacheLookup. rewrite Huse, Hcache.
  destruct (lru_find_Get ch _ _ Hfind) as (Hget & _).
  destruct (lru_Get ch (sha1_hex L uri)) as [ch' found]. simpl in *.
  by rewrite Hget.
Qed.

(** A call of [get] that misses the cache and gets a 200 whose body it can
    read: one transport call, and the body is stored. *)
Lemma get_miss_ok (L : Libs) (c : client) (ch : lruCache) (uri : string)
    (n : net L) (h u : URL L) (req : Request L) (w' : World L) (resp : Response) :
  useCache c = true -> cache c = Some ch ->
  lru_find (sha1_hex L uri) (lru_items ch) = None ->
  url_Parse L (host c) = inr h -> url_Parse L uri = inr u ->
  http_NewRequest L (url_String L (url_ResolveReference L h u)) = inr req ->
  http_Do L (world n) req = (w', inr resp) ->
  StatusCode resp = StatusOK -> ReadErr resp = None ->
  get L c uri n
  = Return (Body resp, CloseErr resp,
            set_cache (set_cache c ch) (lru_Add ch (sha1_hex L uri) (Body resp)),
            {| world := w'; calls := S (calls n) |}).
Proof.
  intros Huse Hcache Hfind Hh Hu Hreq Hdo Hstatus Hread.
  unfold get, cacheLookup, lru_Get. rewrite Huse, Hcache, Hfind. simpl.
  rewrite Hh, Hu, Hreq. unfold Do. rewrite Hdo, Hstatus, Hread. simpl.
  unfold cacheStore. simpl. by rewrite Huse.
Qed.

(** A call of [get] without cache whose URLs parse: one transport call, and
    the client is as it was. *)
Lemma get_nocache (L : Libs) (c : client) (uri : string) (n : net L)
    (h u : URL L) (req : Request L) :
  useCache c = false ->
  url_Parse L (host c) = inr h -> url_Parse L uri = inr u ->
  http_NewRequest L (url_String L (url_ResolveReference L h u)) = inr req ->
  exists data e,
    get L c uri n
    = Return (data, e, c,
              {| world := (http_Do L (world n) req).1; calls := S (calls n) |}).
Proof.
  intros Huse Hh Hu Hreq.
  unfold get, cacheLookup, cacheStore. rewrite Huse. simpl.
  rewrite Hh, Hu, Hreq. unfold Do.
  destruct (http_Do L (world n) req) as [w' [e|resp]]; simpl; [eauto|].
  destruct (negb (StatusCode resp =? StatusOK)%Z); [eauto|].
  destruct (ReadErr resp); simpl; [eauto|].
  rewrite Huse. simpl. eauto.
Qed.

(** C6, amended: on a client with a cache of positive size that does not
    hold the URI yet, when the URLs parse and the transport answers 200 with
    a body that can be read, three calls of Get make exactly one transport
    call, and the second and the third return the bytes of the first
    without error; on a client without cache, when the URLs parse, three
    calls of Get make exactly three transport calls and leave the client,
    and so its cache, as it was. *)
Theorem Get_thrice (L : Libs) (c : client) (uri : string) (n : net L)
    (h u : URL L) (req : Request L) :
  url_Parse L (host c) = inr h -> url_Parse L uri = inr u ->
  http_NewRequest L (url_String L (url_ResolveReference L h u)) = inr req ->
  (forall (ch : lruCache) (w' : World L) (resp : Response),
     useCache c = true -> cache c = Some ch -> 0 < lru_size ch ->
     lru_find (sha1_hex L uri) (lru_items ch) = None ->
     http_Do L (world n) req = (w', inr resp) ->
     StatusCode resp = StatusOK -> ReadErr resp = None ->
     exists c3,
       getThrice L c uri n
       = Return ((Body resp, CloseErr resp), (Body resp, None), (Body resp, None),
                 c3, {| world := w'; calls := calls n + 1 |}))
  /\ (useCache c = false ->
      exists r1 r2 r3 n3,
        getThrice L c uri n = Return (r1, r2, r3, c, n3)
        /\ calls n3 = calls n + 3).
Proof.
  intros Hh Hu Hreq. split.
  - intros ch w' resp Huse Hcache Hsize Hfind Hdo Hstatus Hread.
    unfold getThrice, Get.
    rewrite (get_miss_ok L c ch uri n h u req w' resp) by done. simpl.
    set (key := sha1_hex L uri).
    set (ch1 := lru_Add ch key (Body resp)).
    assert (lru_find key (lru_items ch1) = Some (Body resp)) as Hfind1
      by (by apply lru_find_Add).
    rewrite (get_hit L _ ch1 uri (Body resp)) by done. simpl.
    destruct (lru_find_Get ch1 key _ Hfind1) as (_ & Hfind2 & _).
    rewrite (get_hit L _ (lru_Get ch1 key).1 uri (Body resp)) by done. simpl.
    eexists. by rewrite Nat.add_1_r.
  - intros Huse. unfold getThrice, Get.
    destruct (get_nocache L c uri n h u req Huse Hh Hu Hreq) as (d1 & e1 & ->).
    simpl.
    destruct (get_nocache L c uri
                {| world := (http_Do L (world n) req).1; calls := S (calls n) |}
                h u req Huse Hh Hu Hreq) as (d2 & e2 & ->).
    simpl.
    match goal with |- context [get L c uri ?n2] =>
      destruct (get_nocache L c uri n2 h u req Huse Hh Hu Hreq) as (d3 & e3 & ->)
    end.
    simpl. do 4 eexists. split; [reflexivity|]. simpl. lia.
Qed.

(** The test of the package: a server that answers 200, a client with the
    default cache, the same URI three times. *)
Lemma Get_thrice_witness :
  (exists c3,
     getThrice (libsAlways 200 "{}") (DefaultClient "http://localhost:5000" true)
       "/table/v1/driving/0,0;1,1" (net0 (libsAlways 200 "{}") 0)
     = Return (("{}", None), ("{}", None), ("{}", None), c3,
               Build_net (libsAlways 200 "{}") 1%nat (0 + 1)))
  /\ (exists r1 r2 r3 n3,
        getThrice (libsAlways 200 "{}") (DefaultClient "http://localhost:5000" false)
          "/table/v1/driving/0,0;1,1" (net0 (libsAlways 200 "{}") 0)
        = Return (r1, r2, r3, DefaultClient "http://localhost:5000" false, n3)
        /\ calls n3 = 0 + 3).
Proof.
  split.
  - refine (proj1 (Get_thrice (libsAlways 200 "{}")
                     (DefaultClient "http://localhost:5000" true)
                     "/table/v1/driving/0,0;1,1" (net0 (libsAlways 200 "{}") 0)
                     "http://localhost:5000" "/table/v1/driving/0,0;1,1"
                     "http://localhost:5000/table/v1/driving/0,0;1,1"
                     eq_refl eq_refl eq_refl)
              {| lru_size := 100; lru_items := [] |} 1
              {| StatusCode := 200; Body := "{}"; ReadErr := None; CloseErr := None |}
              eq_refl eq_refl _ eq_refl eq_refl eq_refl eq_refl).
    vm_compute. lia.
  - exact (proj2 (Get_thrice (libsAlways 200 "{}")
                    (DefaultClient "http://localhost:5000" false)
                    "/table/v1/driving/0,0;1,1" (net0 (libsAlways 200 "{}") 0)
                    "http://localhost:5000" "/table/v1/driving/0,0;1,1"
                    "http://localhost:5000/table/v1/driving/0,0;1,1"
                    eq_refl eq_refl eq_refl) eq_refl).
Defined.

(** A backend that answers 500: nothing is stored, and each of the three
    calls of Get on a client with a cache reaches the transport. *)
Lemma Get_thrice_failing_backend :
  exists e c3 n3,
    getThrice (libsAlways 500 "Internal Server Error")
      (DefaultClient "http://localhost:5000" true)
      "/table/v1/driving/0,0;1,1" (net0 (libsAlways 500 "Internal Server Error") 0)
    = Return (("", Some e), ("", Some e), ("", Some e), c3, n3)
    /\ useCache (DefaultClient "http://localhost:5000" true) = true
    /\ cache (DefaultClient "http://localhost:5000" true)
       = Some {| lru_size := 100; lru_items := [] |}
    /\ cache c3 = Some {| lru_size := 100; lru_items := [] |}
    /\ calls n3 = 3
    /\ calls n3 <> 1.
Proof.
  do 3 eexists. split_and!; [vm_compute; reflexivity|try done..].
Qed.

(** ** Polyline *)

Lemma forRangeE_inv {A St} (f : nat -> A -> St -> outcome (error + St))
    (Inv : nat -> St -> Prop) (l : list A) (i : nat) (s : St) :
  Inv 0 s ->
  (forall k x s, l !! k = Some x -> Inv k s ->
     exists s', f (i + k) x s = Return (inr s') /\ Inv (S k) s') ->
  exists s', forRangeE f i l s = Return (inr s') /\ Inv (length l) s'.
Proof.
  revert Inv i s. induction l as [|x l IH]; intros Inv i s H0 Hstep; simpl.
  - eauto.
  - destruct (Hstep 0 x s eq_refl H0) as (s1 & Hf & H1).
    rewrite Nat.add_0_r in Hf. rewrite Hf. simpl.
    apply (IH (fun k => Inv (S k)) (S i) s1 H1).
    intros k y s2 Hk Hinv.
    destruct (Hstep (S k) y s2 Hk Hinv) as (s3 & Hf3 & H3).
    exists s3. split; [|done]. by rewrite <- Hf3, Nat.add_succ_r.
Qed.

(** The steps of leg [i] are decoded into [decodedLegs[i]]. *)
Lemma decodeSteps_ok (L : Libs) (i : nat) (steps : list Step)
    (decodedLegs : list (list (list float))) :
  i < length decodedLegs ->
  (forall step, step ∈ steps ->
     exists coords, polyline_DecodeCoords L (Step_Geometry step) = inr coords) ->
  exists decodedLegs',
    decodeSteps L i steps decodedLegs = Return (inr decodedLegs')
    /\ length decodedLegs' = length decodedLegs.
Proof.
  intros Hi Hdec. unfold decodeSteps.
  apply (forRangeE_inv _ (fun _ dl => length dl = length decodedLegs)); [done|].
  intros k step dl Hk Hlen.
  destruct (Hdec step) as [coords Hcoords]; [by eapply list_elem_of_lookup_2|].
  rewrite Hcoords.
  destruct (lookup_lt_is_Some_2 dl i) as [leg Hleg]; [lia|].
  rewrite (idx_lookup _ _ _ Hleg). simpl.
  eexists. split; [reflexivity|]. by rewrite length_insert.
Qed.

Lemma pointsParameter_spec (points : list Point) :
  pointsParameter points = Return (routePoints points).
Proof. unfold pointsParameter. by rewrite pointsParameters_spec. Qed.

(** C8: [Polyline] on an empty point list returns an error and leaves the
    world as it was (no transport call); on two or more points, when the
    route request gets an answer that decodes with code Ok, a first route of
    at most one leg per pair of consecutive points, and steps whose
    geometries decode, it returns the geometry of that route unchanged and
    exactly one polyline less than there are points. *)
Theorem Polyline_spec (L : Libs) (c : client) (n : net L) :
  Polyline L c [] n
  = Return ("", [], Some (errorString "cannot create polyline for empty points"), c, n)
  /\ forall (points : list Point) (path0 body : string) (c' : client) (n' : net L)
       (routeResp : RouteResponse) (route : Route) (routes : list Route),
       2 <= length points ->
       getPath L RouteEndpoint (routePoints points) = inr path0 ->
       get L c (path0 +:+ routeQuery) n = Return (body, None, c', n') ->
       json_Unmarshal_route L body = inr routeResp ->
       Route_Code routeResp = "Ok" ->
       Routes routeResp = route :: routes ->
       length (Legs route) <= length points - 1 ->
       (forall leg step, leg ∈ Legs route -> step ∈ Steps leg ->
          exists coords, polyline_DecodeCoords L (Step_Geometry step) = inr coords) ->
       exists legs,
         Polyline L c points n = Return (Geometry route, legs, None, c', n')
         /\ length legs = length points - 1.
Proof.
  split; [reflexivity|].
  intros points path0 body c' n' routeResp route routes
    Hlen Hpath Hget Hjson Hcode Hroutes Hlegs Hsteps.
  unfold Polyline. rewrite decide_False by lia.
  rewrite pointsParameter_spec. simpl. rewrite Hpath.
  fold routeQuery. rewrite Hget. simpl. rewrite Hjson, Hcode. simpl.
  rewrite Hroutes. simpl.
  destruct (forRangeE_inv
    (fun i leg decodedLegs => decodeSteps L i (Steps leg) decodedLegs)
    (fun _ dl => length dl = length points - 1)
    (Legs route) 0 (replicate (length points - 1) [])) as (dl & Hdl & Hdl_len).
  - by rewrite length_replicate.
  - intros k leg dl Hk Hdl_len. simpl.
    destruct (decodeSteps_ok L k (Steps leg) dl) as (dl' & Hdl' & Hlen').
    + apply lookup_lt_Some in Hk. lia.
    + intros step Hstep. eapply Hsteps; [|exact Hstep].
      by eapply list_elem_of_lookup_2.
    + exists dl'. split; [done|]. by rewrite Hlen'.
  - rewrite Hdl. simpl. eexists. split; [reflexivity|].
    by rewrite length_map.
Qed.

Lemma Polyline_spec_witness :
  exists legs c' n',
    Polyline (libsRoute [route1]) (DefaultClient "http://localhost:5000" true)
      points2 (net0 (libsRoute [route1]) 0)
    = Return ("mfp_I__vpAqJ", legs, None, c', n')
    /\ length legs = 1
    /\ calls n' = 1.
Proof.
  edestruct (proj2 (Polyline_spec (libsRoute [route1])
                      (DefaultClient "http://localhost:5000" true)
                      (net0 (libsRoute [route1]) 0)) points2)
    as (legs & Hp & Hlen).
  - simpl. lia.
  - vm_compute. reflexivity.
  - reflexivity.
  - reflexivity.
  - reflexivity.
  - reflexivity.
  - simpl. lia.
  - intros leg step _ _. eexists. reflexivity.
  - exists legs. do 2 eexists. split; [exact Hp|]. split; [exact Hlen|reflexivity].
Defined.

(** C2 on the code: a route answer that decodes with code Ok and holds no
    route makes [Polyline] read [Routes[0]] out of range: it panics instead
    of returning an error. *)
Theorem Polyline_no_route_panics (L : Libs) (c : client) (n : net L)
    (points : list Point) (path0 body : string) (c' : client) (n' : net L)
    (routeResp : RouteResponse) :
  points <> [] ->
  getPath L RouteEndpoint (routePoints points) = inr path0 ->
  get L c (path0 +:+ routeQuery) n = Return (body, None, c', n') ->
  json_Unmarshal_route L body = inr routeResp ->
  Route_Code routeResp = "Ok" ->
  Routes routeResp = [] ->
  Polyline L c points n = Panic IndexOutOfRange.
Proof.
  intros Hne Hpath Hget Hjson Hcode Hroutes.
  unfold Polyline. rewrite decide_False by (destruct points; [done|simpl; lia]).
  rewrite pointsParameter_spec. simpl. rewrite Hpath.
  fold routeQuery. rewrite Hget. simpl. rewrite Hjson, Hcode. simpl.
  by rewrite Hroutes.
Qed.

Lemma Polyline_no_route_panics_witness :
  Polyline (libsRoute []) (DefaultClient "http://localhost:5000" true)
    points2 (net0 (libsRoute []) 0)
  = Panic IndexOutOfRange.
Proof.
  eapply (Polyline_no_route_panics (libsRoute [])
            (DefaultClient "http://localhost:5000" true) (net0 (libsRoute []) 0)
            points2).
  - discriminate.
  - vm_compute. reflexivity.
  - reflexivity.
  - reflexivity.
  - reflexivity.
  - reflexivity.
Defined.

(** ** The errors of a batch *)

(** The error [Table] makes of a batch of errors is an input error exactly
    when the first collected error is one. *)
Lemma aggregateErrors_first (e : error) (errs : list error) :
  exists msg, aggregateErrors (e :: errs) = Return (osrmError msg (isInputError e)).
Proof.
  unfold aggregateErrors.
  destruct (forRange_inv
    (fun (_ : nat) (err_ : error) (s : bool * list string) =>
       e0 <-- idx (e :: errs) 0 ;;
       Return (if isInputError e0 then true else s.1, s.2 ++ [Error_ err_]))
    (fun k s => s.1 = match k with 0 => false | S _ => isInputError e end)
    (e :: errs) 0 (false, replicate (length (e :: errs)) ""))
    as (s & Hs & Hinv).
  - done.
  - intros k x s _ Hk. simpl. eexists. split; [reflexivity|]. simpl.
    destruct (isInputError e) eqn:He; [done|].
    rewrite Hk. by destruct k.
  - rewrite Hs. simpl in *. rewrite Hinv.
    destruct (isInputError e); eexists; reflexivity.
Qed.

(** C1 on the code: three points cut in blocks of two give four requests;
    the backend answers the first with a 500 and the others with a 400.
    The batch holds three input errors, and [Table] returns an error that
    is not an input error, because the first collected error is not one. *)
Theorem Table_mixed_batch_not_input_error :
  (exists requests results c' n',
     tableRequests libsMixed client2 defaultConfig points3 = Return (inr requests)
     /\ runRequests libsMixed client2 defaultConfig requests requestOrder
          (net0 libsMixed 0)
        = Return (results, c', n')
     /\ err <$> results
        = [ Some (NewError "error response from OSRM: boom" false);
            Some (NewError "Error in input data when getting maps: bad" true);
            Some (NewError "Error in input data when getting maps: bad" true);
            Some (NewError "Error in input data when getting maps: bad" true) ])
  /\ (exists msg c' n',
        Table libsMixed client2 defaultConfig requestOrder points3
          (net0 libsMixed 0)
        = Return ([], [], Some (NewError msg false), c', n'))
  /\ (forall e errs, exists msg,
        aggregateErrors (e :: errs) = Return (NewError msg (isInputError e))).
Proof.
  split_and!.
  - do 4 eexists. split_and!; [vm_compute; reflexivity..].
  - do 3 eexists. vm_compute. reflexivity.
  - apply aggregateErrors_first.
Qed.

(** ** Stitching a grid of blocks *)

Lemma forRange_const_shift {A St} (g : A -> St -> outcome St) (l : list A) :
  forall (i j : nat) (s : St),
    forRange (fun _ => g) i l s = forRange (fun _ => g) j l s.
Proof.
  induction l as [|x l IH]; intros i j s; simpl; [done|].
  destruct (g x s) as [s'|p]; simpl; [apply IH|done].
Qed.

Lemma mergeLoop_cons (b : tableResponse) (rest : list tableResponse) (s : mergeState) :
  mergeLoop (b :: rest) s = (s' <-- mergeStep b s ;; mergeLoop rest s').
Proof.
  unfold mergeLoop. simpl. destruct (mergeStep b s) as [s'|p]; simpl; [|done].
  apply (forRange_const_shift mergeStep).
Qed.

Lemma mergeLoop_app (l1 l2 : list tableResponse) :
  forall s, mergeLoop (l1 ++ l2) s = (s' <-- mergeLoop l1 s ;; mergeLoop l2 s').
Proof.
  induction l1 as [|b l1 IH]; intros s; simpl; [done|].
  rewrite !mergeLoop_cons. destruct (mergeStep b s) as [s'|p]; simpl; [apply IH|done].
Qed.

(** The loop that appends the rows of a block to the rows of the band that
    ends the merged matrix. *)
Lemma appendColumns_loop (index : nat) (sub : list (list float)) :
  forall (band M : list (list float)) (i : nat),
    length M = index + i -> length sub = length band ->
    forRange
      (fun i subrow merged =>
         mrow <-- idx merged (index + i) ;;
         Return (<[index + i := mrow ++ subrow]> merged))
      i sub (M ++ band)
    = Return (M ++ zip_with app band sub).
Proof.
  induction sub as [|x sub IH]; intros [|r band] M i HM Hlen; simpl in *; try done.
  rewrite <- HM.
  rewrite (idx_lookup _ _ r) by (by apply list_lookup_middle). simpl.
  replace (length M) with (length M + 0) at 1 by lia.
  rewrite insert_app_r. simpl.
  rewrite (cons_middle (r ++ x) M band), app_assoc.
  rewrite (IH band (M ++ [r ++ x]) (S i)).
  - by rewrite <- app_assoc.
  - rewrite length_app. simpl. lia.
  - lia.
Qed.

Lemma appendColumns_spec (M band sub : list (list float)) :
  length sub = length band ->
  appendColumns (M ++ band) (length M) sub = Return (M ++ zip_with app band sub).
Proof.
  intros Hlen. unfold appendColumns. apply appendColumns_loop; [lia|done].
Qed.

(** The blocks of a band after its first: their rows are appended to the
    rows of the band. *)
Lemma mergeLoop_band (bs : list tableResponse) :
  forall (s : mergeState) (M band M' band' : list (list float)),
    Forall (fun b => row b = subRow s
                     /\ length (Distances b) = length band
                     /\ length (Durations b) = length band') bs ->
    Distances (merged s) = M ++ band -> length M = disIndex s ->
    Durations (merged s) = M' ++ band' -> length M' = durIndex s ->
    exists s',
      mergeLoop bs s = Return s'
      /\ subRow s' = subRow s
      /\ disIndex s' = disIndex s /\ durIndex s' = durIndex s
      /\ Distances (merged s') = M ++ foldl (zip_with app) band (Distances <$> bs)
      /\ Durations (merged s') = M' ++ foldl (zip_with app) band' (Durations <$> bs)
      /\ (bs <> [] -> disRows s' = length band /\ durRows s' = length band')
      /\ (bs = [] -> s' = s)
      /\ blockMeta (merged s') = blockMeta (merged s).
Proof.
  induction bs as [|b bs IH]; intros s M band M' band' Hbs HD HM HD' HM'.
  - exists s. split_and!; done.
  - apply Forall_cons in Hbs as [(Hrow & Hh & Hh') Hbs].
    rewrite mergeLoop_cons. unfold mergeStep at 1.
    rewrite Hrow, Nat.eqb_refl. simpl.
    rewrite HD, <- HM, appendColumns_spec by done. simpl.
    rewrite HD', <- HM', appendColumns_spec by done. simpl.
    match goal with |- context [mergeLoop bs ?st] => set (s1' := st) end.
    destruct (IH s1' M (zip_with app band (Distances b)) M'
                (zip_with app band' (Durations b)))
      as (s' & Hs' & Hsub & Hdi & Hdu & HDs & HDs' & Hrows & _ & Hmeta);
      subst s1'; simpl; try done.
    { eapply Forall_impl; [exact Hbs|]. simpl. intros b' (? & ? & ?).
      rewrite !length_zip_with_l_eq by done. done. }
    exists s'. split_and!; try done.
    intros _. destruct bs as [|b' bs].
    + unfold mergeLoop in Hs'. simpl in Hs'. injection Hs' as <-. simpl. done.
    + destruct Hrows as [Hr Hr']; [done|].
      rewrite !length_zip_with_l_eq in * by done. done.
Qed.

Lemma stitchBand_length (first : list (list float)) (rest : list (list (list float))) :
  Forall (fun m => length m = length first) rest ->
  length (foldl (zip_with app) first rest) = length first.
Proof.
  revert first. induction rest as [|m rest IH]; intros first Hrest; simpl; [done|].
  apply Forall_cons in Hrest as [Hm Hrest].
  rewrite IH; rewrite length_zip_with_l_eq by done; [done|].
  eapply Forall_impl; [exact Hrest|]. simpl. intros; congruence.
Qed.

(** The bands after the first: the first block of a band is put under the
    merged matrix, and the others are appended to its rows. *)
Lemma mergeLoop_bands (C : nat) (bands : list (list tableResponse)) :
  1 <= C ->
  forall (r : nat) (s : mergeState),
    gridFrom C (S r) bands ->
    subRow s = r ->
    (2 <= C ->
       disIndex s + disRows s = length (Distances (merged s))
       /\ durIndex s + durRows s = length (Durations (merged s))) ->
    exists s',
      mergeLoop (concat bands) s = Return s'
      /\ Distances (merged s')
         = Distances (merged s) ++ stitch (distanceGrid bands)
      /\ Durations (merged s')
         = Durations (merged s) ++ stitch (durationGrid bands)
      /\ blockMeta (merged s') = blockMeta (merged s).
Proof.
  intros HC. induction bands as [|band bands IH]; intros r s Hgrid Hsub Hidx.
  - exists s. unfold stitch, distanceGrid, durationGrid. simpl.
    by rewrite !app_nil_r.
  - destruct Hgrid as [(Hlen & Hpos & h & h' & Hh) Hgrid]. simpl.
    destruct band as [|b0 bs]; [simpl in Hlen; lia|].
    apply Forall_cons in Hh as [[Hh0 Hh0'] Hh].
    destruct (Hpos 0 b0 eq_refl) as [Hrow0 _].
    assert (forall b, b ∈ bs -> row b = S r) as Hrows.
    { intros b Hb. apply list_elem_of_lookup in Hb as [c Hc].
      by destruct (Hpos (S c) b Hc). }
    simpl. rewrite mergeLoop_cons. unfold mergeStep at 1.
    rewrite Hrow0, Hsub.
    replace (S r =? r) with false by (symmetry; apply Nat.eqb_neq; lia). simpl.
    rewrite mergeLoop_app.
    match goal with |- context [mergeLoop bs ?st] => set (s1 := st) end.
    assert (exists s2,
              mergeLoop bs s1 = Return s2
              /\ subRow s2 = S r
              /\ Distances (merged s2)
                 = Distances (merged s) ++ stitchBand (Distances <$> b0 :: bs)
              /\ Durations (merged s2)
                 = Durations (merged s) ++ stitchBand (Durations <$> b0 :: bs)
              /\ (2 <= C ->
                    disIndex s2 + disRows s2 = length (Distances (merged s2))
                    /\ durIndex s2 + durRows s2 = length (Durations (merged s2)))
              /\ blockMeta (merged s2) = blockMeta (merged s))
      as (s2 & Hs2 & Hsub2 & HD2 & HD2' & Hidx2 & Hmeta2).
    { destruct bs as [|b1 bs'].
      - exists s1. subst s1. simpl. split_and!; try done.
        simpl in Hlen. intros; lia.
      - destruct Hidx as [Hi Hi']; [simpl in Hlen; lia|].
        destruct (mergeLoop_band (b1 :: bs') s1 (Distances (merged s)) (Distances b0)
                    (Durations (merged s)) (Durations b0))
          as (s2 & Hs2 & Hsub2 & Hdi & Hdu & HD2 & HD2' & Hrows2 & _ & Hmeta2);
          subst s1; simpl; try done.
        { apply Forall_forall. intros b Hb. split; [by apply Hrows|].
          rewrite Forall_forall in Hh. destruct (Hh b Hb). split; congruence. }
        exists s2. split_and!; try done.
        intros _. destruct Hrows2 as [Hr Hr']; [done|].
        simpl in Hdi, Hdu.
        rewrite HD2, HD2', !length_app, Hdi, Hdu, Hr, Hr', Hi, Hi'.
        rewrite !stitchBand_length; [done|..];
          apply Forall_fmap, Forall_forall; intros b Hb; simpl;
          rewrite Forall_forall in Hh; destruct (Hh b Hb); congruence. }
    rewrite Hs2. simpl.
    destruct (IH (S r) s2 Hgrid Hsub2 Hidx2) as (s' & Hs' & HD & HD' & Hmeta).
    exists s'. split_and!.
    + done.
    + rewrite HD, HD2. unfold stitch, distanceGrid. simpl. by rewrite <- app_assoc.
    + rewrite HD', HD2'. unfold stitch, durationGrid. simpl. by rewrite <- app_assoc.
    + by rewrite Hmeta, Hmeta2.
Qed.

Lemma before_spec (a b : tableResponse) :
  before a b <-> row a < row b \/ (row a = row b /\ column a < column b).
Proof.
  unfold before, less.
  destruct (Nat.eqb_spec (row a) (row b)); rewrite Nat.ltb_lt; lia.
Qed.

Lemma StronglySorted_lookup {A} (R : A -> A -> Prop) (l : list A) :
  (forall i j x y, i < j -> l !! i = Some x -> l !! j = Some y -> R x y) ->
  StronglySorted R l.
Proof.
  induction l as [|x l IH]; intros Hl; constructor.
  - apply IH. intros i j a b Hij Ha Hb. apply (Hl (S i) (S j)); [lia|done..].
  - apply Forall_forall. intros y Hy. apply list_elem_of_lookup in Hy as [j Hj].
    apply (Hl 0 (S j)); [lia|done..].
Qed.

Lemma StronglySorted_weaken {A} (R1 R2 : A -> A -> Prop) (l : list A) :
  (forall x y, R1 x y -> R2 x y) -> StronglySorted R1 l -> StronglySorted R2 l.
Proof.
  intros HR. induction 1 as [|x l _ IH Hx]; constructor; [done|].
  eapply Forall_impl; [exact Hx|]. apply HR.
Qed.

Lemma grid_sorted (C : nat) (bands : list (list tableResponse)) :
  forall r, gridFrom C r bands ->
    StronglySorted before (concat bands)
    /\ Forall (fun b => r <= row b) (concat bands).
Proof.
  induction bands as [|band bands IH]; intros r Hgrid; simpl.
  - split; constructor.
  - destruct Hgrid as [(_ & Hpos & _) Hgrid].
    destruct (IH (S r) Hgrid) as [Hsorted Hrows].
    assert (forall b, b ∈ band -> row b = r) as Hband.
    { intros b Hb. apply list_elem_of_lookup in Hb as [c Hc].
      by destruct (Hpos c b Hc). }
    split.
    + apply StronglySorted_app_2; [| |done].
      * intros x1 x2 H1 H2. apply before_spec. left.
        rewrite (Hband x1 H1). rewrite Forall_forall in Hrows.
        apply Hrows in H2. lia.
      * apply StronglySorted_lookup. intros i j x y Hij Hx Hy.
        apply before_spec. right.
        destruct (Hpos i x Hx) as [-> ->], (Hpos j y Hy) as [-> ->]. done.
    + apply Forall_app. split.
      * apply Forall_forall. intros b Hb. rewrite (Hband b Hb). done.
      * eapply Forall_impl; [exact Hrows|]. simpl. intros; lia.
Qed.

Lemma before_NoDup (l : list tableResponse) :
  StronglySorted before l -> NoDup (blockIndex <$> l).
Proof.
  induction 1 as [|x l _ IH Hx]; simpl; [constructor|].
  apply NoDup_cons. split; [|done].
  intros Hin. apply list_elem_of_fmap in Hin as (y & Hxy & Hy).
  rewrite Forall_forall in Hx. apply Hx, before_spec in Hy.
  unfold blockIndex in Hxy. injection Hxy as Hr Hc. lia.
Qed.

Lemma before_notAfter (a b : tableResponse) : before a b -> notAfter a b.
Proof. rewrite before_spec, notAfter_spec. lia. Qed.

(** [mergeRequests] on the blocks of a grid, in any order. *)
Lemma mergeRequests_grid (L : Libs) (C : nat)
    (bands : list (list tableResponse)) (responses : list tableResponse) :
  (forall l, sort_Slice L _ less l ≡ₚ l) ->
  (forall l, Sorted notAfter (sort_Slice L _ less l)) ->
  1 <= C -> bands <> [] -> gridFrom C 0 bands ->
  responses ≡ₚ concat bands ->
  exists first,
    head (concat bands) = Some first
    /\ mergeRequests L responses
       = Return (with_matrices first (stitch (distanceGrid bands))
                   (stitch (durationGrid bands))).
Proof.
  intros Hperm Hsorted HC Hne Hgrid Hresp.
  destruct (grid_sorted C bands 0 Hgrid) as [Hstrict _].
  assert (sort_Slice L _ less responses = concat bands) as Hsort.
  { apply (sorted_blocks_unique _ _ (concat bands)); try done.
    - by apply before_NoDup.
    - by rewrite Hperm.
    - apply Sorted.StronglySorted_Sorted.
      eapply StronglySorted_weaken; [|exact Hstrict]. apply before_notAfter. }
  destruct bands as [|band bands]; [done|].
  destruct Hgrid as [(Hlen & Hpos & h & h' & Hh) Hgrid].
  destruct band as [|b0 bs]; [simpl in Hlen; lia|].
  apply Forall_cons in Hh as [[Hh0 Hh0'] Hh].
  exists b0. split; [done|].
  unfold mergeRequests. rewrite Hsort. simpl.
  change (forRange (fun _ res_ s => mergeStep res_ s) 0 (bs ++ concat bands) ?s)
    with (mergeLoop (bs ++ concat bands) s).
  rewrite mergeLoop_app.
  destruct (mergeLoop_band bs
              {| merged := b0; subRow := 0; disRows := 0; disIndex := 0;
                 durRows := 0; durIndex := 0 |}
              [] (Distances b0) [] (Durations b0))
    as (s1 & Hs1 & Hsub1 & Hdi & Hdu & HD1 & HD1' & Hrows1 & Hnil & Hmeta1);
    simpl; try done.
  { apply Forall_forall. intros b Hb. rewrite Forall_forall in Hh.
    destruct (Hh b Hb). split_and!; try congruence.
    apply list_elem_of_lookup in Hb as [c Hc]. by destruct (Hpos (S c) b Hc). }
  rewrite Hs1. simpl in *.
  destruct (mergeLoop_bands C bands HC 0 s1 Hgrid Hsub1) as (s2 & Hs2 & HD2 & HD2' & Hmeta2).
  { intros HC2. destruct bs as [|b1 bs']; [simpl in Hlen; lia|].
    destruct Hrows1 as [Hr Hr']; [done|].
    rewrite HD1, HD1', Hdi, Hdu, Hr, Hr'.
    rewrite !stitchBand_length; [done|..];
      apply Forall_fmap, Forall_forall; intros b Hb; simpl;
      rewrite Forall_forall in Hh; destruct (Hh b Hb); congruence. }
  rewrite Hs2. simpl. f_equal.
  rewrite Hmeta1 in Hmeta2. unfold blockMeta in Hmeta2.
  destruct (merged s2) as [code msg dis dur r c]. simpl in *.
  injection Hmeta2 as -> -> -> ->. unfold with_matrices.
  rewrite HD2, HD2', HD1, HD1'. reflexivity.
Qed.

(** X1: for a grid of bands of [C >= 1] blocks each, the block of band [r]
    and place [c] carrying the indices [(r, c)] and the matrices of the
    blocks of a band having the same number of rows, [mergeRequests]
    returns, on the blocks in any order, the first block with the distance
    matrices and the duration matrices stitched: the rows of the blocks of
    a band side by side, the bands one under the other. *)
Theorem mergeRequests_stitches_grid (L : Libs) (C : nat)
    (bands : list (list tableResponse)) (responses : list tableResponse) :
  (forall l, sort_Slice L _ less l ≡ₚ l) ->
  (forall l, Sorted notAfter (sort_Slice L _ less l)) ->
  1 <= C -> bands <> [] -> gridFrom C 0 bands ->
  responses ≡ₚ concat bands ->
  exists first,
    head (concat bands) = Some first
    /\ mergeRequests L responses
       = Return (with_matrices first (stitch (distanceGrid bands))
                   (stitch (durationGrid bands))).
Proof. apply mergeRequests_grid. Qed.

Lemma mergeRequests_stitches_grid_witness :
  mergeRequests plainLibs (reverse (concat grid3))
  = Return (block 0 0 [[0; 1; 2]; [1; 0; 3]; [4; 5; 0]]%float
              [[0; 10; 20]; [10; 0; 30]; [40; 50; 0]]%float).
Proof.
  destruct (mergeRequests_stitches_grid plainLibs 2 grid3 (reverse (concat grid3)))
    as (first & Hfirst & Hmerge).
  - intros l. apply insertionSort_perm.
  - intros l. apply insertionSort_sorted.
  - lia.
  - discriminate.
  - simpl. split_and!; [| |done]; unfold bandOK; split_and!; try done.
    + intros [|[|c]] b Hb; simpl in Hb; try done; by injection Hb as <-.
    + exists 2, 2. repeat constructor.
    + intros [|[|c]] b Hb; simpl in Hb; try done; by injection Hb as <-.
    + exists 1, 1. repeat constructor.
  - apply reverse_Permutation.
  - injection Hfirst as <-. exact Hmerge.
Defined.

(** ** The shape of the chunks *)

Lemma chunkBy_loop_shape {T} (b : nat) :
  1 <= b ->
  forall (fuel : nat) (items : list T) (chunks : list (list T)),
    length items <= fuel ->
    exists full last,
      chunkBy_loop fuel items b chunks = chunks ++ full ++ [last]
      /\ concat full ++ last = items
      /\ Forall (fun ch => length ch = b) full
      /\ length last <= b
      /\ (items <> [] -> 1 <= length last).
Proof.
  intros Hb. induction fuel as [|fuel IH]; intros items chunks Hfuel; simpl.
  - destruct items; [|simpl in Hfuel; lia].
    exists [], []. split_and!; try done. simpl. lia.
  - case_decide as Hlt.
    + destruct (IH (drop b items) (chunks ++ [take b items]))
        as (full & last & Hloop & Hcat & Hfull & Hlast & Hne).
      { rewrite length_drop. lia. }
      exists (take b items :: full), last. split_and!.
      * by rewrite Hloop, <- app_assoc.
      * simpl. rewrite <- app_assoc, Hcat. apply take_drop.
      * constructor; [|done]. rewrite length_take. lia.
      * done.
      * intros _. apply Hne. intros Hnil. apply (f_equal length) in Hnil.
        rewrite length_drop in Hnil. simpl in Hnil. lia.
    + exists [], items. split_and!; try done; [lia|].
      intros Hne. destruct items; [done|simpl; lia].
Qed.

(** X2: [chunkBy] with a size of at least one returns chunks that
    concatenate to the items: chunks of exactly the size, followed by one
    last chunk of at most the size, which is empty only when there are no
    items. *)
Theorem chunkBy_shape {T} (items : list T) (chunkSize : Z) :
  (1 <= chunkSize)%Z ->
  exists full last,
    chunkBy items chunkSize = Return (full ++ [last])
    /\ concat full ++ last = items
    /\ Forall (fun ch => length ch = Z.to_nat chunkSize) full
    /\ length last <= Z.to_nat chunkSize
    /\ (items <> [] -> 1 <= length last).
Proof.
  intros Hsize. unfold chunkBy.
  destruct (Z.eqb_spec chunkSize 0); [lia|].
  destruct (Z.ltb_spec chunkSize 0); [lia|].
  destruct (chunkBy_loop_shape (Z.to_nat chunkSize) ltac:(lia)
              (length items) items [] (le_n _))
    as (full & last & Hloop & Hrest).
  exists full, last. by rewrite Hloop.
Qed.

Lemma chunkBy_shape_witness :
  exists full last,
    chunkBy [1; 2; 3; 4; 5; 6; 7] 3 = Return (full ++ [last])
    /\ full = [[1; 2; 3]; [4; 5; 6]] /\ last = [7].
Proof.
  destruct (chunkBy_shape [1; 2; 3; 4; 5; 6; 7] 3) as (full & last & Hc & _);
    [lia|].
  exists full, last. split; [exact Hc|].
  vm_compute in Hc. injection Hc as Hc.
  destruct full as [|c1 [|c2 [|c3 full]]]; simpl in Hc; try discriminate.
  - injection Hc as <- <- <-. done.
  - destruct full; discriminate.
Defined.

(** ** tableRequests never panics on a client of the package *)

Lemma forRangeE_total {A St} (f : nat -> A -> St -> outcome (error + St))
    (P : error -> Prop) (l : list A) :
  forall (i : nat) (s : St),
    (forall k x s, l !! k = Some x ->
       exists r, f (i + k) x s = Return r /\ (forall e, r = inl e -> P e)) ->
    exists r, forRangeE f i l s = Return r /\ (forall e, r = inl e -> P e).
Proof.
  induction l as [|x l IH]; intros i s Hbody; simpl.
  - eexists. split; [reflexivity|]. intros e He. discriminate.
  - destruct (Hbody 0 x s eq_refl) as (r & Hf & HP).
    rewrite Nat.add_0_r in Hf. rewrite Hf. simpl.
    destruct r as [e|s'].
    + eexists. split; [reflexivity|done].
    + apply IH. intros k y s2 Hk.
      destruct (Hbody (S k) y s2 Hk) as (r & Hr & HPr).
      exists r. split; [|done]. by rewrite <- Hr, Nat.add_succ_r.
Qed.

Lemma tableRequest_total (L : Libs) (c : client) (config : tableConfig)
    (p1 p2 : nat) (pointChunk1 pointChunk2 : list (list float)) :
  Forall (fun p => length p = 2) (pointChunk1 ++ pointChunk2) ->
  exists r,
    tableRequest L c config p1 p2 pointChunk1 pointChunk2 = Return r
    /\ (forall e, r = inl e -> exists pp, getPath L TableEndpoint pp = inl e).
Proof.
  intros Hlen. destruct (chunkString_total _ Hlen) as [s Hs].
  unfold tableRequest. rewrite Hs. simpl.
  destruct (getPath L TableEndpoint s) as [e|p] eqn:Hp.
  - eexists. split; [reflexivity|]. intros e' He'. injection He' as <-. eauto.
  - eexists. split; [reflexivity|]. intros e' He'. discriminate.
Qed.

(** [tableRequests] returns when the maximal table size is at least one,
    and an error it returns is an error of [getPath]. *)
Lemma tableRequests_total (L : Libs) (c : client) (config : tableConfig)
    (points : list Point) :
  (1 <= maxTableSize c)%Z ->
  exists r,
    tableRequests L c config points = Return r
    /\ (forall e, r = inl e -> exists pp, getPath L TableEndpoint pp = inl e).
Proof.
  intros Hsize. unfold tableRequests. rewrite convertPoints_spec. simpl.
  destruct (chunkBy_loop_spec (Z.to_nat (maxTableSize c)) ltac:(lia)
              (length (sentPoint <$> points)) (sentPoint <$> points) [] (le_n _))
    as (chunks & Hloop & Hcat & _).
  unfold chunkBy.
  destruct (Z.eqb_spec (maxTableSize c) 0); [lia|].
  destruct (Z.ltb_spec (maxTableSize c) 0); [lia|].
  rewrite Hloop. simpl.
  assert (forall ch, ch ∈ chunks -> Forall (fun p => length p = 2) ch) as Hpairs.
  { apply Forall_concat_chunks. rewrite Hcat. apply Forall_fmap, Forall_forall.
    intros p _. apply sentPoint_length. }
  apply forRangeE_total. intros k c1 s Hc1. simpl.
  apply forRangeE_total. intros k2 c2 s2 Hc2. simpl.
  destruct (tableRequest_total L c config k k2 c1 c2) as (r & Hr & He).
  { apply Forall_app. split; apply Hpairs; by eapply list_elem_of_lookup_2. }
  rewrite Hr. simpl. destruct r as [e|req].
  + eexists. split; [reflexivity|]. intros e' He'. injection He' as <-.
    by apply He.
  + eexists. split; [reflexivity|]. intros e' He'. discriminate.
Qed.

(** X3: for every point list, [tableRequests] returns when the maximal
    table size of the client is at least one, and an error it returns is an
    error of [getPath]; it panics when the size is zero or negative. *)
Theorem tableRequests_returns (L : Libs) (c : client) (config : tableConfig)
    (points : list Point) :
  ((1 <= maxTableSize c)%Z ->
     exists r,
       tableRequests L c config points = Return r
       /\ (forall e, r = inl e -> exists pp, getPath L TableEndpoint pp = inl e))
  /\ ((maxTableSize c <= 0)%Z ->
        exists p, tableRequests L c config points = Panic p).
Proof.
  split; intros Hsize.
  - by apply tableRequests_total.
  - unfold tableRequests. rewrite convertPoints_spec. simpl.
    unfold chunkBy. destruct (Z.eqb_spec (maxTableSize c) 0); simpl; [eauto|].
    destruct (Z.ltb_spec (maxTableSize c) 0); simpl; [eauto|lia].
Qed.

Lemma tableRequests_returns_witness :
  (exists r, tableRequests plainLibs client2 defaultConfig points3 = Return r)
  /\ (exists p,
        tableRequests plainLibs
          {| cache := None; host := ""; removeEmpty := false; snapRadius := 0;
             scaleFactor := 1; maxTableSize := 0; useCache := false |}
          defaultConfig points3 = Panic p).
Proof.
  split.
  - destruct (proj1 (tableRequests_returns plainLibs client2 defaultConfig points3))
      as (r & Hr & _); [vm_compute; discriminate|]. eauto.
  - apply (proj2 (tableRequests_returns plainLibs _ defaultConfig points3)).
    simpl. lia.
Defined.

(** X4: every client of the package has a maximal table size of at least
    one, a snap radius of at least zero and a scale factor that is not at
    most zero; so [tableRequests] never panics on such a client. *)
Theorem built_client_invariant (L : Libs) (c : client) (config : tableConfig)
    (points : list Point) :
  built c ->
  (1 <= maxTableSize c)%Z
  /\ (0 <= snapRadius c)%Z
  /\ PrimFloat.leb (scaleFactor c) 0 = false
  /\ exists r, tableRequests L c config points = Return r.
Proof.
  intros Hb.
  assert ((1 <= maxTableSize c)%Z /\ (0 <= snapRadius c)%Z
          /\ PrimFloat.leb (scaleFactor c) 0 = false) as (Hs & Hr & Hf).
  { induction Hb as [h|m c Hb IH|c i Hb IH|c r Hb IH|c s Hb IH|c f Hb IH|c ch Hb IH];
      try destruct IH as (IH1 & IH2 & IH3); simpl.
    - split_and!; [lia|lia|reflexivity].
    - done.
    - done.
    - unfold SnapRadius. destruct (Z.ltb_spec r 0); simpl; split_and!; done || lia.
    - unfold MaxTableSize. destruct (Z.ltb_spec s 1); simpl; split_and!; done || lia.
    - unfold ScaleFactor. destruct (PrimFloat.leb f 0) eqn:Hf; simpl; done.
    - done. }
  split_and!; try done.
  destruct (tableRequests_total L c config points Hs) as (r & Hret & _).
  eauto.
Qed.

Lemma built_client_invariant_witness :
  (1 <= maxTableSize client2)%Z
  /\ exists r, tableRequests plainLibs client2 defaultConfig points3 = Return r.
Proof.
  destruct (built_client_invariant plainLibs client2 defaultConfig points3)
    as (Hs & _ & _ & Hr).
  - apply built_MaxTableSize, built_NewClient.
  - split; [exact Hs|exact Hr].
Defined.

(** ** get: errors, the cache and the transport *)

Lemma cacheLookup_miss (L : Libs) (c : client) (uri : string) :
  cacheMiss L c uri ->
  exists c1,
    cacheLookup c (if useCache c then sha1_hex L uri else "") = Return (c1, None)
    /\ cache c1 = cache c /\ config c1 = config c
    /\ (useCache c = false -> c1 = c).
Proof.
  unfold cacheLookup. intros [Huse|(ch & Hch & Hfind)].
  - rewrite Huse. eauto.
  - destruct (useCache c) eqn:Huse; [|eauto].
    rewrite Hch. unfold lru_Get. rewrite Hfind.
    eexists. split; [reflexivity|]. split_and!; done.
Qed.

(** X5: when [get] misses the cache, the URLs parse and the transport
    answers with a status other than 200 and a body that can be read, [get]
    returns no data and an error that is an input error exactly when the
    status is 400, makes one transport call and leaves the cache as it
    was. *)
Theorem get_status_error (L : Libs) (c : client) (uri : string) (n : net L)
    (h u : URL L) (req : Request L) (w' : World L) (resp : Response) :
  cacheMiss L c uri ->
  url_Parse L (host c) = inr h -> url_Parse L uri = inr u ->
  http_NewRequest L (url_String L (url_ResolveReference L h u)) = inr req ->
  http_Do L (world n) req = (w', inr resp) ->
  StatusCode resp <> StatusOK -> ReadErr resp = None ->
  exists c',
    get L c uri n
    = Return ("",
              Some (if (StatusCode resp =? StatusBadRequest)%Z
                    then NewError ("Error in input data when getting maps: "
                                   +:+ Body resp) true
                    else NewError ("error response from OSRM: " +:+ Body resp) false),
              c', {| world := w'; calls := S (calls n) |})
    /\ cache c' = cache c /\ config c' = config c.
Proof.
  intros Hmiss Hh Hu Hreq Hdo Hstatus Hread.
  destruct (cacheLookup_miss L c uri Hmiss) as (c1 & Hlook & Hcache & Hconf & _).
  assert (host c1 = host c) as Hhost by (unfold config in Hconf; congruence).
  unfold get. rewrite Hlook. simpl. rewrite Hhost, Hh, Hu, Hreq.
  unfold Do. rewrite Hdo.
  replace (StatusCode resp =? StatusOK)%Z with false
    by (symmetry; by apply Z.eqb_neq).
  simpl. unfold handleErrorStatus. rewrite Hread.
  exists c1. split; [|done].
  by destruct (StatusCode resp =? StatusBadRequest)%Z.
Qed.

Lemma get_status_error_witness :
  exists c',
    get (libsAlways 400 "bad") (DefaultClient "http://localhost:5000" true)
      "/table/v1/driving/0,0;1,1" (net0 (libsAlways 400 "bad") 0)
    = Return ("", Some (NewError "Error in input data when getting maps: bad" true),
              c', Build_net (libsAlways 400 "bad") 1%nat 1)
    /\ cache c' = Some {| lru_size := 100; lru_items := [] |}.
Proof.
  destruct (get_status_error (libsAlways 400 "bad")
              (DefaultClient "http://localhost:5000" true)
              "/table/v1/driving/0,0;1,1" (net0 (libsAlways 400 "bad") 0)
              "http://localhost:5000" "/table/v1/driving/0,0;1,1"
              "http://localhost:5000/table/v1/driving/0,0;1,1" 1
              {| StatusCode := 400; Body := "bad"; ReadErr := None; CloseErr := None |})
    as (c' & Hget & Hcache & _); try reflexivity.
  - right. eexists. split; reflexivity.
  - discriminate.
  - exists c'. split; [exact Hget|exact Hcache].
Defined.

(** X6: when [get] misses the cache and the host or the URI does not parse,
    it returns the parse error without any transport call, and the cache is
    as it was. *)
Theorem get_parse_error (L : Libs) (c : client) (uri : string) (n : net L)
    (e : error) :
  cacheMiss L c uri ->
  url_Parse L (host c) = inl e
  \/ (exists h, url_Parse L (host c) = inr h) /\ url_Parse L uri = inl e ->
  exists c',
    get L c uri n = Return ("", Some e, c', n)
    /\ cache c' = cache c /\ config c' = config c.
Proof.
  intros Hmiss Hparse.
  destruct (cacheLookup_miss L c uri Hmiss) as (c1 & Hlook & Hcache & Hconf & _).
  assert (host c1 = host c) as Hhost by (unfold config in Hconf; congruence).
  unfold get. rewrite Hlook. simpl. rewrite Hhost.
  destruct Hparse as [Hh|[[h Hh] Hu]]; rewrite Hh; [|rewrite Hu]; eauto.
Qed.

Lemma get_parse_error_witness :
  exists e c',
    get plainLibs (DefaultClient "http://localhost:5000" false)
      (String (ascii_of_nat 127) "") (net0 plainLibs 0)
    = Return ("", Some e, c', net0 plainLibs 0).
Proof.
  destruct (get_parse_error plainLibs (DefaultClient "http://localhost:5000" false)
              (String (ascii_of_nat 127) "") (net0 plainLibs 0)
              (errorString "net/url: invalid control character in URL"))
    as (c' & Hget & _).
  - by left.
  - right. split; [eexists|]; reflexivity.
  - eauto.
Defined.

(** X7: when closing the body of a 200 fails, [get] returns the body
    together with the error of the close, and it has stored the body: the
    next [get] of the same URI returns it without error and without a
    transport call. *)
Theorem get_close_error_stores (L : Libs) (c : client) (ch : lruCache)
    (uri : string) (n : net L) (h u : URL L) (req : Request L) (w' : World L)
    (resp : Response) (e : error) :
  useCache c = true -> cache c = Some ch -> 0 < lru_size ch ->
  lru_find (sha1_hex L uri) (lru_items ch) = None ->
  url_Parse L (host c) = inr h -> url_Parse L uri = inr u ->
  http_NewRequest L (url_String L (url_ResolveReference L h u)) = inr req ->
  http_Do L (world n) req = (w', inr resp) ->
  StatusCode resp = StatusOK -> ReadErr resp = None -> CloseErr resp = Some e ->
  exists c1 c2 n1,
    get L c uri n = Return (Body resp, Some e, c1, n1)
    /\ calls n1 = S (calls n)
    /\ get L c1 uri n1 = Return (Body resp, None, c2, n1).
Proof.
  intros Huse Hcache Hsize Hfind Hh Hu Hreq Hdo Hstatus Hread Hclose.
  rewrite (get_miss_ok L c ch uri n h u req w' resp) by done.
  rewrite Hclose. do 3 eexists. split; [reflexivity|]. split; [reflexivity|].
  apply (get_hit L _ (lru_Add ch (sha1_hex L uri) (Body resp))); try done.
  by apply lru_find_Add.
Qed.

Lemma get_close_error_stores_witness :
  exists c1 c2 n1,
    get libsCloseFails (DefaultClient "http://localhost:5000" true)
      "/table/v1/driving/0,0;1,1" (net0 libsCloseFails 0)
    = Return ("{}", Some (errorString "close failed"), c1, n1)
    /\ calls n1 = 1
    /\ get libsCloseFails c1 "/table/v1/driving/0,0;1,1" n1
       = Return ("{}", None, c2, n1).
Proof.
  exact (get_close_error_stores libsCloseFails
           (DefaultClient "http://localhost:5000" true)
           {| lru_size := 100; lru_items := [] |}
           "/table/v1/driving/0,0;1,1" (net0 libsCloseFails 0)
           "http://localhost:5000" "/table/v1/driving/0,0;1,1"
           "http://localhost:5000/table/v1/driving/0,0;1,1" 1
           {| StatusCode := 200; Body := "{}"; ReadErr := None;
              CloseErr := Some (errorString "close failed") |}
           (errorString "close failed")
           eq_refl eq_refl ltac:(simpl; lia) eq_refl eq_refl eq_refl eq_refl
           eq_refl eq_refl eq_refl eq_refl).
Defined.

(** X8: a client whose cache was asked for with a size of zero or less has
    no cache and still uses it: every [get] panics on the nil cache, before
    any transport call. *)
Theorem get_WithCache_nonpositive_panics (L : Libs) (maxItems : Z) (c : client)
    (uri : string) (n : net L) :
  (maxItems <= 0)%Z ->
  get L (WithCache maxItems c) uri n = Panic NilDereference.
Proof.
  intros Hm. unfold get, cacheLookup, WithCache, lru_New. simpl.
  destruct (Z.leb_spec maxItems 0); [done|lia].
Qed.

Lemma get_WithCache_nonpositive_panics_witness :
  get plainLibs (WithCache 0 (NewClient "http://localhost:5000"))
    "/table/v1/driving/0,0;1,1" (net0 plainLibs 0)
  = Panic NilDereference.
Proof.
  apply (get_WithCache_nonpositive_panics plainLibs 0). lia.
Defined.

(** ** The requests of Table *)

(** A goroutine sends an error, or a response stamped with the block
    indices of its request. *)
Lemma answer_answers (L : Libs) (req : request) (body : string) (e : option error) :
  answers req (answer L req body e).
Proof.
  unfold answer, answers. destruct e as [e|]; [done|].
  destruct (json_Unmarshal_table L body) as [e|t]; [done|].
  destruct (negb (String.eqb (Code t) "Ok")); [done|]. simpl. eauto.
Qed.

Lemma cacheLookup_config (c : client) (key : string) (c' : client)
    (found : option string) :
  cacheLookup c key = Return (c', found) -> config c' = config c.
Proof.
  unfold cacheLookup. destruct (useCache c) eqn:Huse.
  - destruct (cache c) as [ch|]; [|done].
    destruct (lru_Get ch key) as [ch' f]. intros H. injection H as <- <-.
    unfold config. simpl. by rewrite Huse.
  - intros H. by injection H as <- <-.
Qed.

Lemma cacheStore_config (c : client) (key data : string) (c' : client) :
  cacheStore c key data = Return c' -> config c' = config c.
Proof.
  unfold cacheStore. destruct (useCache c) eqn:Huse.
  - destruct (cache c) as [ch|]; [|done]. intros H. injection H as <-.
    unfold config. simpl. by rewrite Huse.
  - intros H. by injection H as <-.
Qed.

Lemma getRemote_calls (L : Libs) (c : client) (uri : string) (n : net L) :
  calls n <= calls (getRemote L c uri n).1 <= S (calls n).
Proof.
  unfold getRemote.
  destruct (url_Parse L (host c)) as [e|h]; [simpl; lia|].
  destruct (url_Parse L uri) as [e|u]; [simpl; lia|].
  destruct (http_NewRequest L _) as [e|req]; [simpl; lia|].
  unfold Do. destruct (http_Do L (world n) req) as [w [e|resp]]; [simpl; lia|].
  destruct (negb (StatusCode resp =? StatusOK)%Z); [simpl; lia|].
  destruct (ReadErr resp); simpl; lia.
Qed.

(** The goroutine [i] among the others. *)
Lemma task_split (tasks : list task) (i : nat) (t : task) :
  tasks !! i = Some t ->
  exists before after,
    tasks = before ++ t :: after
    /\ length before = i
    /\ forall t', <[i := t']> tasks = before ++ t' :: after.
Proof.
  intros Hi. exists (take i tasks), (drop (S i) tasks).
  pose proof (lookup_lt_Some _ _ _ Hi) as Hlt.
  split_and!.
  - by rewrite take_drop_middle.
  - rewrite length_take. lia.
  - intros t'. by apply insert_take_drop.
Qed.

Lemma poolInv_update (L : Libs) (requests : list request) (c0 : client)
    (calls0 : nat) (st : pool L) (before after : list task) (t t' : task)
    (c' : client) (n' : net L) :
  poolInv requests c0 calls0 st ->
  pool_tasks st = before ++ t :: after ->
  config c' = config (pool_client st) ->
  taskOK t' -> pending t' = pending t ->
  calls (pool_net st) <= calls n' ->
  calls n' + budget t' <= calls (pool_net st) + budget t ->
  poolInv requests c0 calls0
    {| pool_client := c'; pool_net := n'; pool_out := pool_out st;
       pool_tasks := before ++ t' :: after |}.
Proof.
  intros (Hconf & Hok & (answered & Hans & Hperm) & Hlo & Hhi) Htasks Hc Ht Hp Hn1 Hn2.
  rewrite Htasks in Hok, Hperm, Hhi.
  unfold poolInv. simpl. split_and!.
  - congruence.
  - apply Forall_app in Hok as [Hb Ha]. apply Forall_cons in Ha as [_ Ha].
    apply Forall_app. split; [done|]. by constructor.
  - exists answered. split; [done|].
    rewrite bind_app, bind_cons, Hp. by rewrite bind_app, bind_cons in Hperm.
  - lia.
  - rewrite sum_list_with_app in Hhi |- *. simpl in Hhi |- *. lia.
Qed.

(** A step of a goroutine keeps the invariant. *)
Lemma stepTask_inv (L : Libs) (requests : list request) (c0 : client)
    (calls0 : nat) (runs : Z) (i : nat) (st st' : pool L) :
  poolInv requests c0 calls0 st ->
  stepTask L runs i st = Return st' ->
  poolInv requests c0 calls0 st'.
Proof.
  intros Hinv. unfold stepTask.
  destruct (pool_tasks st !! i) as [t|] eqn:Hi;
    [|intros H; by injection H as <-].
  destruct (task_split _ _ _ Hi) as (before & after & Htasks & _ & Hins).
  destruct t as [req|req|req|req resp|req r| |].
  - destruct (Z.of_nat (holders (pool_tasks st)) <? runs)%Z;
      intros H; injection H as <-; [|done].
    rewrite Hins. by eapply poolInv_update.
  - destruct (cacheLookup _ _) as [[c1 cached]|p] eqn:Hlook; [|done]. cbn [obind].
    apply cacheLookup_config in Hlook.
    destruct cached as [b|]; intros H; injection H as <-; rewrite Hins.
    + eapply poolInv_update;
        [done|done|done|exact (answer_answers L req b None)|done|lia|simpl; lia].
    + by eapply poolInv_update.
  - pose proof (getRemote_calls L (pool_client st) (path req) (pool_net st)) as Hn.
    destruct (getRemote L _ _ _) as [n1 [[data e]|resp]]; simpl in Hn;
      cbn [obind]; intros H; injection H as <-; rewrite Hins.
    + eapply poolInv_update;
        [done|done|done|exact (answer_answers L req data (Some e))|done|lia
        |simpl; lia].
    + eapply poolInv_update; [done|done|done|done|done|lia|simpl; lia].
  - destruct (cacheStore _ _ _) as [c1|p] eqn:Hstore; [|done]. cbn [obind].
    apply cacheStore_config in Hstore.
    intros H; injection H as <-. rewrite Hins.
    eapply poolInv_update;
      [done|done|done|exact (answer_answers L req (Body resp) (CloseErr resp))
      |done|lia|simpl; lia].
  - intros H; injection H as <-. rewrite Hins.
    destruct Hinv as (Hconf & Hok & (answered & Hans & Hperm) & Hlo & Hhi).
    rewrite Htasks in Hok, Hperm, Hhi.
    unfold poolInv. simpl. split_and!; try done.
    + apply Forall_app in Hok as [Hb Ha]. apply Forall_cons in Ha as [_ Ha].
      apply Forall_app. split; [done|]. by constructor.
    + apply Forall_app in Hok as [_ Ha]. apply Forall_cons in Ha as [Hr _].
      exists (answered ++ [req]). split.
      * apply Forall2_app; [done|]. by repeat constructor.
      * rewrite bind_app, bind_cons in Hperm |- *. simpl in Hperm |- *.
        rewrite <- Hperm, <- !app_assoc. simpl.
        apply Permutation_app_head. apply Permutation_middle.
    + rewrite sum_list_with_app in Hhi |- *. simpl in Hhi |- *. lia.
  - intros H; injection H as <-. rewrite Hins. by eapply poolInv_update.
  - intros H; by injection H as <-.
Qed.

Lemma runSchedule_inv (L : Libs) (requests : list request) (c0 : client)
    (calls0 : nat) (runs : Z) (sched : list nat) :
  forall st st' : pool L,
    poolInv requests c0 calls0 st ->
    runSchedule L runs sched st = Return st' ->
    poolInv requests c0 calls0 st'.
Proof.
  induction sched as [|i sched IH]; intros st st' Hinv; simpl.
  - intros H. by injection H as <-.
  - destruct (stepTask L runs i st) as [st1|p] eqn:Hstep; [|done]. simpl.
    apply IH. by eapply stepTask_inv.
Qed.

Lemma bind_pending_Queued (requests : list request) :
  (Queued <$> requests) ≫= pending = requests.
Proof. induction requests as [|req requests IH]; simpl; [done|]. by f_equal. Qed.

Lemma budget_Queued (requests : list request) :
  sum_list_with budget (Queued <$> requests) = length requests.
Proof. induction requests as [|req requests IH]; simpl; [done|]. by f_equal. Qed.

(** What [Table] reads on [out]: one result per request, each answering
    its request, in the order the goroutines sent them; the client differs
    by its cache only, and at most one transport call was made per
    request. *)
Lemma runRequests_frame_aux (L : Libs) (c : client) (cfg : tableConfig)
    (requests : list request) (sched : list nat) (n : net L)
    (results : list result) (c' : client) (n' : net L) :
  runRequests L c cfg requests sched n = Return (results, c', n') ->
  (exists answered, answered ≡ₚ requests /\ Forall2 answers answered results)
  /\ config c' = config c
  /\ calls n <= calls n' <= calls n + length requests.
Proof.
  unfold runRequests. destruct (parallelRuns cfg <? 0)%Z; [done|].
  destruct (runSchedule L _ _ _) as [st|p] eqn:Hrun; [|done]. simpl.
  case_decide as Hlen; [|done]. intros H. injection H as <- <- <-.
  assert (poolInv requests c (calls n) st)
    as (Hconf & _ & (answered & Hans & Hperm) & Hlo & Hhi).
  { eapply runSchedule_inv; [|exact Hrun].
    unfold poolInv. simpl. split_and!; [done| |exists []|lia|].
    - apply Forall_fmap, Forall_forall. by intros.
    - split; [constructor|]. by rewrite bind_pending_Queued.
    - by rewrite budget_Queued. }
  split_and!; [|done|done|simpl in *; lia].
  exists answered. split; [|done].
  assert (length (pool_tasks st ≫= pending) = 0) as Hnil.
  { apply Permutation_length in Hperm as Hl.
    rewrite length_app in Hl. apply Forall2_length in Hans. lia. }
  apply nil_length_inv in Hnil. by rewrite Hnil, app_nil_r in Hperm.
Qed.

(** [get] in the three parts of the goroutine. *)
Lemma get_parts (L : Libs) (c : client) (uri : string) (n : net L) :
  get L c uri n
  = (hit <-- cacheLookup c (cacheKey L c uri) ;;
     let (c1, cached) := hit : client * option string in
     match cached with
     | Some b => Return (b, None, c1, n)
     | None =>
         let (n1, r) := getRemote L c1 uri n in
         match r with
         | inl (data, e) => Return (data, Some e, c1, n1)
         | inr resp =>
             c2 <-- cacheStore c1 (cacheKey L c1 uri) (Body resp) ;;
             Return (Body resp, CloseErr resp, c2, n1)
         end
     end).
Proof.
  unfold get, cacheKey.
  destruct (cacheLookup c _) as [[c1 cached]|p] eqn:Hlook; [|done].
  cbn [obind]. destruct cached as [b|]; [done|].
  apply cacheLookup_config in Hlook.
  assert (useCache c1 = useCache c) as -> by (unfold config in Hlook; congruence).
  unfold getRemote.
  destruct (url_Parse L (host c1)) as [e|h]; [done|].
  destruct (url_Parse L uri) as [e|u]; [done|].
  destruct (http_NewRequest L _) as [e|req]; [done|].
  destruct (Do L n req) as [n1 [e|resp]]; [done|].
  destruct (negb (StatusCode resp =? StatusOK)%Z); [done|].
  by destruct (ReadErr resp).
Qed.

(** X21: a goroutine of [Table] that finds a place in [guard] and runs
    without any other running between its steps does one call of [get] on
    the path of its request: the cache, the world and the panic are those
    of [get], what it sends on [out] is what it makes of the data and the
    error [get] returned, and it is gone. *)
Theorem goroutine_alone_is_fetch (L : Libs) (runs : Z) (i : nat) (st : pool L)
    (req : request) :
  pool_tasks st !! i = Some (Queued req) ->
  (Z.of_nat (holders (pool_tasks st)) < runs)%Z ->
  runSchedule L runs (turn i) st
  = (f <-- fetch L (pool_client st) req (pool_net st) ;;
     let '(r, c, n) := f in
     Return {| pool_client := c; pool_net := n; pool_out := pool_out st ++ [r];
               pool_tasks := <[i := Gone]> (pool_tasks st) |}).
Proof.
  intros Hi Hroom.
  pose proof (lookup_lt_Some _ _ _ Hi) as Hlt.
  assert (forall (t : task) (tasks : list task),
            length tasks = length (pool_tasks st) ->
            <[i := t]> tasks !! i = Some t) as Hat.
  { intros t tasks Hlen. apply list_lookup_insert_eq. lia. }
  unfold fetch. rewrite get_parts.
  unfold turn. change (replicate 6 i) with [i; i; i; i; i; i].
  cbn [runSchedule]. unfold stepTask at 1. rewrite Hi.
  apply Z.ltb_lt in Hroom. rewrite Hroom.
  cbn [obind]. unfold stepTask at 1.
  cbn [pool_tasks pool_client pool_net pool_out]. rewrite Hat by done.
  destruct (cacheLookup _ _) as [[c1 cached]|p]; [|done].
  destruct cached as [b|].
  - do 4 (cbn [obind]; unfold stepTask at 1;
          cbn [pool_tasks pool_client pool_net pool_out];
          rewrite ?list_insert_insert_eq, Hat by done).
    cbn [obind]. rewrite ?list_insert_insert_eq. done.
  - cbn [obind]. unfold stepTask at 1.
    cbn [pool_tasks pool_client pool_net pool_out].
    rewrite ?list_insert_insert_eq, Hat by done.
    destruct (getRemote L c1 (path req) (pool_net st)) as [n1 [[data e]|resp]].
    + do 3 (cbn [obind]; unfold stepTask at 1;
            cbn [pool_tasks pool_client pool_net pool_out];
            rewrite ?list_insert_insert_eq, Hat by done).
      cbn [obind]. rewrite ?list_insert_insert_eq. done.
    + cbn [obind]. unfold stepTask at 1.
      cbn [pool_tasks pool_client pool_net pool_out].
      rewrite ?list_insert_insert_eq, Hat by done.
      destruct (cacheStore c1 _ _) as [c2|p]; [|done].
      do 2 (cbn [obind]; unfold stepTask at 1;
            cbn [pool_tasks pool_client pool_net pool_out];
            rewrite ?list_insert_insert_eq, Hat by done).
      cbn [obind]. rewrite ?list_insert_insert_eq. done.
Qed.

Lemma goroutine_alone_is_fetch_witness :
  runSchedule libsBlock2 16 (turn 1)
    {| pool_client := DefaultClient "http://localhost:5000" true;
       pool_net := net0 libsBlock2 0; pool_out := [];
       pool_tasks := [ Gone; Queued {| path := "/table"; req_row := 0; req_column := 1 |} ] |}
  = Return
      {| pool_client :=
           set_cache (DefaultClient "http://localhost:5000" true)
             {| lru_size := 100; lru_items := [("/table", "{}")] |};
         pool_net := Build_net libsBlock2 1%nat 1;
         pool_out := [ okResult (block 0 1 [[0; 5]; [6; 0]]%float [[0; 7]; [9; 0]]%float) ];
         pool_tasks := [Gone; Gone] |}.
Proof.
  rewrite (goroutine_alone_is_fetch libsBlock2 16 1 _
             {| path := "/table"; req_row := 0; req_column := 1 |}).
  - vm_compute. reflexivity.
  - reflexivity.
  - vm_compute. reflexivity.
Defined.

(** *** The goroutines always come to their end *)

Lemma cacheLookup_ready (c : client) (key : string) :
  cacheReady c ->
  exists c' found, cacheLookup c key = Return (c', found) /\ cacheReady c'.
Proof.
  unfold cacheReady, cacheLookup. intros [Huse|[ch Hch]].
  - rewrite Huse. eauto.
  - destruct (useCache c) eqn:Huse; [|eauto].
    rewrite Hch. destruct (lru_Get ch key) as [ch' found].
    do 2 eexists. split; [reflexivity|]. right. simpl. eauto.
Qed.

Lemma cacheStore_ready (c : client) (key data : string) :
  cacheReady c -> exists c', cacheStore c key data = Return c' /\ cacheReady c'.
Proof.
  unfold cacheReady, cacheStore. intros [Huse|[ch Hch]].
  - rewrite Huse. eauto.
  - destruct (useCache c) eqn:Huse; [|eauto].
    rewrite Hch. eexists. split; [reflexivity|]. right. simpl. eauto.
Qed.

(** A step of a goroutine on a client whose cache is there: the goroutine
    is gone or finds no place in [guard], and nothing changes; or it comes
    nearer to its end. *)
Lemma stepTask_progress (L : Libs) (runs : Z) (i : nat) (st : pool L) (t : task) :
  cacheReady (pool_client st) ->
  pool_tasks st !! i = Some t ->
  exists st',
    stepTask L runs i st = Return st'
    /\ cacheReady (pool_client st')
    /\ (st' = st
        /\ (t = Gone
            \/ (exists req, t = Queued req)
               /\ ~ (Z.of_nat (holders (pool_tasks st)) < runs)%Z)
        \/ exists t',
             pool_tasks st' = <[i := t']> (pool_tasks st)
             /\ stepsLeft t' < stepsLeft t
             /\ (holds t' = true \/ t' = Gone)
             /\ (holds t = true \/ (Z.of_nat (holders (pool_tasks st)) < runs)%Z)).
Proof.
  intros Hready Hi. unfold stepTask. rewrite Hi.
  destruct t as [req|req|req|req resp|req r| |].
  - destruct (Z.ltb_spec (Z.of_nat (holders (pool_tasks st))) runs).
    + eexists. split; [reflexivity|]. split; [done|]. right.
      eexists. simpl. split_and!; [done|simpl; lia|by left|by right].
    + eexists. split; [reflexivity|]. split; [done|]. left.
      split; [done|]. right. split; [eauto|lia].
  - destruct (cacheLookup_ready _ (cacheKey L (pool_client st) (path req)) Hready)
      as (c1 & found & -> & Hready1).
    cbn [obind]. destruct found as [b|];
      (eexists; split; [reflexivity|]; split; [done|]; right;
       eexists; simpl; split_and!; [done|simpl; lia|by left|by left]).
  - destruct (getRemote L _ _ _) as [n1 [[data e]|resp]];
      (eexists; split; [reflexivity|]; split; [done|]; right;
       eexists; simpl; split_and!; [done|simpl; lia|by left|by left]).
  - destruct (cacheStore_ready _ (cacheKey L (pool_client st) (path req))
                (Body resp) Hready) as (c1 & -> & Hready1).
    cbn [obind]. eexists. split; [reflexivity|]. split; [done|]. right.
    eexists. simpl. split_and!; [done|simpl; lia|by left|by left].
  - eexists. split; [reflexivity|]. split; [done|]. right.
    eexists. simpl. split_and!; [done|simpl; lia|by left|by left].
  - eexists. split; [reflexivity|]. split; [done|]. right.
    eexists. simpl. split_and!; [done|simpl; lia|by right|by left].
  - eexists. split; [reflexivity|]. split; [done|]. left. split; [done|by left].
Qed.

Lemma stepTask_none (L : Libs) (runs : Z) (i : nat) (st : pool L) :
  pool_tasks st !! i = None -> stepTask L runs i st = Return st.
Proof. intros Hi. unfold stepTask. by rewrite Hi. Qed.

(** Whatever the interleaving, no goroutine panics on a client whose cache
    is there. *)
Lemma runSchedule_ready (L : Libs) (runs : Z) (sched : list nat) :
  forall st : pool L,
    cacheReady (pool_client st) ->
    exists st',
      runSchedule L runs sched st = Return st'
      /\ cacheReady (pool_client st')
      /\ length (pool_tasks st') = length (pool_tasks st).
Proof.
  induction sched as [|i sched IH]; intros st Hready; simpl; [eauto|].
  destruct (pool_tasks st !! i) as [t|] eqn:Hi.
  - destruct (stepTask_progress L runs i st t Hready Hi)
      as (st1 & -> & Hready1 & Hcase).
    cbn [obind]. destruct (IH st1 Hready1) as (st' & Hrun & Hready' & Hlen).
    exists st'. split_and!; [done|done|].
    rewrite Hlen. destruct Hcase as [[-> _]|(t' & -> & _)]; [done|].
    by rewrite length_insert.
  - rewrite stepTask_none by done. cbn [obind]. by apply IH.
Qed.

Lemma runSchedule_app (L : Libs) (runs : Z) (sched1 sched2 : list nat) :
  forall st : pool L,
    runSchedule L runs (sched1 ++ sched2) st
    = (st' <-- runSchedule L runs sched1 st ;; runSchedule L runs sched2 st').
Proof.
  induction sched1 as [|i sched1 IH]; intros st; simpl; [done|].
  destruct (stepTask L runs i st) as [st1|p]; simpl; [apply IH|done].
Qed.

(** A goroutine that cannot move does not move, however often it is
    scheduled. *)
Lemma stuck_stays (L : Libs) (runs : Z) (i k : nat) (st : pool L) :
  stepTask L runs i st = Return st ->
  runSchedule L runs (replicate k i) st = Return st.
Proof.
  intros Hstep. induction k as [|k IH]; simpl; [done|]. by rewrite Hstep.
Qed.

(** A goroutine that has its place in [guard] comes to its end in as many
    steps as it has left. *)
Lemma holder_ends (L : Libs) (runs : Z) (i k : nat) :
  forall (st : pool L) (t : task),
    cacheReady (pool_client st) ->
    pool_tasks st !! i = Some t ->
    holds t = true -> stepsLeft t <= k ->
    exists st',
      runSchedule L runs (replicate k i) st = Return st'
      /\ cacheReady (pool_client st')
      /\ pool_tasks st' = <[i := Gone]> (pool_tasks st).
Proof.
  induction k as [|k IH]; intros st t Hready Hi Hholds Hleft.
  - destruct t; simpl in *; try lia; done.
  - simpl.
    destruct (stepTask_progress L runs i st t Hready Hi)
      as (st1 & -> & Hready1 & [[_ Hstuck]|(t' & Htasks & Hless & Ht' & _)]).
    { destruct Hstuck as [->|[[req ->] _]]; done. }
    cbn [obind].
    assert (pool_tasks st1 !! i = Some t') as Hi1.
    { rewrite Htasks. apply list_lookup_insert_eq. by eapply lookup_lt_Some. }
    destruct Ht' as [Hholds'| ->].
    + destruct (IH st1 t' Hready1 Hi1 Hholds') as (st' & Hrun & Hready' & Htasks');
        [lia|].
      exists st'. split_and!; [done|done|].
      by rewrite Htasks', Htasks, list_insert_insert_eq.
    + exists st1. split_and!; [|done|done].
      apply stuck_stays. unfold stepTask. by rewrite Hi1.
Qed.

(** The turn of a goroutine: it stays where it is when it is gone or finds
    no place in [guard], and comes to its end when it has a place or finds
    one. *)
Lemma turn_spec (L : Libs) (runs : Z) (i : nat) (st : pool L) :
  cacheReady (pool_client st) ->
  exists st',
    runSchedule L runs (turn i) st = Return st'
    /\ cacheReady (pool_client st')
    /\ (st' = st
        /\ (pool_tasks st !! i = None
            \/ pool_tasks st !! i = Some Gone
            \/ (exists req, pool_tasks st !! i = Some (Queued req))
               /\ ~ (Z.of_nat (holders (pool_tasks st)) < runs)%Z)
        \/ is_Some (pool_tasks st !! i)
           /\ pool_tasks st' = <[i := Gone]> (pool_tasks st)).
Proof.
  intros Hready. unfold turn.
  destruct (pool_tasks st !! i) as [t|] eqn:Hi.
  - destruct (holds t) eqn:Hholds.
    + destruct (holder_ends L runs i 6 st t Hready Hi Hholds)
        as (st' & Hrun & Hready' & Htasks); [destruct t; simpl; lia|].
      exists st'. split_and!; [done|done|]. right. eauto.
    + change (replicate 6 i) with (i :: replicate 5 i). cbn [runSchedule].
      destruct (stepTask_progress L runs i st t Hready Hi)
        as (st1 & Hstep & Hready1 & [[-> Hstuck]|(t' & Htasks & Hless & Ht' & _)]).
      * rewrite Hstep. cbn [obind]. rewrite (stuck_stays L runs i 5 st Hstep).
        exists st. split_and!; [done|done|]. left. split; [done|]. right.
        destruct Hstuck as [->|[[req ->] Hfull]]; [by left|right; eauto].
      * rewrite Hstep. cbn [obind].
        assert (pool_tasks st1 !! i = Some t') as Hi1.
        { rewrite Htasks. apply list_lookup_insert_eq. by eapply lookup_lt_Some. }
        destruct Ht' as [Hholds'| ->].
        -- destruct (holder_ends L runs i 5 st1 t' Hready1 Hi1 Hholds')
             as (st' & Hrun & Hready' & Htasks');
             [destruct t; simpl in *; lia|].
           exists st'. split_and!; [done|done|]. right. split; [eauto|].
           by rewrite Htasks', Htasks, list_insert_insert_eq.
        -- exists st1. split_and!; [|done|by right; eauto].
           apply stuck_stays. unfold stepTask. by rewrite Hi1.
  - exists st. split_and!; [|done|by left; eauto].
    apply stuck_stays. by apply stepTask_none.
Qed.

Lemma holders_settled (tasks : list task) :
  Forall (fun t => holds t = false) tasks -> holders tasks = 0.
Proof.
  unfold holders. induction 1 as [|t tasks Ht _ IH]; simpl; [done|]. by rewrite Ht.
Qed.

(** After the first turns every goroutine that had its turn is gone or
    waits for a place in [guard]. *)
Lemma first_turns (L : Libs) (runs : Z) (order : list nat) :
  forall st : pool L,
    cacheReady (pool_client st) ->
    exists st',
      runSchedule L runs (order ≫= turn) st = Return st'
      /\ cacheReady (pool_client st')
      /\ length (pool_tasks st') = length (pool_tasks st)
      /\ forall j t, pool_tasks st !! j = Some t ->
           exists t', pool_tasks st' !! j = Some t'
                      /\ (holds t = false \/ j ∈ order -> holds t' = false).
Proof.
  induction order as [|i order IH]; intros st Hready.
  - exists st. split_and!; try done. intros j t Hj. exists t. split; [done|].
    intros [?|Hin]; [done|by apply elem_of_nil in Hin].
  - rewrite bind_cons, runSchedule_app.
    destruct (turn_spec L runs i st Hready) as (st1 & -> & Hready1 & Hcase).
    cbn [obind].
    destruct (IH st1 Hready1) as (st' & Hrun & Hready' & Hlen & Hall).
    exists st'. split_and!; [done|done| |].
    + rewrite Hlen. destruct Hcase as [[-> _]|[_ ->]]; [done|].
      by rewrite length_insert.
    + intros j t Hj. destruct Hcase as [[-> Hstuck]|[_ Htasks]].
      * destruct (Hall j t Hj) as (t' & Hj' & Ht'). exists t'. split; [done|].
        intros [Hholds|Hin]; [by apply Ht'; left|].
        apply elem_of_cons in Hin as [->|Hin]; [|by apply Ht'; right].
        apply Ht'. left.
        destruct Hstuck as [Hnone|[Hgone|[[req Hq] _]]];
          rewrite Hj in *; simplify_eq; done.
      * destruct (decide (j = i)) as [->|Hne].
        -- destruct (Hall i Gone) as (t' & Hj' & Ht').
           { rewrite Htasks. apply list_lookup_insert_eq. by eapply lookup_lt_Some. }
           exists t'. split; [done|]. intros _. apply Ht'. by left.
        -- destruct (Hall j t) as (t' & Hj' & Ht').
           { rewrite Htasks. by rewrite list_lookup_insert_ne. }
           exists t'. split; [done|].
           intros [Hholds|Hin]; [by apply Ht'; left|].
           apply elem_of_cons in Hin as [->|Hin]; [done|by apply Ht'; right].
Qed.

(** When no goroutine has a place in [guard] and [guard] has room for one,
    every goroutine that has its turn comes to its end. *)
Lemma second_turns (L : Libs) (runs : Z) (order : list nat) :
  (0 < runs)%Z ->
  forall st : pool L,
    cacheReady (pool_client st) ->
    Forall (fun t => holds t = false) (pool_tasks st) ->
    exists st',
      runSchedule L runs (order ≫= turn) st = Return st'
      /\ cacheReady (pool_client st')
      /\ length (pool_tasks st') = length (pool_tasks st)
      /\ forall j t, pool_tasks st !! j = Some t ->
           exists t', pool_tasks st' !! j = Some t'
                      /\ (t = Gone \/ j ∈ order -> t' = Gone).
Proof.
  intros Hruns. induction order as [|i order IH]; intros st Hready Hset.
  - exists st. split_and!; try done. intros j t Hj. exists t. split; [done|].
    intros [?|Hin]; [done|by apply elem_of_nil in Hin].
  - rewrite bind_cons, runSchedule_app.
    destruct (turn_spec L runs i st Hready) as (st1 & -> & Hready1 & Hcase).
    cbn [obind].
    assert (Forall (fun t => holds t = false) (pool_tasks st1)) as Hset1.
    { destruct Hcase as [[-> _]|[_ ->]]; [done|]. by apply Forall_insert. }
    destruct (IH st1 Hready1 Hset1) as (st' & Hrun & Hready' & Hlen & Hall).
    exists st'. split_and!; [done|done| |].
    + rewrite Hlen. destruct Hcase as [[-> _]|[_ ->]]; [done|].
      by rewrite length_insert.
    + intros j t Hj. destruct Hcase as [[-> Hstuck]|[_ Htasks]].
      * destruct (Hall j t Hj) as (t' & Hj' & Ht'). exists t'. split; [done|].
        intros [Hgone|Hin]; [by apply Ht'; left|].
        apply elem_of_cons in Hin as [->|Hin]; [|by apply Ht'; right].
        apply Ht'. left.
        destruct Hstuck as [Hnone|[Hgone|[_ Hfull]]].
        -- rewrite Hj in Hnone. done.
        -- rewrite Hj in Hgone. by injection Hgone.
        -- rewrite holders_settled in Hfull by done. simpl in Hfull. lia.
      * destruct (decide (j = i)) as [->|Hne].
        -- destruct (Hall i Gone) as (t' & Hj' & Ht').
           { rewrite Htasks. apply list_lookup_insert_eq. by eapply lookup_lt_Some. }
           exists t'. split; [done|]. intros _. apply Ht'. by left.
        -- destruct (Hall j t) as (t' & Hj' & Ht').
           { rewrite Htasks. by rewrite list_lookup_insert_ne. }
           exists t'. split; [done|].
           intros [Hgone|Hin]; [by apply Ht'; left|].
           apply elem_of_cons in Hin as [->|Hin]; [done|by apply Ht'; right].
Qed.

(** However the scheduler interleaved them, the goroutines all come to
    their end. *)
Lemma completion_ends (L : Libs) (runs : Z) (st : pool L) :
  (0 < runs)%Z ->
  cacheReady (pool_client st) ->
  exists st',
    runSchedule L runs (completion (length (pool_tasks st))) st = Return st'
    /\ Forall (fun t => t = Gone) (pool_tasks st').
Proof.
  intros Hruns Hready. unfold completion. rewrite runSchedule_app.
  destruct (first_turns L runs (seq 0 (length (pool_tasks st))) st Hready)
    as (st1 & -> & Hready1 & Hlen1 & Hall1).
  cbn [obind].
  assert (Forall (fun t => holds t = false) (pool_tasks st1)) as Hset1.
  { apply Forall_lookup. intros j t1 Hj1.
    pose proof (lookup_lt_Some _ _ _ Hj1) as Hlt. rewrite Hlen1 in Hlt.
    destruct (lookup_lt_is_Some_2 (pool_tasks st) j Hlt) as [t Hj].
    destruct (Hall1 j t Hj) as (t' & Hj' & Ht'). rewrite Hj1 in Hj'.
    injection Hj' as <-. apply Ht'. right. apply elem_of_seq. lia. }
  destruct (second_turns L runs (seq 0 (length (pool_tasks st))) Hruns st1
              Hready1 Hset1) as (st2 & -> & _ & Hlen2 & Hall2).
  exists st2. split; [done|].
  apply Forall_lookup. intros j t2 Hj2.
  pose proof (lookup_lt_Some _ _ _ Hj2) as Hlt. rewrite Hlen2 in Hlt.
  destruct (lookup_lt_is_Some_2 (pool_tasks st1) j Hlt) as [t1 Hj1].
  destruct (Hall2 j t1 Hj1) as (t' & Hj' & Ht'). rewrite Hj2 in Hj'.
  injection Hj' as <-. apply Ht'. right. apply elem_of_seq. lia.
Qed.

Lemma bind_pending_Gone (tasks : list task) :
  Forall (fun t => t = Gone) tasks -> tasks ≫= pending = [].
Proof. induction 1 as [|t tasks -> _ IH]; simpl; done. Qed.

(** [Table] gets its results: on a client whose cache is there, with a
    place in [guard] for one goroutine at least, however the goroutines are
    interleaved. *)
Lemma runRequests_returns_aux (L : Libs) (c : client) (cfg : tableConfig)
    (requests : list request) (sched : list nat) (n : net L) :
  (1 <= parallelRuns cfg)%Z -> cacheReady c ->
  exists results c' n',
    runRequests L c cfg requests sched n = Return (results, c', n').
Proof.
  intros Hruns Hready. unfold runRequests.
  destruct (Z.ltb_spec (parallelRuns cfg) 0); [lia|].
  rewrite runSchedule_app.
  set (st0 := {| pool_client := c; pool_net := n; pool_out := [];
                 pool_tasks := Queued <$> requests |}).
  destruct (runSchedule_ready L (parallelRuns cfg) sched st0 Hready)
    as (st1 & Hrun1 & Hready1 & Hlen1).
  rewrite Hrun1. cbn [obind].
  simpl in Hlen1. rewrite length_fmap in Hlen1. rewrite <- Hlen1.
  destruct (completion_ends L (parallelRuns cfg) st1) as (st2 & Hrun2 & Hgone);
    [lia|done|].
  rewrite Hrun2. cbn [obind].
  assert (poolInv requests c (calls n) st2)
    as (_ & _ & (answered & Hans & Hperm) & _).
  { eapply runSchedule_inv; [|exact Hrun2].
    eapply runSchedule_inv; [|exact Hrun1].
    unfold poolInv. simpl. split_and!; [done| |exists []|lia|].
    - apply Forall_fmap, Forall_forall. by intros.
    - split; [constructor|]. by rewrite bind_pending_Queued.
    - by rewrite budget_Queued. }
  rewrite bind_pending_Gone, app_nil_r in Hperm by done.
  apply Permutation_length in Hperm. apply Forall2_length in Hans.
  rewrite decide_True by lia. eauto.
Qed.

(** X9: however the goroutines of [Table] are interleaved, on a client
    whose cache is there when it is used and with a place in [guard] for
    one goroutine at least, they all come to their end and [Table] reads
    one result per request: the results, in the order they were sent,
    answer the requests in some order, each an error or a response stamped
    with the block indices of its request; at most one transport call is
    made per request, and nothing of the client changes but its cache. *)
Theorem runRequests_results (L : Libs) (c : client) (cfg : tableConfig)
    (requests : list request) (sched : list nat) (n : net L) :
  (1 <= parallelRuns cfg)%Z -> cacheReady c ->
  exists results c' n',
    runRequests L c cfg requests sched n = Return (results, c', n')
    /\ (exists answered, answered ≡ₚ requests /\ Forall2 answers answered results)
    /\ length results = length requests
    /\ config c' = config c
    /\ calls n <= calls n' <= calls n + length requests.
Proof.
  intros Hruns Hready.
  destruct (runRequests_returns_aux L c cfg requests sched n Hruns Hready)
    as (results & c' & n' & Hrun).
  exists results, c', n'. split; [done|].
  destruct (runRequests_frame_aux L c cfg requests sched n results c' n' Hrun)
    as ((answered & Hperm & Hans) & Hconf & Hcalls).
  split_and!; [eauto| |done|lia|lia].
  apply Forall2_length in Hans. apply Permutation_length in Hperm. lia.
Qed.

Lemma runRequests_results_witness :
  exists results c' n',
    runRequests libsBlock2 (DefaultClient "http://localhost:5000" true) defaultConfig
      [ {| path := "/table"; req_row := 0; req_column := 0 |};
        {| path := "/table"; req_row := 0; req_column := 1 |};
        {| path := "/table"; req_row := 1; req_column := 0 |};
        {| path := "/table"; req_row := 1; req_column := 1 |} ]
      [0; 1; 2; 3; 0; 1; 2; 3; 0; 1; 2; 3] (net0 libsBlock2 0)
    = Return (results, c', n')
    /\ length results = 4
    /\ calls n' <= 0 + 4
    /\ calls n' = 4.
Proof.
  destruct (runRequests_results libsBlock2 (DefaultClient "http://localhost:5000" true)
              defaultConfig
              [ {| path := "/table"; req_row := 0; req_column := 0 |};
                {| path := "/table"; req_row := 0; req_column := 1 |};
                {| path := "/table"; req_row := 1; req_column := 0 |};
                {| path := "/table"; req_row := 1; req_column := 1 |} ]
              [0; 1; 2; 3; 0; 1; 2; 3; 0; 1; 2; 3] (net0 libsBlock2 0))
    as (results & c' & n' & Hrun & _ & Hlen & _ & Hcalls).
  - simpl. lia.
  - right. simpl. eauto.
  - exists results, c', n'. split_and!; [exact Hrun|exact Hlen|apply Hcalls|].
    vm_compute in Hrun. by injection Hrun as <- <- <-.
Defined.

(** The loop that empties [out]: the responses and the errors of the
    results, each in the order of the results. *)
Lemma collect_spec (requests : list request) (results : list result) :
  Forall2 answers requests results ->
  forall (responses : list tableResponse) (errs : list error),
    exists rs es,
      collect results responses errs = Return (responses ++ rs, errs ++ es)
      /\ length rs + length es = length results
      /\ (forall e, Some e ∈ err <$> results -> es <> []).
Proof.
  induction 1 as [|req r requests results Hans _ IH]; intros responses errs; simpl.
  - exists [], []. rewrite !app_nil_r. split_and!; try done.
    intros e He. by apply elem_of_nil in He.
  - unfold answers in Hans. destruct (err r) as [e|] eqn:He.
    + destruct (IH responses (errs ++ [e])) as (rs & es & Hc & Hlen & _).
      exists rs, (e :: es). rewrite Hc, <- app_assoc. simpl.
      split_and!; [done|lia|done].
    + destruct Hans as (t & Ht & _). rewrite Ht.
      destruct (IH (responses ++ [t]) errs) as (rs & es & Hc & Hlen & Hes).
      exists (t :: rs), es. rewrite Hc, <- app_assoc. simpl.
      split_and!; [done|lia|].
      intros e' He'. apply elem_of_cons in He' as [?|He']; [done|by eapply Hes].
Qed.

(** X10: when one of its requests fails, [Table] returns an error of the
    package and no matrix, whatever the other requests gave and however the
    goroutines were interleaved. *)
Theorem Table_fails_when_a_request_fails (L : Libs) (c : client) (cfg : tableConfig)
    (sched : list nat) (points points' : list Point)
    (indices : list nat) (n : net L) (requests : list request)
    (results : list result) (c' : client) (n' : net L) (e : error) :
  points <> [] ->
  (if removeEmpty c then deflateZeroes points else Return (points, []))
  = Return (points', indices) ->
  tableRequests L c cfg points' = Return (inr requests) ->
  runRequests L c cfg requests sched n = Return (results, c', n') ->
  Some e ∈ err <$> results ->
  exists msg input,
    Table L c cfg sched points n = Return ([], [], Some (NewError msg input), c', n').
Proof.
  intros Hne Hpoints Hreqs Hrun He.
  destruct (runRequests_frame_aux L c cfg requests sched n results c' n' Hrun)
    as [(answered & _ & Hall) _].
  destruct (collect_spec _ _ Hall [] []) as (rs & es & Hc & _ & Hes).
  specialize (Hes e He).
  unfold Table. rewrite decide_False by (destruct points; [done|simpl; lia]).
  rewrite Hpoints. simpl. rewrite Hreqs. simpl. rewrite Hrun. simpl.
  rewrite Hc. simpl.
  destruct es as [|e0 es]; [done|].
  rewrite decide_True by (simpl; lia).
  destruct (aggregateErrors_first e0 es) as [msg Hmsg]. rewrite Hmsg. simpl.
  eauto.
Qed.

Lemma Table_fails_when_a_request_fails_witness :
  exists msg input c' n',
    Table libsMixed client2 defaultConfig requestOrder points3 (net0 libsMixed 0)
    = Return ([], [], Some (NewError msg input), c', n').
Proof.
  edestruct (Table_fails_when_a_request_fails libsMixed client2 defaultConfig
               requestOrder points3 points3 [] (net0 libsMixed 0))
    as (msg & input & HT).
  - discriminate.
  - reflexivity.
  - vm_compute. reflexivity.
  - vm_compute. reflexivity.
  - apply list_elem_of_here.
  - exists msg, input. do 2 eexists. exact HT.
Defined.

Lemma collect_ok (responses : list tableResponse) :
  forall acc errs,
    collect (okResult <$> responses) acc errs = Return (acc ++ responses, errs).
Proof.
  induction responses as [|t responses IH]; intros acc errs; simpl.
  - by rewrite app_nil_r.
  - by rewrite IH, <- app_assoc.
Qed.

(** X11: on a client that keeps empty points, when every request succeeds
    and the responses are the blocks of a grid (as for [mergeRequests]),
    [Table] returns the stitched distances and durations and no error,
    however the goroutines were interleaved and in whatever order their
    responses arrived. *)
Theorem Table_returns_stitched_grid (L : Libs) (c : client) (cfg : tableConfig)
    (sched : list nat) (points : list Point) (n : net L)
    (requests : list request) (responses : list tableResponse)
    (c' : client) (n' : net L) (C : nat) (bands : list (list tableResponse)) :
  (forall l, sort_Slice L _ less l ≡ₚ l) ->
  (forall l, Sorted notAfter (sort_Slice L _ less l)) ->
  removeEmpty c = false -> points <> [] ->
  tableRequests L c cfg points = Return (inr requests) ->
  runRequests L c cfg requests sched n = Return (okResult <$> responses, c', n') ->
  1 <= C -> bands <> [] -> gridFrom C 0 bands ->
  responses ≡ₚ concat bands ->
  Table L c cfg sched points n
  = Return (stitch (distanceGrid bands), stitch (durationGrid bands), None, c', n').
Proof.
  intros Hperm Hsorted Hre Hne Hreqs Hrun HC Hbands Hgrid Hresp.
  destruct (mergeRequests_grid L C bands responses) as (first & _ & Hmerge); try done.
  destruct (runRequests_frame_aux L _ _ _ _ _ _ _ _ Hrun) as (_ & Hconf & _).
  assert (removeEmpty c' = false) as Hre'
    by (unfold config in Hconf; congruence).
  unfold Table. rewrite decide_False by (destruct points; [done|simpl; lia]).
  rewrite Hre. simpl. rewrite Hreqs. simpl. rewrite Hrun. simpl.
  rewrite collect_ok. simpl. rewrite Hmerge. simpl. by rewrite Hre'.
Qed.

Lemma Table_returns_stitched_grid_witness :
  exists c' n',
    Table libsGrid3 client2 defaultConfig interleaved4 points3 (net0 libsGrid3 0)
    = Return ([[0; 1; 2]; [1; 0; 3]; [4; 5; 0]]%float,
              [[0; 10; 20]; [10; 0; 30]; [40; 50; 0]]%float, None, c', n').
Proof.
  do 2 eexists.
  eapply (Table_returns_stitched_grid libsGrid3 client2 defaultConfig interleaved4
            points3 (net0 libsGrid3 0) _
            [ block 1 1 [[0]]%float [[0]]%float;
              block 0 1 [[2]; [3]]%float [[20]; [30]]%float;
              block 1 0 [[4; 5]]%float [[40; 50]]%float;
              block 0 0 [[0; 1]; [1; 0]]%float [[0; 10]; [10; 0]]%float ]
            _ _ 2 grid3).
  - intros l. apply insertionSort_perm.
  - intros l. apply insertionSort_sorted.
  - reflexivity.
  - discriminate.
  - vm_compute. reflexivity.
  - vm_compute. reflexivity.
  - lia.
  - discriminate.
  - simpl. split_and!; [| |done]; unfold bandOK; split_and!; try done.
    + intros [|[|c]] b Hb; simpl in Hb; try done; by injection Hb as <-.
    + exists 2, 2. repeat constructor.
    + intros [|[|c]] b Hb; simpl in Hb; try done; by injection Hb as <-.
    + exists 1, 1. repeat constructor.
  - rewrite <- (reverse_Permutation (concat grid3)).
    apply perm_skip, perm_swap.
Defined.

Lemma inflateZeroes_no_matrix (i0 : nat) (indices : list nat) (n : nat) :
  i0 < n -> inflateZeroes [] (i0 :: indices) n = Panic IndexOutOfRange.
Proof.
  intros Hi. unfold inflateZeroes. simpl. unfold inflateCell at 1.
  rewrite (idx_lookup _ _ (replicate n 0%float)) by (by apply lookup_replicate_2).
  reflexivity.
Qed.

(** X12: on a client that ignores empty points, when every request succeeds
    but the merged response holds no distance matrix (the table was asked
    for durations only) and at least one point is kept, [Table] panics in
    [inflateZeroes] instead of returning the durations. *)
Theorem Table_IgnoreEmpty_without_distances_panics (L : Libs) (c : client)
    (cfg : tableConfig) (sched : list nat)
    (points points' : list Point) (i0 : nat) (indices : list nat) (n : net L)
    (requests : list request) (responses : list tableResponse)
    (c' : client) (n' : net L) (routeResp : tableResponse) :
  removeEmpty c = true ->
  deflateZeroes points = Return (points', i0 :: indices) ->
  tableRequests L c cfg points' = Return (inr requests) ->
  runRequests L c cfg requests sched n = Return (okResult <$> responses, c', n') ->
  mergeRequests L responses = Return routeResp ->
  Distances routeResp = [] ->
  Table L c cfg sched points n = Panic IndexOutOfRange.
Proof.
  intros Hre Hdef Hreqs Hrun Hmerge Hdis.
  destruct (deflateZeroes_Return _ _ _ Hdef) as (_ & _ & Hlt & _).
  apply Forall_cons in Hlt as [Hi0 _].
  destruct (runRequests_frame_aux L _ _ _ _ _ _ _ _ Hrun) as (_ & Hconf & _).
  assert (removeEmpty c' = true) as Hre'
    by (unfold config in Hconf; congruence).
  unfold Table. rewrite decide_False by lia.
  rewrite Hre, Hdef. simpl. rewrite Hreqs. simpl. rewrite Hrun. simpl.
  rewrite collect_ok. simpl. rewrite Hmerge. simpl.
  by rewrite Hre', Hdis, inflateZeroes_no_matrix.
Qed.

Lemma Table_IgnoreEmpty_without_distances_panics_witness :
  Table libsDurations (IgnoreEmpty (NewClient "http://localhost:5000") true)
    {| withDistance := false; withDuration := true; parallelRuns := 16;
       withApproachCurb := false; withExclude := [] |}
    requestOrder points0 (net0 libsDurations 0)
  = Panic IndexOutOfRange.
Proof.
  eapply (Table_IgnoreEmpty_without_distances_panics libsDurations _ _ _ points0
            [[1; 1]; [2; 2]]%float 1 [2] _ _
            [ {| Code := "Ok"; Message := ""; Distances := [];
                 Durations := [[0; 7]; [9; 0]]%float; row := 0; column := 0 |} ]).
  - reflexivity.
  - vm_compute. reflexivity.
  - vm_compute. reflexivity.
  - vm_compute. reflexivity.
  - vm_compute. reflexivity.
  - reflexivity.
Defined.

(** ** The message of a batch of errors *)

(** X13: the error [Table] makes of a non-empty batch of errors carries as
    its message one empty line per error followed by the messages of the
    errors in the order they were collected, all joined by newlines, and it
    is an input error exactly when the first of them is one. *)
Theorem aggregateErrors_message (e : error) (errs : list error) :
  aggregateErrors (e :: errs)
  = Return (NewError
              (strings_Join (replicate (length (e :: errs)) ""
                             ++ (Error_ <$> e :: errs)) newline)
              (isInputError e)).
Proof.
  unfold aggregateErrors.
  destruct (forRange_inv
    (fun (_ : nat) (err_ : error) (s : bool * list string) =>
       e0 <-- idx (e :: errs) 0 ;;
       Return (if isInputError e0 then true else s.1, s.2 ++ [Error_ err_]))
    (fun k s =>
       s.1 = match k with 0 => false | S _ => isInputError e end
       /\ s.2 = replicate (length (e :: errs)) ""
                ++ (Error_ <$> take k (e :: errs)))
    (e :: errs) 0 (false, replicate (length (e :: errs)) ""))
    as (s & Hs & Hflag & Hmsgs).
  - split; [done|]. by rewrite take_0, app_nil_r.
  - intros k x s Hk [Hflag Hmsgs]. eexists. split; [reflexivity|].
    cbv beta. cbn [fst snd]. split.
    + destruct (isInputError e) eqn:He; [done|]. rewrite Hflag. by destruct k.
    + rewrite Hmsgs, (take_S_r _ _ _ Hk), fmap_app, <- app_assoc. done.
  - rewrite Hs. simpl. rewrite Hmsgs, take_ge by done.
    simpl in Hflag. rewrite Hflag. by destruct (isInputError e).
Qed.

(** ** The options of Table *)

Set Warnings "-clear-no-such-hyp".

(** X14: whatever options of the package [Table] is given, the number of
    parallel runs of its configuration is at least one (it is 16 or the
    positive number of a [ParallelRuns] option), and each of duration,
    distance and curb approach is asked for exactly when its option is
    among them. *)
Theorem tableConfigOf_spec (opts : list TableOption) :
  (1 <= parallelRuns (tableConfigOf opts))%Z
  /\ (parallelRuns (tableConfigOf opts) = 16%Z
      \/ ParallelRuns (parallelRuns (tableConfigOf opts)) ∈ opts)
  /\ (withDuration (tableConfigOf opts) = true <-> WithDuration ∈ opts)
  /\ (withDistance (tableConfigOf opts) = true <-> WithDistance ∈ opts)
  /\ (withApproachCurb (tableConfigOf opts) = true <-> WithApproachCurb ∈ opts).
Proof.
  unfold tableConfigOf.
  induction opts as [|opt opts IH] using rev_ind.
  - simpl. split_and!; [lia|by left|..];
      (split; [done|intros H; by apply elem_of_nil in H]).
  - rewrite foldl_app. simpl.
    destruct IH as (Hruns & Hwhich & Hdur & Hdis & Hcurb).
    setoid_rewrite elem_of_app. setoid_rewrite list_elem_of_singleton.
    destruct opt as [| | |exclude|runs]; simpl;
      [..|destruct (Z.ltb_spec 0 runs); simpl];
      rewrite ?Hdur, ?Hdis, ?Hcurb;
      (split_and!; [lia|naive_solver..]).
Qed.

(** ** The path of a table request *)

(** X15: the path of the request of a pair of chunks is the path [getPath]
    makes of their points followed, in this order, by the annotations
    (always present: both when neither or both are asked for), the curb
    approaches, the exclusions, the scale factor and the radiuses when they
    are set, the indices of the first chunk as sources and the indices of
    the second chunk as destinations. *)
Theorem tableRequest_path (L : Libs) (c : client) (cfg : tableConfig)
    (p1 p2 : nat) (pointChunk1 pointChunk2 : list (list float)) (p : string) :
  Forall (fun point => length point = 2) (pointChunk1 ++ pointChunk2) ->
  getPath L TableEndpoint
    (strings_Join (coordString <$> pointChunk1 ++ pointChunk2) ";") = inr p ->
  tableRequest L c cfg p1 p2 pointChunk1 pointChunk2
  = Return (inr {| path := p +:+ "?annotations=" +:+ annotationList cfg
                            +:+ optionalParameters c cfg
                                  (length pointChunk1 + length pointChunk2)
                            +:+ "&sources=" +:+ indexList 0 (length pointChunk1)
                            +:+ "&destinations="
                            +:+ indexList (length pointChunk1) (length pointChunk2);
                   req_row := p1; req_column := p2 |}).
Proof. apply tableRequest_path_aux. Qed.

Lemma tableRequest_path_witness :
  tableRequest plainLibs
    (SnapRadius (NewClient "http://localhost:5000") 25).1
    (tableConfigOf [WithDuration; WithApproachCurb])
    0 1 [[1; 1]; [2; 2]]%float [[3; 3]]%float
  = Return (inr {| path :=
                     "/table/v1/driving/1.000000,1.000000;2.000000,2.000000;3.000000,3.000000"
                     +:+ "?annotations=duration&approaches=curb;curb;curb"
                     +:+ "&radiuses=25;25;25&sources=0;1&destinations=2";
                   req_row := 0; req_column := 1 |}).
Proof.
  rewrite (tableRequest_path plainLibs _ _ 0 1 [[1; 1]; [2; 2]]%float [[3; 3]]%float
             "/table/v1/driving/1.000000,1.000000;2.000000,2.000000;3.000000,3.000000").
  - vm_compute. reflexivity.
  - repeat constructor.
  - vm_compute. reflexivity.
Defined.

(** ** Points that are all empty *)

Lemma deflate_loop_zero (points : list Point) :
  Forall (fun point => isZeroPoint point = Return true) points ->
  forall i acc, forRange deflateStep i points acc = Return acc.
Proof.
  induction 1 as [|p points Hp _ IH]; intros i acc; simpl; [done|].
  unfold deflateStep at 1. rewrite Hp. simpl. apply IH.
Qed.

(** X16: on points that are all absent or zero, [deflateZeroes] keeps
    nothing; and for no points at all [tableRequests] does not fail: it
    plans one request, for the block (0, 0), whose points, sources and
    destinations are empty. *)
Theorem tableRequests_no_points (L : Libs) (c : client) (cfg : tableConfig)
    (points : list Point) (p : string) :
  Forall (fun point => isZeroPoint point = Return true) points ->
  (1 <= maxTableSize c)%Z ->
  getPath L TableEndpoint "" = inr p ->
  deflateZeroes points = Return ([], [])
  /\ tableRequests L c cfg []
     = Return (inr [ {| path := p +:+ "?annotations=" +:+ annotationList cfg
                                 +:+ optionalParameters c cfg 0
                                 +:+ "&sources=" +:+ "&destinations=";
                        req_row := 0; req_column := 0 |} ]).
Proof.
  intros Hzero Hsize Hp. split.
  - unfold deflateZeroes. by apply deflate_loop_zero.
  - unfold tableRequests, convertPoints, chunkBy. simpl.
    destruct (Z.eqb_spec (maxTableSize c) 0); [lia|].
    destruct (Z.ltb_spec (maxTableSize c) 0); [lia|]. simpl.
    rewrite (tableRequest_path_aux L c cfg 0 0 [] [] p); [done|constructor|done].
Qed.

Lemma tableRequests_no_points_witness :
  deflateZeroes [[0; 0]; []; [0; 0]]%float = Return ([], [])
  /\ tableRequests plainLibs (NewClient "http://localhost:5000") defaultConfig []
     = Return (inr [ {| path := "/table/v1/driving/"
                                 +:+ "?annotations=duration,distance"
                                 +:+ "&sources=&destinations=";
                        req_row := 0; req_column := 0 |} ]).
Proof.
  destruct (tableRequests_no_points plainLibs (NewClient "http://localhost:5000")
              defaultConfig [[0; 0]; []; [0; 0]]%float "/table/v1/driving/")
    as [Hd Ht].
  - repeat constructor.
  - simpl. lia.
  - reflexivity.
  - split; [exact Hd|]. rewrite Ht. vm_compute. reflexivity.
Defined.

(** ** The polylines of the legs *)

Lemma forRangeE_app {A St} (f : nat -> A -> St -> outcome (error + St))
    (l1 l2 : list A) :
  forall (i : nat) (s : St),
    forRangeE f i (l1 ++ l2) s
    = (r <-- forRangeE f i l1 s ;;
       match r with
       | inl e => Return (inl e)
       | inr s' => forRangeE f (i + length l1) l2 s'
       end).
Proof.
  induction l1 as [|x l1 IH]; intros i s; simpl.
  - by rewrite Nat.add_0_r.
  - destruct (f i x s) as [[e|s']|p]; simpl; try done.
    by rewrite IH, Nat.add_succ_comm.
Qed.

(** The steps of leg [i], when they all decode, are appended to
    [decodedLegs[i]] in their order. *)
Lemma decodeSteps_exact (L : Libs) (i : nat) (steps : list Step) :
  (forall step, step ∈ steps ->
     exists coords, polyline_DecodeCoords L (Step_Geometry step) = inr coords) ->
  forall (decodedLegs : list (list (list float))) (leg : list (list float)),
    decodedLegs !! i = Some leg ->
    decodeSteps L i steps decodedLegs
    = Return (inr (<[i := leg ++ concat (decodedStep L <$> steps)]> decodedLegs)).
Proof.
  unfold decodeSteps. generalize 0 as k.
  induction steps as [|step steps IH]; intros k Hdec dl leg Hleg; simpl.
  - by rewrite app_nil_r, list_insert_id.
  - destruct (Hdec step) as [coords Hc]; [by left|].
    rewrite Hc, (idx_lookup _ _ _ Hleg). simpl.
    rewrite (IH (S k)) with (leg := leg ++ coords).
    + rewrite list_insert_insert_eq, <- app_assoc.
      unfold decodedStep at 2. by rewrite Hc.
    + intros step' Hin. apply Hdec. by right.
    + rewrite list_lookup_insert_eq; [done|by eapply lookup_lt_Some].
Qed.

(** The loop of [Polyline] over the legs, from leg [length pre] on, when
    [decodedLegs] has a place for every leg. *)
Lemma decodeLegs_exact (L : Libs) (legs : list Leg) :
  (forall leg step, leg ∈ legs -> step ∈ Steps leg ->
     exists coords, polyline_DecodeCoords L (Step_Geometry step) = inr coords) ->
  forall (pre : list (list (list float))) (m : nat),
    length legs <= m ->
    forRangeE (fun i leg decodedLegs => decodeSteps L i (Steps leg) decodedLegs)
      (length pre) legs (pre ++ replicate m [])
    = Return (inr (pre ++ (legCoords L <$> legs) ++ replicate (m - length legs) [])).
Proof.
  induction legs as [|leg legs IH]; intros Hdec pre m Hm; simpl.
  - by rewrite Nat.sub_0_r.
  - destruct m as [|m]; [simpl in Hm; lia|]. simpl.
    rewrite (decodeSteps_exact L (length pre) (Steps leg)) with (leg := []).
    + simpl. rewrite insert_app_r_alt, Nat.sub_diag by lia. simpl.
      change (pre ++ concat (decodedStep L <$> Steps leg) :: replicate m [])
        with (pre ++ [legCoords L leg] ++ replicate m []).
      rewrite app_assoc.
      replace (S (length pre)) with (length (pre ++ [legCoords L leg]))
        by (rewrite length_app; simpl; lia).
      rewrite IH.
      * by rewrite <- app_assoc.
      * intros leg' step Hleg' Hstep. apply (Hdec leg' step); [by right|done].
      * simpl in Hm. lia.
    + intros step Hstep. apply (Hdec leg step); [by left|done].
    + by rewrite list_lookup_middle.
Qed.

(** What [Polyline] does up to the loop over the legs, when the route
    request gets an answer that decodes with code Ok and a first route. *)
Lemma Polyline_route (L : Libs) (c : client) (n : net L) (points : list Point)
    (path0 body : string) (c' : client) (n' : net L)
    (routeResp : RouteResponse) (route : Route) (routes : list Route) :
  points <> [] ->
  getPath L RouteEndpoint (routePoints points) = inr path0 ->
  get L c (path0 +:+ routeQuery) n = Return (body, None, c', n') ->
  json_Unmarshal_route L body = inr routeResp ->
  Route_Code routeResp = "Ok" ->
  Routes routeResp = route :: routes ->
  Polyline L c points n
  = (d <-- forRangeE (fun i leg decodedLegs =>
                        decodeSteps L i (Steps leg) decodedLegs)
             0 (Legs route) (replicate (length points - 1) []) ;;
     match d with
     | inl e => Return ("", [], Some e, c', n')
     | inr decodedLegs =>
         Return (Geometry route, map (polyline_EncodeCoords L) decodedLegs,
                 None, c', n')
     end).
Proof.
  intros Hne Hpath Hget Hjson Hcode Hroutes.
  unfold Polyline. rewrite decide_False by (destruct points; [done|simpl; lia]).
  rewrite pointsParameter_spec. simpl. rewrite Hpath.
  fold routeQuery. rewrite Hget. simpl. rewrite Hjson, Hcode. simpl.
  by rewrite Hroutes.
Qed.

(** X17: when the route request gets an answer that decodes with code Ok, a
    first route of at most one leg per pair of consecutive points and steps
    whose geometries decode, the polyline [Polyline] returns for a leg is
    the encoding of the decoded coordinates of its steps, one step after the
    other, and the polyline of a pair of points the route has no leg for is
    the encoding of no coordinates. *)
Theorem Polyline_legs (L : Libs) (c : client) (n : net L) (points : list Point)
    (path0 body : string) (c' : client) (n' : net L)
    (routeResp : RouteResponse) (route : Route) (routes : list Route) :
  points <> [] ->
  getPath L RouteEndpoint (routePoints points) = inr path0 ->
  get L c (path0 +:+ routeQuery) n = Return (body, None, c', n') ->
  json_Unmarshal_route L body = inr routeResp ->
  Route_Code routeResp = "Ok" ->
  Routes routeResp = route :: routes ->
  length (Legs route) <= length points - 1 ->
  (forall leg step, leg ∈ Legs route -> step ∈ Steps leg ->
     exists coords, polyline_DecodeCoords L (Step_Geometry step) = inr coords) ->
  Polyline L c points n
  = Return (Geometry route,
            map (polyline_EncodeCoords L)
              ((legCoords L <$> Legs route)
               ++ replicate (length points - 1 - length (Legs route)) []),
            None, c', n').
Proof.
  intros Hne Hpath Hget Hjson Hcode Hroutes Hlegs Hsteps.
  rewrite (Polyline_route L c n points path0 body c' n' routeResp route routes)
    by done.
  pose proof (decodeLegs_exact L (Legs route) Hsteps [] _ Hlegs) as Hloop.
  simpl in Hloop. by rewrite Hloop.
Qed.

Lemma Polyline_legs_witness :
  Polyline (libsRoute [route1]) (NewClient "http://localhost:5000")
    points2 (net0 (libsRoute [route1]) 0)
  = Return ("mfp_I__vpAqJ", ["3"], None, NewClient "http://localhost:5000",
            Build_net (libsRoute [route1]) 1%nat 1).
Proof.
  rewrite (Polyline_legs (libsRoute [route1]) _ _ points2
             "/route/v1/driving/13.388860,52.517037;13.397634,52.529407" "{}"
             (NewClient "http://localhost:5000")
             (Build_net (libsRoute [route1]) 1%nat 1)
             {| Route_Code := "Ok"; Routes := [route1]; Route_Message := "" |}
             route1 []).
  - reflexivity.
  - discriminate.
  - vm_compute. reflexivity.
  - vm_compute. reflexivity.
  - reflexivity.
  - reflexivity.
  - reflexivity.
  - simpl. lia.
  - intros leg step _ _. eexists. reflexivity.
Defined.

(** The loop over the steps does not depend on the index the loop counts
    with. *)
Lemma decodeSteps_from (L : Libs) (i : nat) (steps : list Step) :
  forall (k : nat) (decodedLegs : list (list (list float))),
    forRangeE
      (fun _ step decodedLegs =>
         match polyline_DecodeCoords L (Step_Geometry step) with
         | inl e => Return (inl e)
         | inr coords =>
             leg <-- idx decodedLegs i ;;
             Return (inr (<[i := leg ++ coords]> decodedLegs))
         end)
      k steps decodedLegs
    = decodeSteps L i steps decodedLegs.
Proof.
  unfold decodeSteps.
  induction steps as [|step steps IH]; intros k dl; simpl; [done|].
  destruct (polyline_DecodeCoords L (Step_Geometry step)) as [e|coords]; [done|].
  destruct (idx dl i) as [leg|p]; simpl; [|done].
  by rewrite (IH (S k)), (IH 1).
Qed.

Lemma decodeSteps_app (L : Libs) (i : nat) (steps1 steps2 : list Step)
    (decodedLegs : list (list (list float))) :
  decodeSteps L i (steps1 ++ steps2) decodedLegs
  = (r <-- decodeSteps L i steps1 decodedLegs ;;
     match r with
     | inl e => Return (inl e)
     | inr decodedLegs' => decodeSteps L i steps2 decodedLegs'
     end).
Proof.
  unfold decodeSteps at 1. rewrite forRangeE_app.
  rewrite (decodeSteps_from L i steps1 0).
  destruct (decodeSteps L i steps1 decodedLegs) as [[e|dl]|p]; simpl; try done.
  apply decodeSteps_from.
Qed.

(** X18: [Polyline] makes room for one leg per pair of consecutive points
    and trusts the answer to hold no more: when the first route has a leg
    beyond them that has a step, and the geometries decode, [Polyline]
    writes out of range and panics. *)
Theorem Polyline_more_legs_than_pairs_panics (L : Libs) (c : client) (n : net L)
    (points : list Point) (path0 body : string) (c' : client) (n' : net L)
    (routeResp : RouteResponse) (route : Route) (routes : list Route) (leg : Leg) :
  points <> [] ->
  getPath L RouteEndpoint (routePoints points) = inr path0 ->
  get L c (path0 +:+ routeQuery) n = Return (body, None, c', n') ->
  json_Unmarshal_route L body = inr routeResp ->
  Route_Code routeResp = "Ok" ->
  Routes routeResp = route :: routes ->
  Legs route !! (length points - 1) = Some leg ->
  Steps leg <> [] ->
  (forall leg step, leg ∈ Legs route -> step ∈ Steps leg ->
     exists coords, polyline_DecodeCoords L (Step_Geometry step) = inr coords) ->
  Polyline L c points n = Panic IndexOutOfRange.
Proof.
  intros Hne Hpath Hget Hjson Hcode Hroutes Hleg Hsteps Hdec.
  rewrite (Polyline_route L c n points path0 body c' n' routeResp route routes)
    by done.
  set (m := length points - 1) in *.
  assert (length (take m (Legs route)) = m) as Hm.
  { apply lookup_lt_Some in Hleg. rewrite length_take. lia. }
  rewrite <- (take_drop_middle _ _ _ Hleg) in Hdec |- *.
  rewrite forRangeE_app.
  assert (forall leg' step, leg' ∈ take m (Legs route) -> step ∈ Steps leg' ->
            exists coords, polyline_DecodeCoords L (Step_Geometry step) = inr coords)
    as Hdec1.
  { intros leg' step Hleg' Hstep. apply (Hdec leg' step); [|done].
    apply elem_of_app. by left. }
  pose proof (decodeLegs_exact L (take m (Legs route)) Hdec1 [] m) as Hloop.
  simpl in Hloop. rewrite Hloop by lia. simpl.
  destruct (Steps leg) as [|step steps] eqn:Hst; [done|].
  destruct (Hdec leg step) as [coords Hc].
  { apply elem_of_app. right. by left. }
  { rewrite Hst. by left. }
  unfold decodeSteps. simpl. rewrite Hc. unfold idx.
  rewrite lookup_ge_None_2; [done|].
  rewrite length_app, length_fmap, length_replicate. lia.
Qed.

Lemma Polyline_more_legs_than_pairs_panics_witness :
  Polyline (libsRoute [route1]) (NewClient "http://localhost:5000")
    [[13.388860; 52.517037]]%float (net0 (libsRoute [route1]) 0)
  = Panic IndexOutOfRange.
Proof.
  eapply (Polyline_more_legs_than_pairs_panics (libsRoute [route1]) _ _
            [[13.388860; 52.517037]]%float
            "/route/v1/driving/13.388860,52.517037" "{}"
            (NewClient "http://localhost:5000")
            (Build_net (libsRoute [route1]) 1%nat 1)
            {| Route_Code := "Ok"; Routes := [route1]; Route_Message := "" |}
            route1 []).
  - discriminate.
  - vm_compute. reflexivity.
  - vm_compute. reflexivity.
  - reflexivity.
  - reflexivity.
  - reflexivity.
  - reflexivity.
  - discriminate.
  - intros leg step _ _. eexists. reflexivity.
Defined.

(** X19: when a step of one of the first [len(points) - 1] legs of the
    first route has a geometry that does not decode, and the steps before
    it (those of the legs before its leg and the steps before it in its
    leg) do, [Polyline] returns the error of the decoder for that step with
    no polyline at all; the client and the world are as the request left
    them. *)
Theorem Polyline_undecodable_step (L : Libs) (c : client) (n : net L)
    (points : list Point) (path0 body : string) (c' : client) (n' : net L)
    (routeResp : RouteResponse) (route : Route) (routes : list Route)
    (legs1 legs2 : list Leg) (leg : Leg) (steps1 steps2 : list Step) (step : Step)
    (e : error) :
  points <> [] ->
  getPath L RouteEndpoint (routePoints points) = inr path0 ->
  get L c (path0 +:+ routeQuery) n = Return (body, None, c', n') ->
  json_Unmarshal_route L body = inr routeResp ->
  Route_Code routeResp = "Ok" ->
  Routes routeResp = route :: routes ->
  Legs route = legs1 ++ leg :: legs2 ->
  Steps leg = steps1 ++ step :: steps2 ->
  length legs1 < length points - 1 ->
  (forall leg' step', leg' ∈ legs1 -> step' ∈ Steps leg' ->
     exists coords, polyline_DecodeCoords L (Step_Geometry step') = inr coords) ->
  (forall step', step' ∈ steps1 ->
     exists coords, polyline_DecodeCoords L (Step_Geometry step') = inr coords) ->
  polyline_DecodeCoords L (Step_Geometry step) = inl e ->
  Polyline L c points n = Return ("", [], Some e, c', n').
Proof.
  intros Hne Hpath Hget Hjson Hcode Hroutes Hlegs Hsteps Hlt Hdec1 Hdec2 He.
  rewrite (Polyline_route L c n points path0 body c' n' routeResp route routes)
    by done.
  rewrite Hlegs, forRangeE_app.
  pose proof (decodeLegs_exact L legs1 Hdec1 [] (length points - 1)) as Hloop.
  simpl in Hloop. rewrite Hloop by lia. simpl.
  rewrite Hsteps, decodeSteps_app.
  rewrite (decodeSteps_exact L (length legs1) steps1 Hdec2) with (leg := []).
  - simpl. unfold decodeSteps. simpl. by rewrite He.
  - rewrite lookup_app_r by (by rewrite length_fmap).
    rewrite length_fmap, Nat.sub_diag.
    destruct (length points - 1 - length legs1) as [|k] eqn:Hk; [lia|done].
Qed.

Lemma Polyline_undecodable_step_witness :
  Polyline (libsBadGeometry [route1]) (NewClient "http://localhost:5000")
    points2 (net0 (libsBadGeometry [route1]) 0)
  = Return ("", [], Some (errorString "unterminated sequence"),
            NewClient "http://localhost:5000",
            Build_net (libsBadGeometry [route1]) 1%nat 1).
Proof.
  eapply (Polyline_undecodable_step (libsBadGeometry [route1]) _ _ points2
            "/route/v1/driving/13.388860,52.517037;13.397634,52.529407" "{}"
            _ _
            {| Route_Code := "Ok"; Routes := [route1]; Route_Message := "" |}
            route1 [] [] []
            {| Steps := [ {| Step_Geometry := "mfp_I__vpAWBQ" |};
                          {| Step_Geometry := "yer_IcuupACa" |};
                          {| Step_Geometry := "}sr_IevwpA" |} ] |}
            []
            [ {| Step_Geometry := "yer_IcuupACa" |};
              {| Step_Geometry := "}sr_IevwpA" |} ]
            {| Step_Geometry := "mfp_I__vpAWBQ" |}).
  - discriminate.
  - vm_compute. reflexivity.
  - vm_compute. reflexivity.
  - reflexivity.
  - reflexivity.
  - reflexivity.
  - reflexivity.
  - reflexivity.
  - simpl. lia.
  - intros leg' step' Hin. by apply elem_of_nil in Hin.
  - intros step' Hin. by apply elem_of_nil in Hin.
  - reflexivity.
Defined.

(** ** Tables without the empty points *)

(** [inflateZeroes] on the indices [deflateZeroes] gave and a square matrix
    of the deflated size. *)
Lemma inflateZeroes_deflated (points deflated : list Point) (indices : list nat)
    (matrix : list (list float)) :
  deflateZeroes points = Return (deflated, indices) ->
  length matrix = length deflated ->
  Forall (fun mrow => length mrow = length deflated) matrix ->
  exists inflated,
    inflateZeroes matrix indices (length points) = Return inflated
    /\ inflateInv (length points) indices matrix (fun _ _ => True) inflated.
Proof.
  intros Hd Hrows Hcols.
  apply deflateZeroes_Return in Hd as (Hlen & Hsorted & Hlt & _ & _).
  apply inflateZeroes_inv; [by apply StronglySorted_lt_NoDup|done|].
  intros a b Ha Hb. unfold cell.
  destruct (lookup_lt_is_Some_2 matrix a) as [mrow Hmrow]; [lia|].
  rewrite Hmrow. apply lookup_lt_is_Some_2.
  rewrite Forall_forall in Hcols.
  rewrite (Hcols mrow) by (by eapply list_elem_of_lookup_2). lia.
Qed.

(** X20: on a client that ignores empty points, when every request succeeds
    and the merged distances and durations are square matrices over the
    points that were kept, [Table] returns no error and two matrices over
    all the points: the cell of two kept points is the cell of the merged
    matrix at their positions among the kept points, and every cell in the
    row or the column of a point that was left out is zero. *)
Theorem Table_IgnoreEmpty_inflates (L : Libs) (c : client) (cfg : tableConfig)
    (sched : list nat) (points points' : list Point)
    (indices : list nat) (n : net L) (requests : list request)
    (responses : list tableResponse) (c' : client) (n' : net L)
    (routeResp : tableResponse) :
  removeEmpty c = true -> points <> [] ->
  deflateZeroes points = Return (points', indices) ->
  tableRequests L c cfg points' = Return (inr requests) ->
  runRequests L c cfg requests sched n = Return (okResult <$> responses, c', n') ->
  mergeRequests L responses = Return routeResp ->
  length (Distances routeResp) = length points' ->
  Forall (fun mrow => length mrow = length points') (Distances routeResp) ->
  length (Durations routeResp) = length points' ->
  Forall (fun mrow => length mrow = length points') (Durations routeResp) ->
  exists distances durations,
    Table L c cfg sched points n = Return (distances, durations, None, c', n')
    /\ inflateInv (length points) indices (Distances routeResp)
         (fun _ _ => True) distances
    /\ inflateInv (length points) indices (Durations routeResp)
         (fun _ _ => True) durations.
Proof.
  intros Hre Hne Hdef Hreqs Hrun Hmerge Hdis1 Hdis2 Hdur1 Hdur2.
  destruct (inflateZeroes_deflated _ _ _ _ Hdef Hdis1 Hdis2) as (dis & Hdis & Hidis).
  destruct (inflateZeroes_deflated _ _ _ _ Hdef Hdur1 Hdur2) as (dur & Hdur & Hidur).
  destruct (runRequests_frame_aux L _ _ _ _ _ _ _ _ Hrun) as (_ & Hconf & _).
  assert (removeEmpty c' = true) as Hre'
    by (unfold config in Hconf; congruence).
  exists dis, dur. split; [|done].
  unfold Table. rewrite decide_False by (destruct points; [done|simpl; lia]).
  rewrite Hre, Hdef. simpl. rewrite Hreqs. simpl. rewrite Hrun. simpl.
  rewrite collect_ok. simpl. rewrite Hmerge. simpl.
  by rewrite Hre', Hdis, Hdur.
Qed.

Lemma Table_IgnoreEmpty_inflates_witness :
  exists distances durations,
    Table libsBlock2 (IgnoreEmpty (NewClient "http://localhost:5000") true)
      defaultConfig requestOrder points0 (net0 libsBlock2 0)
    = Return (distances, durations, None,
              IgnoreEmpty (NewClient "http://localhost:5000") true,
              Build_net libsBlock2 1%nat 1)
    /\ inflateInv 3 [1; 2] [[0; 5]; [6; 0]]%float (fun _ _ => True) distances
    /\ inflateInv 3 [1; 2] [[0; 7]; [9; 0]]%float (fun _ _ => True) durations.
Proof.
  eapply (Table_IgnoreEmpty_inflates libsBlock2
            (IgnoreEmpty (NewClient "http://localhost:5000") true)
            defaultConfig requestOrder points0 [[1; 1]; [2; 2]]%float
            [1; 2] (net0 libsBlock2 0) _
            [ {| Code := "Ok"; Message := ""; Distances := [[0; 5]; [6; 0]]%float;
                 Durations := [[0; 7]; [9; 0]]%float; row := 0; column := 0 |} ]
            _ _
            {| Code := "Ok"; Message := ""; Distances := [[0; 5]; [6; 0]]%float;
               Durations := [[0; 7]; [9; 0]]%float; row := 0; column := 0 |}).
  - reflexivity.
  - discriminate.
  - vm_compute. reflexivity.
  - vm_compute. reflexivity.
  - vm_compute. reflexivity.
  - vm_compute. reflexivity.
  - reflexivity.
  - repeat constructor.
  - reflexivity.
  - repeat constructor.
Defined.
